(** * Fixed-point quantisation and arithmetic ([fixed_point.py])

    A shallow embedding of the fixed-point helper.  Python integers are
    unbounded, so they are [Z].  A Python float is a binary64 value: a
    finite one is the rational it denotes, and every float operation the
    module performs (int to float, [*], [/], int [/] int) is the exact
    result rounded to the nearest binary64 value, ties to even, by
    [round_double]; beyond the binary64 range the operation gives an
    infinity or raises, as Python does.  The real arguments of the module
    are floats, as it annotates them.  The two zeros are not told apart:
    nothing in the module depends on the sign of a zero.  Exceptions are
    explicit: every function returns a [result]. *)

From Stdlib Require Import ZArith QArith Qround Qabs Qpower Qreduction.
From Stdlib Require Import String Ascii Bool Lia Lqa.
From Stdlib Require HexadecimalFacts HexadecimalPos HexadecimalN.

Local Open Scope string_scope.
Local Open Scope Z_scope.

(** ** Exceptions *)

(** The exceptions the module can raise, named after the statement or the
    operation that raises them. *)
Inductive exn : Type :=
| BadRounding          (* ValueError raised by _round_to_int *)
| BadOverflow          (* ValueError raised by _apply_overflow *)
| NegativeShiftCount   (* ValueError: << or >> by a negative count *)
| NaNToInteger         (* ValueError: round, floor or ceil of a NaN *)
| InfinityToInteger    (* OverflowError: round, floor or ceil of an infinity *)
| IntTooLargeForFloat  (* OverflowError: float * int, float / int *)
| QuotientTooLarge     (* OverflowError: int / int beyond the float range *)
| DivisionByZero.      (* ZeroDivisionError *)

Inductive py_class : Type := ValueError | OverflowError | ZeroDivisionError.

Definition class_of (e : exn) : py_class :=
  match e with
  | BadRounding | BadOverflow | NegativeShiftCount | NaNToInteger => ValueError
  | InfinityToInteger | IntTooLargeForFloat | QuotientTooLarge => OverflowError
  | DivisionByZero => ZeroDivisionError
  end.

Inductive result (A : Type) : Type :=
| Ok (a : A)
| Raise (e : exn).

Arguments Ok {A} a.
Arguments Raise {A} e.

Definition bind {A B : Type} (m : result A) (k : A -> result B) : result B :=
  match m with
  | Ok a => k a
  | Raise e => Raise e
  end.

Notation "x <- m ;; k" := (bind m (fun x => k))
  (at level 61, m at next level, right associativity).

Definition is_ok {A : Type} (m : result A) : bool :=
  match m with Ok _ => true | Raise _ => false end.

(** ** Python integer primitives *)

(** [a << n]: raises on a negative count. *)
Definition lshift (a n : Z) : result Z :=
  if n <? 0 then Raise NegativeShiftCount else Ok (Z.shiftl a n).

(** [a >> n]: arithmetic shift, raises on a negative count. *)
Definition rshift (a n : Z) : result Z :=
  if n <? 0 then Raise NegativeShiftCount else Ok (Z.shiftr a n).

(** Nearest integer of a rational, decided from the floor and the
    fractional part; a fractional part of exactly one half goes to the even
    neighbour.  It is [round(y)] on a finite float, and the rounding of a
    mantissa in [round_double]. *)
Definition py_round (y : Q) : Z :=
  let f := Qfloor y in
  match Qcompare (y - inject_Z f) (1 # 2) with
  | Lt => f
  | Gt => f + 1
  | Eq => if Z.even f then f else f + 1
  end.

(** ** Python floats *)

Inductive float : Type :=
| Finite (q : Q)
| Infinity (negative : bool)
| NaN.

Coercion Finite : Q >-> float.
Bind Scope Q_scope with float.

Definition Qpow2 (e : Z) : Q := Qpower 2 e.

(** The integer [l] with [2^l <= a < 2^(l+1)], for a positive [a]. *)
Definition Qlog2 (a : Q) : Z :=
  let l := Z.log2 (Qnum a) - Z.log2 (Z.pos (Qden a)) in
  if Qle_bool (Qpow2 l) a then l else l - 1.

(** Rounding to binary64: 53 bits of mantissa, exponents of the least bit
    from -1074 (the subnormals) upwards, ties to even, and an infinity once
    the rounded value reaches [2^1024]. *)
Definition round_double (x : Q) : float :=
  let x := Qred x in
  if Qeq_bool x 0 then Finite 0
  else
    let a := Qabs x in
    let e := Z.max (Qlog2 a - 52) (-1074) in
    let m := py_round (a / Qpow2 e) in
    let v := (inject_Z m * Qpow2 e)%Q in
    if Qle_bool (Qpow2 1024) v then Infinity (negb (Qle_bool 0 x))
    else Finite (Qred (if Qle_bool 0 x then v else - v)).

Definition is_negative (q : Q) : bool := negb (Qle_bool 0 q).

(** [float(n)], implicit in [float * int] and [float / int]. *)
Definition float_of_int (n : Z) : result float :=
  match round_double (inject_Z n) with
  | Infinity _ => Raise IntTooLargeForFloat
  | f => Ok f
  end.

(** [x * y] on floats: never raises. *)
Definition float_mul (x y : float) : float :=
  match x, y with
  | NaN, _ | _, NaN => NaN
  | Finite a, Finite b => round_double (a * b)
  | Infinity s, Finite b | Finite b, Infinity s =>
      if Qeq_bool b 0 then NaN else Infinity (xorb s (is_negative b))
  | Infinity s, Infinity t => Infinity (xorb s t)
  end.

(** [x / y] on floats: raises on a zero divisor. *)
Definition float_div (x y : float) : result float :=
  match x, y with
  | _, Finite b =>
      if Qeq_bool b 0 then Raise DivisionByZero
      else match x with
           | Finite a => Ok (round_double (a / b))
           | Infinity s => Ok (Infinity (xorb s (is_negative b)))
           | NaN => Ok NaN
           end
  | NaN, _ | _, NaN => Ok NaN
  | Finite _, Infinity _ => Ok (Finite 0)
  | Infinity _, Infinity _ => Ok NaN
  end.

(** [x + y] and [x - y] on floats, for callers that step off a bound. *)
Definition float_add (x y : float) : float :=
  match x, y with
  | NaN, _ | _, NaN => NaN
  | Finite a, Finite b => round_double (a + b)
  | Infinity s, Finite _ | Finite _, Infinity s => Infinity s
  | Infinity s, Infinity t => if Bool.eqb s t then Infinity s else NaN
  end.

Definition float_opp (x : float) : float :=
  match x with
  | Finite a => Finite (Qred (- a))
  | Infinity s => Infinity (negb s)
  | NaN => NaN
  end.

Definition float_sub (x y : float) : float := float_add x (float_opp y).

(** [a / b] on integers: the quotient correctly rounded to a float. *)
Definition int_true_div (a b : Z) : result float :=
  if b =? 0 then Raise DivisionByZero
  else match round_double (inject_Z a / inject_Z b) with
       | Infinity _ => Raise QuotientTooLarge
       | f => Ok f
       end.

(** [int(round(y))], [math.floor(y)], [math.ceil(y)]. *)
Definition to_integer (rnd : Q -> Z) (y : float) : result Z :=
  match y with
  | Finite q => Ok (rnd q)
  | Infinity _ => Raise InfinityToInteger
  | NaN => Raise NaNToInteger
  end.

Definition round_float : float -> result Z := to_integer py_round.

Definition math_floor : float -> result Z := to_integer Qfloor.

Definition math_ceil : float -> result Z := to_integer Qceiling.

(** ** String formatting: [f"0x{u:0{width}X}"] *)

Fixpoint upper_hex (d : Hexadecimal.uint) : string :=
  match d with
  | Hexadecimal.Nil => EmptyString
  | Hexadecimal.D0 r => String "0" (upper_hex r)
  | Hexadecimal.D1 r => String "1" (upper_hex r)
  | Hexadecimal.D2 r => String "2" (upper_hex r)
  | Hexadecimal.D3 r => String "3" (upper_hex r)
  | Hexadecimal.D4 r => String "4" (upper_hex r)
  | Hexadecimal.D5 r => String "5" (upper_hex r)
  | Hexadecimal.D6 r => String "6" (upper_hex r)
  | Hexadecimal.D7 r => String "7" (upper_hex r)
  | Hexadecimal.D8 r => String "8" (upper_hex r)
  | Hexadecimal.D9 r => String "9" (upper_hex r)
  | Hexadecimal.Da r => String "A" (upper_hex r)
  | Hexadecimal.Db r => String "B" (upper_hex r)
  | Hexadecimal.Dc r => String "C" (upper_hex r)
  | Hexadecimal.Dd r => String "D" (upper_hex r)
  | Hexadecimal.De r => String "E" (upper_hex r)
  | Hexadecimal.Df r => String "F" (upper_hex r)
  end.

Fixpoint zeros (n : nat) : string :=
  match n with
  | O => EmptyString
  | S k => String "0" (zeros k)
  end.

(** Left-pad [s] with zeros up to [width] characters. *)
Definition zfill (width : Z) (s : string) : string :=
  String.append (zeros (Z.to_nat (width - Z.of_nat (String.length s)))) s.

(** [format(u, "0{width}X")]: the sign comes first and counts in the
    width. *)
Definition format_0X (u width : Z) : string :=
  let digits := upper_hex (N.to_hex_uint (Z.abs_N u)) in
  if u <? 0 then String "-" (zfill (width - 1) digits)
  else zfill width digits.

(** ** FixedFormat *)

Record FixedFormat : Type := mkFixedFormat {
  W : Z;
  F : Z;
  signed : bool
}.

Definition scale (fmt : FixedFormat) : result Z :=
  lshift 1 (F fmt).

Definition modulus (fmt : FixedFormat) : result Z :=
  lshift 1 (W fmt).

Definition min_int (fmt : FixedFormat) : result Z :=
  if signed fmt then h <- lshift 1 (W fmt - 1) ;; Ok (- h) else Ok 0.

Definition max_int (fmt : FixedFormat) : result Z :=
  if signed fmt then h <- lshift 1 (W fmt - 1) ;; Ok (h - 1)
  else m <- lshift 1 (W fmt) ;; Ok (m - 1).

Definition resolution (fmt : FixedFormat) : result float :=
  s <- scale fmt ;; sf <- float_of_int s ;; float_div (Finite 1) sf.

Definition min_real (fmt : FixedFormat) : result float :=
  lo <- min_int fmt ;; s <- scale fmt ;; int_true_div lo s.

Definition max_real (fmt : FixedFormat) : result float :=
  hi <- max_int fmt ;; s <- scale fmt ;; int_true_div hi s.

(** ** Conversions *)

Definition _round_to_int (x : float) (fmt : FixedFormat) (rounding : string)
  : result Z :=
  s <- scale fmt ;;
  sf <- float_of_int s ;;
  let y := float_mul x sf in
  if String.eqb rounding "nearest" then round_float y
  else if String.eqb rounding "floor" then math_floor y
  else if String.eqb rounding "ceil" then math_ceil y
  else Raise BadRounding.

Definition _apply_overflow (qi : Z) (fmt : FixedFormat) (overflow : string)
  : result Z :=
  if String.eqb overflow "wrap" then
    m <- modulus fmt ;;
    let qi := qi mod m in
    if signed fmt then
      h <- lshift 1 (W fmt - 1) ;;
      if h <=? qi then
        m' <- modulus fmt ;; Ok (qi - m')
      else Ok qi
    else Ok qi
  else if String.eqb overflow "saturate" then
    lo <- min_int fmt ;;
    hi <- max_int fmt ;;
    Ok (Z.max lo (Z.min hi qi))
  else Raise BadOverflow.

Definition int_to_real (qi : Z) (fmt : FixedFormat) : result float :=
  m <- modulus fmt ;;
  let qi := qi mod m in
  qi <- (if signed fmt then
           h <- lshift 1 (W fmt - 1) ;;
           if h <=? qi then m' <- modulus fmt ;; Ok (qi - m') else Ok qi
         else Ok qi) ;;
  s <- scale fmt ;;
  int_true_div qi s.

Definition int_to_hex (qi : Z) (fmt : FixedFormat) : result string :=
  m <- modulus fmt ;;
  let u := qi mod m in
  let width_nibbles := (W fmt + 3) / 4 in
  Ok (String.append "0x" (format_0X u width_nibbles)).

(** ** Public operations *)

Definition quantize (x : float) (fmt : FixedFormat) (overflow rounding : string)
  : result (Z * float * string) :=
  qi <- _round_to_int x fmt rounding ;;
  qi <- _apply_overflow qi fmt overflow ;;
  xr <- int_to_real qi fmt ;;
  hx <- int_to_hex qi fmt ;;
  Ok (qi, xr, hx).

Definition add (a b : float) (fmt : FixedFormat) (overflow rounding : string)
  : result (Z * float * string) :=
  ra <- _round_to_int a fmt rounding ;;
  ai <- _apply_overflow ra fmt overflow ;;
  rb <- _round_to_int b fmt rounding ;;
  bi <- _apply_overflow rb fmt overflow ;;
  let si := ai + bi in
  si <- _apply_overflow si fmt overflow ;;
  xr <- int_to_real si fmt ;;
  hx <- int_to_hex si fmt ;;
  Ok (si, xr, hx).

Definition mul (a b : float) (fmt : FixedFormat) (overflow rounding : string)
  : result (Z * float * string) :=
  ra <- _round_to_int a fmt rounding ;;
  ai <- _apply_overflow ra fmt overflow ;;
  rb <- _round_to_int b fmt rounding ;;
  bi <- _apply_overflow rb fmt overflow ;;
  let prod := ai * bi in
  bias <- lshift 1 (F fmt - 1) ;;
  let prod := if 0 <=? prod then prod + bias else prod - bias in
  qi <- rshift prod (F fmt) ;;
  qi <- _apply_overflow qi fmt overflow ;;
  xr <- int_to_real qi fmt ;;
  hx <- int_to_hex qi fmt ;;
  Ok (qi, xr, hx).

(** The format of the module's own examples: Fix16_11, signed. *)
Definition fix16_11 : FixedFormat := mkFixedFormat 16 11 true.

(** ** Well-formed formats and policy tokens *)

(** The data model: a positive width and [0 <= F < W]. *)
Definition wf_format (fmt : FixedFormat) : Prop :=
  1 <= W fmt /\ 0 <= F fmt < W fmt.

Definition valid_rounding (r : string) : Prop :=
  r = "nearest" \/ r = "floor" \/ r = "ceil".

Definition valid_overflow (o : string) : Prop :=
  o = "wrap" \/ o = "saturate".

(** Closed forms of the derived properties. *)
Definition lo_int (fmt : FixedFormat) : Z :=
  if signed fmt then - 2 ^ (W fmt - 1) else 0.

Definition hi_int (fmt : FixedFormat) : Z :=
  if signed fmt then 2 ^ (W fmt - 1) - 1 else 2 ^ W fmt - 1.

(** The two's-complement fold of an unsigned pattern [u]. *)
Definition fold_signed (fmt : FixedFormat) (u : Z) : Z :=
  if signed fmt && (2 ^ (W fmt - 1) <=? u) then u - 2 ^ W fmt else u.

Definition wrap_int (fmt : FixedFormat) (qi : Z) : Z :=
  fold_signed fmt (qi mod 2 ^ W fmt).

Definition clamp_int (fmt : FixedFormat) (qi : Z) : Z :=
  Z.max (lo_int fmt) (Z.min (hi_int fmt) qi).

(** The biased product of [mul], before the right shift. *)
Definition biased (prod bias : Z) : Z :=
  if 0 <=? prod then prod + bias else prod - bias.

(** ** Where float arithmetic is exact *)

(** [q] is a binary64 value: rounding leaves it as it is. *)
Definition double (q : Q) : Prop := round_double q = Finite (Qred q).

(** A finite float whose scaled value [x * 2^F] stays inside the binary64
    range, on a format whose scale is itself a float. *)
Definition scalable (fmt : FixedFormat) (x : Q) : Prop :=
  F fmt <= 1023 /\ double x /\
  (Qabs x * inject_Z (2 ^ F fmt) < Qpow2 1024)%Q.

(** Formats whose stored integers all decode to a finite float. *)
Definition float_format (fmt : FixedFormat) : Prop :=
  wf_format fmt /\ W fmt <= 1023.

(** Formats whose stored integers fit the 53 bits of a mantissa, so that
    decoding them is exact. *)
Definition exact_format (fmt : FixedFormat) : Prop :=
  wf_format fmt /\ W fmt <= 53.

(** The real value of a stored integer, in lowest terms. *)
Definition decoded (fmt : FixedFormat) (q : Z) : Q :=
  Qred (inject_Z q / inject_Z (2 ^ F fmt)).

(** Formats used in the examples below. *)
Definition int8 : FixedFormat := mkFixedFormat 8 0 true.

Definition ufix16_11 : FixedFormat := mkFixedFormat 16 11 false.

Definition fix64_0 : FixedFormat := mkFixedFormat 64 0 true.

Definition ufix64_0 : FixedFormat := mkFixedFormat 64 0 false.

(** Reading hexadecimal digits back, most significant first, the way
    [int(text, 16)] does; it serves to show that [int_to_hex] loses
    nothing of the bit pattern. *)
Definition hex_digit_value (c : ascii) : N :=
  match c with
  | "0" => 0 | "1" => 1 | "2" => 2 | "3" => 3
  | "4" => 4 | "5" => 5 | "6" => 6 | "7" => 7
  | "8" => 8 | "9" => 9 | "A" => 10 | "B" => 11
  | "C" => 12 | "D" => 13 | "E" => 14 | "F" => 15
  | _ => 0
  end%char%N.

Fixpoint hex_value_from (acc : N) (s : string) : N :=
  match s with
  | EmptyString => acc
  | String c rest => hex_value_from (16 * acc + hex_digit_value c)%N rest
  end.

(** * Rounding to an integer *)

Section Rounding.

Local Open Scope Q_scope.

Lemma inject_Z_succ (n : Z) : inject_Z (n + 1) == inject_Z n + 1.
Proof. rewrite inject_Z_plus. reflexivity. Qed.

Lemma floor_bounds (y : Q) :
  inject_Z (Qfloor y) <= y /\ y < inject_Z (Qfloor y) + 1.
Proof.
  split; [apply Qfloor_le |].
  rewrite <- inject_Z_succ. apply Qlt_floor.
Qed.

Lemma py_round_comp (y y' : Q) : y == y' -> py_round y = py_round y'.
Proof.
  intros Heq. unfold py_round.
  rewrite (Qfloor_comp _ _ Heq).
  assert (Hc : (y - inject_Z (Qfloor y') ?= 1 # 2) =
               (y' - inject_Z (Qfloor y') ?= 1 # 2))
    by (apply Qcompare_comp; [now rewrite Heq | reflexivity]).
  now rewrite Hc.
Qed.

Lemma py_round_inject (n : Z) : py_round (inject_Z n) = n.
Proof.
  unfold py_round. rewrite Qfloor_Z.
  destruct (Qcompare_spec (inject_Z n - inject_Z n) (1 # 2)) as [H | H | H];
    [exfalso; lra | reflexivity | exfalso; lra].
Qed.

Lemma py_round_between (y : Q) (a b : Z) :
  inject_Z a <= y -> y <= inject_Z b -> (a <= py_round y <= b)%Z.
Proof.
  intros Ha Hb.
  destruct (floor_bounds y) as [Hlo Hhi].
  assert (Hfa : (a <= Qfloor y)%Z).
  { rewrite <- (Qfloor_Z a). now apply Qfloor_resp_le. }
  assert (Hfb : (Qfloor y <= b)%Z).
  { rewrite <- (Qfloor_Z b). now apply Qfloor_resp_le. }
  unfold py_round.
  destruct (Qcompare_spec (y - inject_Z (Qfloor y)) (1 # 2)) as [Hc | Hc | Hc].
  - assert (Hne : (Qfloor y < b)%Z).
    { rewrite Zlt_Qlt. lra. }
    destruct (Z.even (Qfloor y)); lia.
  - lia.
  - assert (Hne : (Qfloor y < b)%Z).
    { rewrite Zlt_Qlt. lra. }
    lia.
Qed.

End Rounding.

(** * Binary64 rounding *)

Section Double.

Local Open Scope Q_scope.

Lemma Qpow2_pos (e : Z) : 0 < Qpow2 e.
Proof. apply Qpower_0_lt. reflexivity. Qed.

Lemma Qpow2_add (a b : Z) : Qpow2 (a + b) == Qpow2 a * Qpow2 b.
Proof. apply Qpower_plus. discriminate. Qed.

Lemma Qpow2_sub (a b : Z) : Qpow2 (a - b) == Qpow2 a / Qpow2 b.
Proof. apply Qpower_minus. discriminate. Qed.

Lemma Qpow2_le (a b : Z) : (a <= b)%Z -> Qpow2 a <= Qpow2 b.
Proof. intros H. apply Qpower_le_compat_l; [exact H | discriminate]. Qed.

Lemma Qpow2_lt (a b : Z) : (a < b)%Z -> Qpow2 a < Qpow2 b.
Proof. intros H. apply Qpower_lt_compat_l; [exact H | reflexivity]. Qed.

Lemma Qpow2_lt_inv (a b : Z) : Qpow2 a < Qpow2 b -> (a < b)%Z.
Proof. intros H. apply (Qpower_lt_compat_l_inv 2); [exact H | reflexivity]. Qed.

Lemma Qpow2_inject (k : Z) : (0 <= k)%Z -> Qpow2 k == inject_Z (2 ^ k).
Proof. intros Hk. symmetry. apply (Zpower_Qpower 2 k Hk). Qed.

Lemma Qlog2_spec (a : Q) :
  0 < a -> Qpow2 (Qlog2 a) <= a /\ a < Qpow2 (Qlog2 a + 1).
Proof.
  intros Ha. destruct a as [n d].
  assert (Hn : (0 < n)%Z) by (unfold Qlt in Ha; cbn in Ha; lia).
  unfold Qlog2. cbn [Qnum Qden].
  set (ln := Z.log2 n). set (ld := Z.log2 (Z.pos d)).
  pose proof (Z.log2_spec n Hn) as [Hn1 Hn2]. fold ln in Hn1, Hn2.
  pose proof (Z.log2_spec (Z.pos d) eq_refl) as [Hd1 Hd2]. fold ld in Hd1, Hd2.
  assert (Hln : (0 <= ln)%Z) by apply Z.log2_nonneg.
  assert (Hld : (0 <= ld)%Z) by apply Z.log2_nonneg.
  assert (Hq : n # d == inject_Z n / inject_Z (Z.pos d)) by apply Qmake_Qdiv.
  assert (Hdpos : 0 < inject_Z (Z.pos d)) by reflexivity.
  assert (Hlow : Qpow2 (ln - ld - 1) <= n # d).
  { replace (ln - ld - 1)%Z with (ln - (ld + 1))%Z by lia.
    rewrite Qpow2_sub, !Qpow2_inject, Hq by lia.
    apply Qle_shift_div_l; [exact Hdpos |].
    unfold Qdiv. rewrite <- Qmult_assoc, (Qmult_comm (/ _)), Qmult_assoc.
    apply Qle_shift_div_r.
    - rewrite <- Qpow2_inject by lia. apply Qpow2_pos.
    - rewrite <- !inject_Z_mult, <- Zle_Qle.
      replace (ld + 1)%Z with (Z.succ ld) by lia. nia. }
  assert (Hup : n # d < Qpow2 (ln - ld + 1)).
  { replace (ln - ld + 1)%Z with (ln + 1 - ld)%Z by lia.
    rewrite Qpow2_sub, !Qpow2_inject, Hq by lia.
    apply Qlt_shift_div_l.
    - rewrite <- Qpow2_inject by lia. apply Qpow2_pos.
    - unfold Qdiv. rewrite <- Qmult_assoc, (Qmult_comm (/ _)), Qmult_assoc.
      apply Qlt_shift_div_r; [exact Hdpos |].
      rewrite <- !inject_Z_mult, <- Zlt_Qlt.
      replace (ln + 1)%Z with (Z.succ ln) by lia.
      assert (0 < 2 ^ ld)%Z by (apply Z.pow_pos_nonneg; lia). nia. }
  destruct (Qle_bool (Qpow2 (ln - ld)) (n # d)) eqn:Hb.
  - apply Qle_bool_iff in Hb. split; assumption.
  - split.
    + exact Hlow.
    + replace (ln - ld - 1 + 1)%Z with (ln - ld)%Z by lia.
      apply Qnot_le_lt. intros Hle. apply Qle_bool_iff in Hle. congruence.
Qed.

Lemma round_double_comp (x y : Q) : x == y -> round_double x = round_double y.
Proof.
  intros H. unfold round_double. now rewrite (Qred_complete x y H).
Qed.

Lemma round_double_zero (q : Q) : q == 0 -> round_double q = Finite 0.
Proof.
  intros H. rewrite (round_double_comp q 0 H). reflexivity.
Qed.

Lemma Qabs_inject_Z (m : Z) : Qabs (inject_Z m) = inject_Z (Z.abs m).
Proof. reflexivity. Qed.

Lemma Qabs_mantissa (q : Q) (m e : Z) :
  q == inject_Z m * Qpow2 e -> Qabs q == inject_Z (Z.abs m) * Qpow2 e.
Proof.
  intros H. rewrite H, Qabs_Qmult, Qabs_inject_Z.
  rewrite (Qabs_pos (Qpow2 e)) by apply Qlt_le_weak, Qpow2_pos. reflexivity.
Qed.

Lemma mantissa_nonzero (q : Q) (m e : Z) :
  q == inject_Z m * Qpow2 e -> m <> 0%Z -> ~ q == 0.
Proof.
  intros H Hm H0. rewrite H in H0.
  apply Qmult_integral in H0. destruct H0 as [H0 | H0].
  - apply Hm. unfold Qeq in H0. cbn in H0. lia.
  - pose proof (Qpow2_pos e). lra.
Qed.

(** The signed value rebuilt by [round_double]. *)
Lemma signed_abs (x : Q) :
  (if Qle_bool 0 x then Qabs x else - Qabs x) == x.
Proof.
  destruct (Qle_bool 0 x) eqn:Hs.
  - apply Qle_bool_iff in Hs. now apply Qabs_pos.
  - assert (Hneg : x < 0).
    { apply Qnot_le_lt. intros Hle. apply Qle_bool_iff in Hle. congruence. }
    rewrite Qabs_neg by lra. ring.
Qed.

(** A value with a mantissa below [2^53] and an exponent no smaller than
    that of the subnormals is kept as it is, unless it is too large. *)
Lemma round_double_exact (q : Q) (m e : Z) :
  q == inject_Z m * Qpow2 e -> m <> 0%Z ->
  (Z.abs m < 2 ^ 53)%Z -> (-1074 <= e)%Z ->
  round_double q =
  if Qle_bool (Qpow2 1024) (Qabs q) then Infinity (negb (Qle_bool 0 q))
  else Finite (Qred q).
Proof.
  intros Hq Hm Hm53 He.
  pose proof (Qred_correct q) as Hx.
  unfold round_double. set (x := Qred q) in *.
  assert (Hxq : x == inject_Z m * Qpow2 e) by now rewrite Hx.
  destruct (Qeq_bool x 0) eqn:Hz.
  { apply Qeq_bool_iff in Hz. exfalso.
    exact (mantissa_nonzero x m e Hxq Hm Hz). }
  pose proof (Qabs_mantissa x m e Hxq) as Ha.
  assert (Hapos : 0 < Qabs x).
  { rewrite Ha. apply Qmult_lt_0_compat; [| apply Qpow2_pos].
    change 0 with (inject_Z 0). rewrite <- Zlt_Qlt. lia. }
  destruct (Qlog2_spec (Qabs x) Hapos) as [Hl1 Hl2].
  set (L := Qlog2 (Qabs x)) in *.
  assert (HL : (L - 52 <= e)%Z).
  { assert (Hlt : Qpow2 L < Qpow2 (53 + e)).
    { apply Qle_lt_trans with (Qabs x); [exact Hl1 |].
      rewrite Ha, Qpow2_add, (Qpow2_inject 53) by lia.
      apply Qmult_lt_compat_r; [apply Qpow2_pos |].
      rewrite <- Zlt_Qlt. exact Hm53. }
    apply Qpow2_lt_inv in Hlt. lia. }
  set (e0 := Z.max (L - 52) (-1074)).
  assert (He0 : (e0 <= e)%Z) by (unfold e0; lia).
  set (k := (Z.abs m * 2 ^ (e - e0))%Z).
  assert (Hsplit : Qpow2 e == inject_Z (2 ^ (e - e0)) * Qpow2 e0).
  { replace e with (e - e0 + e0)%Z at 1 by lia.
    rewrite Qpow2_add, Qpow2_inject by lia. reflexivity. }
  assert (Hk : Qabs x / Qpow2 e0 == inject_Z k).
  { unfold k. rewrite Ha, Hsplit, inject_Z_mult. field.
    pose proof (Qpow2_pos e0). lra. }
  rewrite (py_round_comp _ _ Hk), py_round_inject.
  assert (Hv : inject_Z k * Qpow2 e0 == Qabs x).
  { rewrite <- Hk. field. pose proof (Qpow2_pos e0). lra. }
  assert (Hb : Qle_bool (Qpow2 1024) (inject_Z k * Qpow2 e0)
               = Qle_bool (Qpow2 1024) (Qabs q)).
  { apply Qleb_comp; [reflexivity | now rewrite Hv, Hx]. }
  assert (Hs : Qle_bool 0 x = Qle_bool 0 q)
    by (apply Qleb_comp; [reflexivity | exact Hx]).
  rewrite Hb, Hs.
  destruct (Qle_bool (Qpow2 1024) (Qabs q)); [reflexivity |].
  f_equal. apply Qred_complete.
  rewrite <- Hx at 2. rewrite <- (signed_abs x), Hs.
  destruct (Qle_bool 0 q); now rewrite Hv.
Qed.

(** What a finite result of [round_double] looks like. *)
Lemma round_double_finite_inv (q v : Q) :
  round_double q = Finite v ->
  Qabs v < Qpow2 1024 /\ Qred v = v /\
  (v == 0 \/
   exists m e, m <> 0%Z /\ (Z.abs m < 2 ^ 53)%Z /\ (-1074 <= e)%Z /\
               v == inject_Z m * Qpow2 e).
Proof.
  unfold round_double. set (x := Qred q).
  destruct (Qeq_bool x 0) eqn:Hz.
  { intros H. injection H as <-. split; [reflexivity |].
    split; [reflexivity | now left]. }
  apply Qeq_bool_neq in Hz.
  assert (Hapos : 0 < Qabs x).
  { destruct (Qlt_le_dec 0 x) as [Hp | Hp].
    - rewrite Qabs_pos by lra. exact Hp.
    - destruct (Qlt_le_dec x 0) as [Hn | Hn].
      + rewrite Qabs_neg by lra. lra.
      + exfalso. apply Hz. lra. }
  destruct (Qlog2_spec (Qabs x) Hapos) as [Hl1 Hl2].
  set (L := Qlog2 (Qabs x)) in *.
  set (e0 := Z.max (L - 52) (-1074)).
  set (m0 := py_round (Qabs x / Qpow2 e0)).
  assert (Hm0 : (0 <= m0 <= 2 ^ 53)%Z).
  { apply py_round_between.
    - apply Qle_shift_div_l; [apply Qpow2_pos |].
      change (inject_Z 0) with 0. rewrite Qmult_0_l. apply Qabs_nonneg.
    - apply Qle_shift_div_r; [apply Qpow2_pos |].
      apply Qle_trans with (Qpow2 (L + 1)); [now apply Qlt_le_weak |].
      rewrite <- (Qpow2_inject 53), <- Qpow2_add by lia.
      apply Qpow2_le. unfold e0. lia. }
  destruct (Qle_bool (Qpow2 1024) (inject_Z m0 * Qpow2 e0)) eqn:Hov;
    [discriminate |].
  intros H. injection H as <-.
  assert (Hnov : inject_Z m0 * Qpow2 e0 < Qpow2 1024).
  { apply Qnot_le_lt. intros Hle. apply Qle_bool_iff in Hle. congruence. }
  set (s := if Qle_bool 0 x then 1%Z else (-1)%Z).
  assert (Hval : Qred (if Qle_bool 0 x then inject_Z m0 * Qpow2 e0
                       else - (inject_Z m0 * Qpow2 e0))
                 == inject_Z (s * m0) * Qpow2 e0).
  { rewrite Qred_correct, inject_Z_mult. unfold s.
    destruct (Qle_bool 0 x); [ring |]. change (inject_Z (-1)) with (-1). ring. }
  split.
  { rewrite Hval, Qabs_Qmult, Qabs_inject_Z.
    rewrite (Qabs_pos (Qpow2 e0)) by apply Qlt_le_weak, Qpow2_pos.
    replace (Z.abs (s * m0)) with m0; [exact Hnov |].
    unfold s. destruct (Qle_bool 0 x); lia. }
  split; [apply Qred_complete, Qred_correct |].
  destruct (Z.eq_dec m0 0) as [H0 | H0].
  { left. rewrite Hval, H0, Z.mul_0_r. ring. }
  right. destruct (Z.eq_dec m0 (2 ^ 53)) as [Htop | Htop].
  - exists (s * 2 ^ 52)%Z, (e0 + 1)%Z.
    split; [unfold s; destruct (Qle_bool 0 x); lia |].
    split; [unfold s; destruct (Qle_bool 0 x); cbn; lia |].
    split; [unfold e0; lia |].
    rewrite Hval, Htop, Qpow2_add, !inject_Z_mult.
    change (Qpow2 1) with 2. change (inject_Z (2 ^ 53)) with (inject_Z (2 ^ 52) * 2).
    ring.
  - exists (s * m0)%Z, e0.
    split; [unfold s; destruct (Qle_bool 0 x); lia |].
    split; [unfold s; destruct (Qle_bool 0 x); lia |].
    split; [unfold e0; lia | exact Hval].
Qed.

(** ** Binary64 values *)

Lemma Qred_inject_Z (n : Z) : Qred (inject_Z n) = inject_Z n.
Proof.
  unfold Qred, inject_Z.
  pose proof (Z.ggcd_gcd n 1) as Hg.
  pose proof (Z.ggcd_correct_divisors n 1) as Hd.
  destruct (Z.ggcd n 1) as [g [a b]]. cbn in Hg, Hd.
  rewrite Z.gcd_1_r in Hg. subst g. destruct Hd as [Ha Hb].
  replace a with n by lia. replace b with 1%Z by lia. reflexivity.
Qed.

Lemma double_zero (q : Q) : q == 0 -> double q.
Proof.
  intros H. unfold double. rewrite (round_double_zero q H).
  now rewrite (Qred_complete q 0 H).
Qed.

Lemma double_comp (q q' : Q) : q == q' -> double q -> double q'.
Proof.
  unfold double. intros H Hd.
  now rewrite <- (round_double_comp q q' H), <- (Qred_complete q q' H).
Qed.

Lemma not_overflow (q : Q) :
  Qabs q < Qpow2 1024 -> Qle_bool (Qpow2 1024) (Qabs q) = false.
Proof.
  intros H. destruct (Qle_bool (Qpow2 1024) (Qabs q)) eqn:Hb; [| reflexivity].
  apply Qle_bool_iff in Hb. lra.
Qed.

Lemma double_intro (q : Q) (m e : Z) :
  q == inject_Z m * Qpow2 e -> (Z.abs m < 2 ^ 53)%Z -> (-1074 <= e)%Z ->
  Qabs q < Qpow2 1024 -> double q.
Proof.
  intros Hq Hm He Hlt.
  destruct (Z.eq_dec m 0) as [-> | Hm0].
  - apply double_zero. rewrite Hq. change (inject_Z 0) with 0. ring.
  - unfold double. rewrite (round_double_exact q m e Hq Hm0 Hm He).
    now rewrite not_overflow.
Qed.

Lemma double_inv (q : Q) :
  double q ->
  Qabs q < Qpow2 1024 /\
  (q == 0 \/
   exists m e, m <> 0%Z /\ (Z.abs m < 2 ^ 53)%Z /\ (-1074 <= e)%Z /\
               q == inject_Z m * Qpow2 e).
Proof.
  intros Hd. destruct (round_double_finite_inv q (Qred q) Hd)
    as [Hlt [_ Hshape]].
  rewrite (Qred_correct q) in Hlt. split; [exact Hlt |].
  destruct Hshape as [H0 | [m [e [Hm [Hm53 [He Hv]]]]]].
  - left. now rewrite <- (Qred_correct q).
  - right. exists m, e. repeat split; try assumption.
    now rewrite <- (Qred_correct q).
Qed.

Lemma double_opp (q : Q) : double q -> double (- q).
Proof.
  intros Hd. destruct (double_inv q Hd) as [Hlt [H0 | [m [e [Hm [Hm53 [He Hv]]]]]]].
  - apply double_zero. rewrite H0. reflexivity.
  - apply (double_intro (- q) (- m) e).
    + rewrite Hv, inject_Z_opp. ring.
    + lia.
    + exact He.
    + now rewrite Qabs_opp.
Qed.

(** The result of a rounding is a binary64 value. *)
Lemma round_double_is_double (q v : Q) :
  round_double q = Finite v -> double v /\ Qred v = v.
Proof.
  intros H. destruct (round_double_finite_inv q v H)
    as [Hlt [Hred [H0 | [m [e [Hm [Hm53 [He Hv]]]]]]]].
  - split; [now apply double_zero | exact Hred].
  - split; [exact (double_intro v m e Hv Hm53 He Hlt) | exact Hred].
Qed.

(** Scaling a binary64 value by a power of two is exact, until it leaves
    the range. *)
Lemma round_double_scale (q : Q) (k : Z) :
  double q -> (0 <= k)%Z ->
  round_double (q * inject_Z (2 ^ k)) =
  if Qle_bool (Qpow2 1024) (Qabs q * inject_Z (2 ^ k))
  then Infinity (is_negative q)
  else Finite (Qred (q * inject_Z (2 ^ k))).
Proof.
  intros Hd Hk.
  assert (Hspos : 0 < inject_Z (2 ^ k)).
  { rewrite <- Qpow2_inject by exact Hk. apply Qpow2_pos. }
  assert (Habs : Qabs (q * inject_Z (2 ^ k)) == Qabs q * inject_Z (2 ^ k)).
  { rewrite Qabs_Qmult, (Qabs_pos (inject_Z (2 ^ k))) by lra. reflexivity. }
  destruct (double_inv q Hd) as [Hlt [H0 | [m [e [Hm [Hm53 [He Hv]]]]]]].
  - assert (Hz : q * inject_Z (2 ^ k) == 0) by (rewrite H0; ring).
    rewrite (round_double_zero _ Hz).
    assert (Hb : Qle_bool (Qpow2 1024) (Qabs q * inject_Z (2 ^ k)) = false).
    { destruct (Qle_bool _ _) eqn:Hb; [| reflexivity].
      apply Qle_bool_iff in Hb. rewrite H0 in Hb. cbn in Hb.
      pose proof (Qpow2_pos 1024). rewrite Qmult_0_l in Hb. lra. }
    rewrite Hb. now rewrite (Qred_complete _ 0 Hz).
  - assert (Hq : q * inject_Z (2 ^ k) == inject_Z m * Qpow2 (e + k)).
    { rewrite Hv, Qpow2_add, (Qpow2_inject k) by exact Hk. ring. }
    rewrite (round_double_exact _ m (e + k) Hq Hm Hm53) by lia.
    assert (Hb : Qle_bool (Qpow2 1024) (Qabs (q * inject_Z (2 ^ k)))
                 = Qle_bool (Qpow2 1024) (Qabs q * inject_Z (2 ^ k)))
      by (apply Qleb_comp; [reflexivity | exact Habs]).
    rewrite Hb.
    destruct (Qle_bool (Qpow2 1024) (Qabs q * inject_Z (2 ^ k)));
      [| reflexivity].
    f_equal. unfold is_negative. f_equal.
    apply eq_true_iff_eq. rewrite !Qle_bool_iff.
    rewrite <- (Qmult_le_r 0 q _ Hspos), Qmult_0_l. reflexivity.
Qed.

(** Integers of at most 53 bits over a power of two are binary64 values. *)
Lemma double_decoded_int (n f : Z) :
  (Z.abs n <= 2 ^ 53)%Z -> (0 <= f <= 1074)%Z ->
  double (inject_Z n / inject_Z (2 ^ f)).
Proof.
  intros Hn Hf.
  assert (Hspos : 0 < inject_Z (2 ^ f)).
  { rewrite <- Qpow2_inject by lia. apply Qpow2_pos. }
  assert (Hlt : Qabs (inject_Z n / inject_Z (2 ^ f)) < Qpow2 1024).
  { unfold Qdiv. rewrite Qabs_Qmult, Qabs_inject_Z.
    rewrite (Qabs_pos (/ inject_Z (2 ^ f)))
      by (apply Qlt_le_weak, Qinv_lt_0_compat, Hspos).
    apply Qlt_shift_div_r; [exact Hspos |].
    apply Qle_lt_trans with (inject_Z (2 ^ 53)); [now rewrite <- Zle_Qle |].
    apply Qlt_le_trans with (Qpow2 1024 * 1).
    - rewrite Qmult_1_r, <- (Qpow2_inject 53) by lia. now apply Qpow2_lt.
    - apply Qmult_le_l; [apply Qpow2_pos |].
      change 1 with (inject_Z 1). rewrite <- Zle_Qle.
      assert (0 < 2 ^ f)%Z by (apply Z.pow_pos_nonneg; lia). lia. }
  assert (Hinv : / inject_Z (2 ^ f) == Qpow2 (- f)).
  { unfold Qpow2. rewrite Qpower_opp. fold (Qpow2 f).
    now rewrite Qpow2_inject by lia. }
  destruct (Z.eq_dec (Z.abs n) (2 ^ 53)) as [Htop | Htop].
  - apply (double_intro _ (n / 2) (1 - f)); [| | lia | exact Hlt].
    + unfold Qdiv. rewrite Hinv.
      replace (1 - f)%Z with (1 + - f)%Z by lia. rewrite Qpow2_add.
      change (Qpow2 1) with (inject_Z 2). rewrite Qmult_assoc, <- inject_Z_mult.
      replace (n / 2 * 2)%Z with n; [reflexivity |].
      assert (Hn2 : n = (2 ^ 53)%Z \/ n = (- 2 ^ 53)%Z) by lia.
      destruct Hn2 as [-> | ->]; reflexivity.
    + assert (Hn2 : n = (2 ^ 53)%Z \/ n = (- 2 ^ 53)%Z) by lia.
      destruct Hn2 as [-> | ->]; cbn; lia.
  - apply (double_intro _ n (- f)); [| lia | lia | exact Hlt].
    unfold Qdiv. now rewrite Hinv.
Qed.

(** Below [2^1023] a value rounds to a finite float. *)
Lemma round_double_small (q : Q) :
  Qabs q < Qpow2 1023 -> exists v, round_double q = Finite v.
Proof.
  intros Hsmall. unfold round_double.
  pose proof (Qred_correct q) as Hx. set (x := Qred q) in *.
  destruct (Qeq_bool x 0) eqn:Hz; [now exists 0 |].
  apply Qeq_bool_neq in Hz.
  assert (Hapos : 0 < Qabs x).
  { destruct (Qlt_le_dec 0 x) as [Hp | Hp].
    - rewrite Qabs_pos by lra. exact Hp.
    - destruct (Qlt_le_dec x 0) as [Hn | Hn].
      + rewrite Qabs_neg by lra. lra.
      + exfalso. apply Hz. lra. }
  destruct (Qlog2_spec (Qabs x) Hapos) as [Hl1 Hl2].
  set (L := Qlog2 (Qabs x)) in *.
  assert (HL : (L < 1023)%Z).
  { apply Qpow2_lt_inv. apply Qle_lt_trans with (Qabs x); [exact Hl1 |].
    now rewrite Hx. }
  set (e0 := Z.max (L - 52) (-1074)).
  set (m0 := py_round (Qabs x / Qpow2 e0)).
  assert (Hm0 : (0 <= m0 <= 2 ^ 53)%Z).
  { apply py_round_between.
    - apply Qle_shift_div_l; [apply Qpow2_pos |].
      change (inject_Z 0) with 0. rewrite Qmult_0_l. apply Qabs_nonneg.
    - apply Qle_shift_div_r; [apply Qpow2_pos |].
      apply Qle_trans with (Qpow2 (L + 1)); [now apply Qlt_le_weak |].
      rewrite <- (Qpow2_inject 53), <- Qpow2_add by lia.
      apply Qpow2_le. unfold e0. lia. }
  assert (Hv : inject_Z m0 * Qpow2 e0 < Qpow2 1024).
  { apply Qle_lt_trans with (Qpow2 (53 + e0)).
    - rewrite Qpow2_add, (Qpow2_inject 53) by lia.
      apply Qmult_le_compat_r; [| apply Qlt_le_weak, Qpow2_pos].
      rewrite <- Zle_Qle. lia.
    - apply Qpow2_lt. unfold e0. lia. }
  destruct (Qle_bool (Qpow2 1024) (inject_Z m0 * Qpow2 e0)) eqn:Hov.
  - apply Qle_bool_iff in Hov. lra.
  - eexists. reflexivity.
Qed.

(** [float(2^k)]. *)
Lemma float_of_int_pow2 (k : Z) :
  (0 <= k <= 1023)%Z -> float_of_int (2 ^ k) = Ok (Finite (inject_Z (2 ^ k))).
Proof.
  intros Hk. unfold float_of_int.
  assert (Hq : inject_Z (2 ^ k) == inject_Z 1 * Qpow2 k).
  { rewrite Qpow2_inject by lia. change (inject_Z 1) with 1. ring. }
  rewrite (round_double_exact _ 1 k Hq) by (cbn; lia).
  rewrite not_overflow, Qred_inject_Z; [reflexivity |].
  rewrite Qabs_inject_Z, Z.abs_eq, <- Qpow2_inject by (try apply Z.pow_nonneg; lia).
  apply Qpow2_lt. lia.
Qed.

Lemma float_of_int_pow2_large (k : Z) :
  (1024 <= k)%Z -> float_of_int (2 ^ k) = Raise IntTooLargeForFloat.
Proof.
  intros Hk. unfold float_of_int.
  assert (Hq : inject_Z (2 ^ k) == inject_Z 1 * Qpow2 k).
  { rewrite Qpow2_inject by lia. change (inject_Z 1) with 1. ring. }
  rewrite (round_double_exact _ 1 k Hq) by (cbn; lia).
  assert (Hb : Qle_bool (Qpow2 1024) (Qabs (inject_Z (2 ^ k))) = true).
  { apply Qle_bool_iff.
    rewrite Qabs_inject_Z, Z.abs_eq, <- Qpow2_inject
      by (try apply Z.pow_nonneg; lia).
    now apply Qpow2_le. }
  now rewrite Hb.
Qed.

End Double.
(** * Basic facts *)

Section Basics.

Variable fmt : FixedFormat.
Hypothesis Hwf : wf_format fmt.

Lemma lshift_1 (n : Z) : 0 <= n -> lshift 1 n = Ok (2 ^ n).
Proof.
  intros Hn. unfold lshift.
  destruct (Z.ltb_spec n 0) as [Hneg | _]; [lia |].
  now rewrite Z.shiftl_1_l.
Qed.

Lemma lshift_neg (a n : Z) : n < 0 -> lshift a n = Raise NegativeShiftCount.
Proof.
  intros Hn. unfold lshift.
  destruct (Z.ltb_spec n 0); [reflexivity | lia].
Qed.

Lemma rshift_floor (a n : Z) : 0 <= n -> rshift a n = Ok (a / 2 ^ n).
Proof.
  intros Hn. unfold rshift.
  destruct (Z.ltb_spec n 0) as [Hneg | _]; [lia |].
  now rewrite Z.shiftr_div_pow2.
Qed.

Lemma scale_eq : scale fmt = Ok (2 ^ F fmt).
Proof. unfold scale. apply lshift_1. destruct Hwf; lia. Qed.

Lemma modulus_eq : modulus fmt = Ok (2 ^ W fmt).
Proof. unfold modulus. apply lshift_1. destruct Hwf; lia. Qed.

Lemma half_eq : lshift 1 (W fmt - 1) = Ok (2 ^ (W fmt - 1)).
Proof. apply lshift_1. destruct Hwf; lia. Qed.

Lemma min_int_eq : min_int fmt = Ok (lo_int fmt).
Proof.
  unfold min_int, lo_int. destruct (signed fmt); [| reflexivity].
  now rewrite half_eq.
Qed.

Lemma max_int_eq : max_int fmt = Ok (hi_int fmt).
Proof.
  unfold max_int, hi_int. destruct (signed fmt).
  - now rewrite half_eq.
  - fold (modulus fmt). now rewrite modulus_eq.
Qed.

Lemma pow_W_split : 2 ^ W fmt = 2 * 2 ^ (W fmt - 1).
Proof.
  destruct Hwf as [HW _].
  replace (W fmt) with (Z.succ (W fmt - 1)) at 1 by lia.
  apply Z.pow_succ_r. lia.
Qed.

Lemma pow_half_pos : 0 < 2 ^ (W fmt - 1).
Proof. apply Z.pow_pos_nonneg; destruct Hwf; lia. Qed.

Lemma pow_F_pos : 0 < 2 ^ F fmt.
Proof. apply Z.pow_pos_nonneg; destruct Hwf; lia. Qed.

Lemma lo_le_hi : lo_int fmt <= hi_int fmt.
Proof.
  unfold lo_int, hi_int. pose proof pow_half_pos. pose proof pow_W_split.
  destruct (signed fmt); lia.
Qed.

(** The fold used by [_apply_overflow] and by [int_to_real]. *)
Lemma fold_step (u : Z) :
  (if signed fmt then
     h <- lshift 1 (W fmt - 1) ;;
     if h <=? u then m' <- modulus fmt ;; Ok (u - m') else Ok u
   else Ok u) = Ok (fold_signed fmt u).
Proof.
  unfold fold_signed. destruct (signed fmt); cbn [andb]; [| reflexivity].
  rewrite half_eq. cbn [bind].
  destruct (2 ^ (W fmt - 1) <=? u); [| reflexivity].
  now rewrite modulus_eq.
Qed.

Lemma apply_overflow_wrap (qi : Z) :
  _apply_overflow qi fmt "wrap" = Ok (wrap_int fmt qi).
Proof.
  unfold _apply_overflow, wrap_int. cbn [String.eqb Ascii.eqb Bool.eqb].
  rewrite <- fold_step. now rewrite modulus_eq.
Qed.

Lemma apply_overflow_saturate (qi : Z) :
  _apply_overflow qi fmt "saturate" = Ok (clamp_int fmt qi).
Proof.
  unfold _apply_overflow, clamp_int. cbn [String.eqb Ascii.eqb Bool.eqb].
  now rewrite min_int_eq, max_int_eq.
Qed.

Lemma apply_overflow_bad (qi : Z) (o : string) :
  ~ valid_overflow o -> _apply_overflow qi fmt o = Raise BadOverflow.
Proof.
  intros Hbad. unfold _apply_overflow.
  destruct (String.eqb_spec o "wrap") as [-> | _].
  - exfalso. apply Hbad. now left.
  - destruct (String.eqb_spec o "saturate") as [-> | _]; [| reflexivity].
    exfalso. apply Hbad. now right.
Qed.

Lemma int_to_hex_eq (qi : Z) :
  int_to_hex qi fmt =
  Ok (String.append "0x" (format_0X (qi mod 2 ^ W fmt) ((W fmt + 3) / 4))).
Proof. unfold int_to_hex. now rewrite modulus_eq. Qed.

(** Both policies land in the representable range. *)
Lemma wrap_int_range (qi : Z) : lo_int fmt <= wrap_int fmt qi <= hi_int fmt.
Proof.
  unfold wrap_int, fold_signed, lo_int, hi_int.
  pose proof pow_half_pos as Hh. pose proof pow_W_split as Hs.
  assert (Hm : 0 <= qi mod 2 ^ W fmt < 2 ^ W fmt)
    by (apply Z.mod_pos_bound; lia).
  destruct (signed fmt); cbn [andb]; [| lia].
  destruct (Z.leb_spec (2 ^ (W fmt - 1)) (qi mod 2 ^ W fmt)); lia.
Qed.

Lemma clamp_int_range (qi : Z) : lo_int fmt <= clamp_int fmt qi <= hi_int fmt.
Proof. unfold clamp_int. pose proof lo_le_hi. lia. Qed.

Lemma apply_overflow_total (qi : Z) (o : string) :
  valid_overflow o ->
  exists q, _apply_overflow qi fmt o = Ok q /\ lo_int fmt <= q <= hi_int fmt.
Proof.
  intros [-> | ->]; eexists; split.
  - apply apply_overflow_wrap.
  - apply wrap_int_range.
  - apply apply_overflow_saturate.
  - apply clamp_int_range.
Qed.

End Basics.


(** * Float steps of the conversions *)

Section FloatSteps.

Variable fmt : FixedFormat.
Hypothesis Hwf : wf_format fmt.

Lemma scale_pos : (0 < inject_Z (2 ^ F fmt))%Q.
Proof.
  rewrite <- Qpow2_inject by (destruct Hwf; lia). apply Qpow2_pos.
Qed.

Lemma scale_nonzero : (2 ^ F fmt =? 0) = false.
Proof. pose proof (pow_F_pos fmt Hwf). apply Z.eqb_neq. lia. Qed.

(** The scaled input [x * fmt.scale] of [_round_to_int]. *)
Lemma scaled_input (x : Q) :
  scalable fmt x ->
  float_mul (Finite x) (Finite (inject_Z (2 ^ F fmt)))
  = Finite (Qred (x * inject_Z (2 ^ F fmt))).
Proof.
  intros [HF [Hd Hlt]]. cbn [float_mul].
  rewrite round_double_scale by (assumption || (destruct Hwf; lia)).
  destruct (Qle_bool _ _) eqn:Hb; [| reflexivity].
  apply Qle_bool_iff in Hb. exfalso. lra.
Qed.

Lemma round_to_int_nearest (x : Q) :
  scalable fmt x ->
  _round_to_int x fmt "nearest" = Ok (py_round (x * inject_Z (2 ^ F fmt))).
Proof.
  intros Hx. unfold _round_to_int. rewrite scale_eq by assumption.
  cbn [bind]. rewrite float_of_int_pow2 by (destruct Hx, Hwf; lia).
  cbn [bind]. rewrite scaled_input by assumption.
  cbn [String.eqb Ascii.eqb Bool.eqb]. unfold round_float, to_integer.
  f_equal. apply py_round_comp, Qred_correct.
Qed.

Lemma round_to_int_floor (x : Q) :
  scalable fmt x ->
  _round_to_int x fmt "floor" = Ok (Qfloor (x * inject_Z (2 ^ F fmt))).
Proof.
  intros Hx. unfold _round_to_int. rewrite scale_eq by assumption.
  cbn [bind]. rewrite float_of_int_pow2 by (destruct Hx, Hwf; lia).
  cbn [bind]. rewrite scaled_input by assumption.
  cbn [String.eqb Ascii.eqb Bool.eqb]. unfold math_floor, to_integer.
  f_equal. apply Qfloor_comp, Qred_correct.
Qed.

Lemma round_to_int_ceil (x : Q) :
  scalable fmt x ->
  _round_to_int x fmt "ceil" = Ok (Qceiling (x * inject_Z (2 ^ F fmt))).
Proof.
  intros Hx. unfold _round_to_int. rewrite scale_eq by assumption.
  cbn [bind]. rewrite float_of_int_pow2 by (destruct Hx, Hwf; lia).
  cbn [bind]. rewrite scaled_input by assumption.
  cbn [String.eqb Ascii.eqb Bool.eqb]. unfold math_ceil, to_integer.
  f_equal. apply Qceiling_comp, Qred_correct.
Qed.

(** The token is looked at before the scaled value is converted. *)
Lemma round_to_int_bad (x : float) (r : string) :
  F fmt <= 1023 -> ~ valid_rounding r ->
  _round_to_int x fmt r = Raise BadRounding.
Proof.
  intros HF Hbad. unfold _round_to_int. rewrite scale_eq by assumption.
  cbn [bind]. rewrite float_of_int_pow2 by (destruct Hwf; lia). cbn [bind].
  destruct (String.eqb_spec r "nearest") as [-> | _].
  { exfalso. apply Hbad. now left. }
  destruct (String.eqb_spec r "floor") as [-> | _].
  { exfalso. apply Hbad. right. now left. }
  destruct (String.eqb_spec r "ceil") as [-> | _]; [| reflexivity].
  exfalso. apply Hbad. right. now right.
Qed.

Lemma round_to_int_total (x : Q) (r : string) :
  scalable fmt x -> valid_rounding r -> exists n, _round_to_int x fmt r = Ok n.
Proof.
  intros Hx [-> | [-> | ->]]; eexists.
  - now apply round_to_int_nearest.
  - now apply round_to_int_floor.
  - now apply round_to_int_ceil.
Qed.

(** Past the binary64 range the scaled value is an infinity, which no
    rounding mode converts. *)
Lemma round_to_int_overflow (x : Q) (r : string) :
  F fmt <= 1023 -> double x ->
  (Qpow2 1024 <= Qabs x * inject_Z (2 ^ F fmt))%Q -> valid_rounding r ->
  _round_to_int x fmt r = Raise InfinityToInteger.
Proof.
  intros HF Hd Hbig Hr. unfold _round_to_int. rewrite scale_eq by assumption.
  cbn [bind]. rewrite float_of_int_pow2 by (destruct Hwf; lia).
  cbn [bind float_mul].
  rewrite round_double_scale by (assumption || (destruct Hwf; lia)).
  apply Qle_bool_iff in Hbig. rewrite Hbig.
  destruct Hr as [-> | [-> | ->]]; reflexivity.
Qed.

Lemma round_to_int_nonfinite (r : string) :
  F fmt <= 1023 -> valid_rounding r ->
  (forall s, _round_to_int (Infinity s) fmt r = Raise InfinityToInteger) /\
  _round_to_int NaN fmt r = Raise NaNToInteger.
Proof.
  intros HF Hr. pose proof scale_pos as Hs.
  assert (Hnz : Qeq_bool (inject_Z (2 ^ F fmt)) 0 = false).
  { destruct (Qeq_bool _ _) eqn:Hb; [| reflexivity].
    apply Qeq_bool_iff in Hb. lra. }
  unfold _round_to_int. rewrite scale_eq by assumption.
  cbn [bind]. rewrite float_of_int_pow2 by (destruct Hwf; lia).
  cbn [bind float_mul]. rewrite Hnz.
  destruct Hr as [-> | [-> | ->]]; split; reflexivity.
Qed.

(** A scale of 1024 bits or more is not a float. *)
Lemma round_to_int_large_scale (x : float) (r : string) :
  1024 <= F fmt -> _round_to_int x fmt r = Raise IntTooLargeForFloat.
Proof.
  intros HF. unfold _round_to_int. rewrite scale_eq by assumption.
  cbn [bind]. now rewrite float_of_int_pow2_large.
Qed.

Lemma resolution_eq :
  F fmt <= 1074 -> F fmt <= 1023 -> resolution fmt = Ok (Finite (decoded fmt 1)).
Proof.
  intros HF' HF. pose proof scale_pos as Hs.
  unfold resolution. rewrite scale_eq by assumption. cbn [bind].
  rewrite float_of_int_pow2 by (destruct Hwf; lia). cbn [bind float_div].
  assert (Hnz : Qeq_bool (inject_Z (2 ^ F fmt)) 0 = false).
  { destruct (Qeq_bool _ _) eqn:Hb; [| reflexivity].
    apply Qeq_bool_iff in Hb. lra. }
  rewrite Hnz. f_equal.
  apply (double_decoded_int 1 (F fmt)); [cbn; lia | destruct Hwf; lia].
Qed.

Lemma int_true_div_small (q : Z) :
  Z.abs q <= 2 ^ 53 -> F fmt <= 1074 ->
  int_true_div q (2 ^ F fmt) = Ok (Finite (decoded fmt q)).
Proof.
  intros Hq HF. unfold int_true_div. rewrite scale_nonzero.
  pose proof (double_decoded_int q (F fmt) Hq) as Hd.
  unfold double in Hd. rewrite Hd by (destruct Hwf; lia). reflexivity.
Qed.

Lemma int_true_div_finite (q : Z) :
  Z.abs q < 2 ^ 1023 ->
  exists v, int_true_div q (2 ^ F fmt) = Ok (Finite v) /\ double v.
Proof.
  intros Hq. pose proof scale_pos as Hs.
  pose proof (pow_F_pos fmt Hwf) as HsZ.
  unfold int_true_div. rewrite scale_nonzero.
  destruct (round_double_small (inject_Z q / inject_Z (2 ^ F fmt))) as [v Hv].
  - unfold Qdiv. rewrite Qabs_Qmult, Qabs_inject_Z.
    rewrite (Qabs_pos (/ inject_Z (2 ^ F fmt)))
      by (apply Qlt_le_weak, Qinv_lt_0_compat, Hs).
    apply Qlt_shift_div_r; [exact Hs |].
    apply Qlt_le_trans with (Qpow2 1023 * 1)%Q.
    + rewrite Qmult_1_r, Qpow2_inject by lia. now rewrite <- Zlt_Qlt.
    + apply Qmult_le_l; [apply Qpow2_pos |].
      change 1%Q with (inject_Z 1). rewrite <- Zle_Qle. lia.
  - exists v. rewrite Hv. split; [reflexivity |].
    exact (proj1 (round_double_is_double _ _ Hv)).
Qed.

End FloatSteps.

(** * Decoding on exact and on float formats *)

Section Decoding.

Variable fmt : FixedFormat.

Lemma exact_is_float : exact_format fmt -> float_format fmt.
Proof. intros [Hwf HW]. split; [exact Hwf | lia]. Qed.

Lemma stored_fits_53 (q : Z) :
  exact_format fmt -> lo_int fmt <= q <= hi_int fmt -> Z.abs q < 2 ^ 53.
Proof.
  intros [Hwf HW] Hq.
  pose proof (pow_half_pos fmt Hwf) as Hh.
  pose proof (pow_W_split fmt Hwf) as Hs.
  assert (H53 : 2 ^ W fmt <= 2 ^ 53) by (apply Z.pow_le_mono_r; lia).
  unfold lo_int, hi_int in Hq. destruct (signed fmt); lia.
Qed.

Lemma stored_fits_1023 (q : Z) :
  float_format fmt -> lo_int fmt <= q <= hi_int fmt -> Z.abs q < 2 ^ 1023.
Proof.
  intros [Hwf HW] Hq.
  pose proof (pow_half_pos fmt Hwf) as Hh.
  pose proof (pow_W_split fmt Hwf) as Hs.
  assert (H53 : 2 ^ W fmt <= 2 ^ 1023) by (apply Z.pow_le_mono_r; lia).
  unfold lo_int, hi_int in Hq. destruct (signed fmt); lia.
Qed.

Lemma int_to_real_fold (qi : Z) :
  wf_format fmt ->
  int_to_real qi fmt = int_true_div (wrap_int fmt qi) (2 ^ F fmt).
Proof.
  intros Hwf. unfold int_to_real, wrap_int.
  pose proof (fold_step fmt Hwf (qi mod 2 ^ W fmt)) as Hfold.
  rewrite modulus_eq in * by assumption. cbn [bind] in *.
  rewrite Hfold. cbn [bind]. now rewrite scale_eq.
Qed.

Lemma int_to_real_eq (qi : Z) :
  exact_format fmt ->
  int_to_real qi fmt = Ok (Finite (decoded fmt (wrap_int fmt qi))).
Proof.
  intros Hex. pose proof Hex as [Hwf HW].
  rewrite int_to_real_fold by assumption.
  apply int_true_div_small; [assumption | | destruct Hwf; lia].
  pose proof (stored_fits_53 _ Hex (wrap_int_range fmt Hwf qi)). lia.
Qed.

Lemma int_to_real_total (qi : Z) :
  float_format fmt ->
  exists v, int_to_real qi fmt = Ok (Finite v) /\ double v.
Proof.
  intros Hff. pose proof Hff as [Hwf HW].
  rewrite int_to_real_fold by assumption.
  apply int_true_div_finite; [assumption |].
  exact (stored_fits_1023 _ Hff (wrap_int_range fmt Hwf qi)).
Qed.

Lemma min_real_eq :
  exact_format fmt -> min_real fmt = Ok (Finite (decoded fmt (lo_int fmt))).
Proof.
  intros Hex. pose proof Hex as [Hwf HW].
  unfold min_real. rewrite min_int_eq, scale_eq by assumption. cbn [bind].
  apply int_true_div_small; [assumption | | destruct Hwf; lia].
  pose proof (lo_le_hi fmt Hwf).
  assert (Hin : lo_int fmt <= lo_int fmt <= hi_int fmt) by lia.
  pose proof (stored_fits_53 _ Hex Hin). lia.
Qed.

Lemma max_real_eq :
  exact_format fmt -> max_real fmt = Ok (Finite (decoded fmt (hi_int fmt))).
Proof.
  intros Hex. pose proof Hex as [Hwf HW].
  unfold max_real. rewrite max_int_eq, scale_eq by assumption. cbn [bind].
  apply int_true_div_small; [assumption | | destruct Hwf; lia].
  pose proof (lo_le_hi fmt Hwf).
  assert (Hin : lo_int fmt <= hi_int fmt <= hi_int fmt) by lia.
  pose proof (stored_fits_53 _ Hex Hin). lia.
Qed.

Lemma exact_resolution_eq :
  exact_format fmt -> resolution fmt = Ok (Finite (decoded fmt 1)).
Proof.
  intros [Hwf HW]. apply resolution_eq; (assumption || destruct Hwf; lia).
Qed.

Lemma decoded_eq (q : Z) :
  (decoded fmt q == inject_Z q / inject_Z (2 ^ F fmt))%Q.
Proof. apply Qred_correct. Qed.

(** A decoded stored integer can be scaled back without loss. *)
Lemma decoded_scalable (q : Z) :
  exact_format fmt -> Z.abs q <= 2 ^ 53 -> scalable fmt (decoded fmt q).
Proof.
  intros [Hwf HW] Hq. pose proof (scale_pos fmt Hwf) as Hs.
  split; [destruct Hwf; lia |]. split.
  - apply (double_comp (inject_Z q / inject_Z (2 ^ F fmt))).
    + symmetry. apply decoded_eq.
    + apply double_decoded_int; [assumption | destruct Hwf; lia].
  - rewrite decoded_eq. unfold Qdiv.
    rewrite Qabs_Qmult, Qabs_inject_Z.
    rewrite (Qabs_pos (/ inject_Z (2 ^ F fmt)))
      by (apply Qlt_le_weak, Qinv_lt_0_compat, Hs).
    setoid_replace (inject_Z (Z.abs q) * / inject_Z (2 ^ F fmt)
                    * inject_Z (2 ^ F fmt))%Q
      with (inject_Z (Z.abs q)) by (field; lra).
    apply Qle_lt_trans with (inject_Z (2 ^ 53)); [now rewrite <- Zle_Qle |].
    rewrite <- (Qpow2_inject 53) by lia. now apply Qpow2_lt.
Qed.

End Decoding.

(** * Facts on rounding rationals *)

Section RationalFacts.

Local Open Scope Q_scope.

(** The rounded value is at most one half away. *)
Lemma py_round_near (y : Q) : Qabs (inject_Z (py_round y) - y) <= 1 # 2.
Proof.
  destruct (floor_bounds y) as [Hlo Hhi].
  apply Qabs_Qle_condition. unfold py_round.
  destruct (Qcompare_spec (y - inject_Z (Qfloor y)) (1 # 2)) as [Hc | Hc | Hc].
  - destruct (Z.even (Qfloor y)); [| rewrite inject_Z_succ]; lra.
  - lra.
  - rewrite inject_Z_succ. lra.
Qed.

(** A value exactly half-way goes to the even neighbour. *)
Lemma py_round_tie_even (y : Q) :
  Qabs (inject_Z (py_round y) - y) == 1 # 2 -> Z.even (py_round y) = true.
Proof.
  destruct (floor_bounds y) as [Hlo Hhi].
  unfold py_round.
  destruct (Qcompare_spec (y - inject_Z (Qfloor y)) (1 # 2)) as [Hc | Hc | Hc];
    intros Habs.
  - destruct (Z.even (Qfloor y)) eqn:He; [exact He |].
    rewrite Z.even_add, He. reflexivity.
  - exfalso.
    rewrite Qabs_neg in Habs by lra. lra.
  - exfalso.
    rewrite inject_Z_succ in Habs.
    rewrite Qabs_pos in Habs by lra. lra.
Qed.

(** Scaling a quotient back: [(n / s) * s == n]. *)
Lemma div_mul_cancel (n s : Z) :
  (0 < s)%Z -> inject_Z n / inject_Z s * inject_Z s == inject_Z n.
Proof.
  intros Hs. field.
  intro H0. unfold Qeq in H0. cbn in H0. lia.
Qed.

(** Being within one half of [y] is being a nearest integer. *)
Lemma half_away_is_nearest (n : Z) (y : Q) :
  Qabs (inject_Z n - y) <= 1 # 2 ->
  forall m : Z, Qabs (inject_Z n - y) <= Qabs (inject_Z m - y).
Proof.
  intros Hn m.
  destruct (Z.lt_trichotomy m n) as [Hlt | [-> | Hgt]].
  - assert (Hm : inject_Z m + 1 <= inject_Z n).
    { rewrite <- inject_Z_succ, <- Zle_Qle. lia. }
    apply Qabs_Qle_condition in Hn.
    apply Qle_trans with (1 # 2); [apply Qabs_Qle_condition; lra |].
    rewrite <- Qabs_opp.
    apply Qle_trans with (- (inject_Z m - y)); [lra | apply Qle_Qabs].
  - apply Qle_refl.
  - assert (Hm : inject_Z n + 1 <= inject_Z m).
    { rewrite <- inject_Z_succ, <- Zle_Qle. lia. }
    apply Qabs_Qle_condition in Hn.
    apply Qle_trans with (1 # 2); [apply Qabs_Qle_condition; lra |].
    apply Qle_trans with (inject_Z m - y); [lra | apply Qle_Qabs].
Qed.

Lemma inject_Z_pos (s : Z) : (0 < s)%Z -> 0 < inject_Z s.
Proof. intros Hs. change 0 with (inject_Z 0). now rewrite <- Zlt_Qlt. Qed.


Lemma floor_unique (z : Q) (n : Z) :
  inject_Z n <= z -> z < inject_Z n + 1 -> Qfloor z = n.
Proof.
  intros Hlo Hhi. destruct (floor_bounds z) as [Hf Hf'].
  assert (H1 : (n <= Qfloor z)%Z).
  { rewrite <- (Qfloor_Z n). now apply Qfloor_resp_le. }
  assert (H2 : (Qfloor z < n + 1)%Z).
  { rewrite Zlt_Qlt, inject_Z_succ. lra. }
  lia.
Qed.

Lemma ceiling_bounds (y : Q) :
  y <= inject_Z (Qceiling y) /\ inject_Z (Qceiling y) - 1 < y.
Proof.
  split; [apply Qle_ceiling |].
  pose proof (Qceiling_lt y) as H.
  unfold Z.sub in H. rewrite inject_Z_plus, inject_Z_opp in H.
  change (inject_Z 1) with 1 in H. lra.
Qed.

Lemma py_round_bracket (y : Q) :
  (Qfloor y <= py_round y <= Qceiling y)%Z /\
  (Qceiling y <= Qfloor y + 1)%Z.
Proof.
  destruct (floor_bounds y) as [Hf Hf'].
  destruct (ceiling_bounds y) as [Hc Hc'].
  assert (Hfc : (Qfloor y <= Qceiling y)%Z) by (rewrite Zle_Qle; lra).
  assert (Hc1 : (Qceiling y < Qfloor y + 2)%Z).
  { rewrite Zlt_Qlt, inject_Z_plus. change (inject_Z 2) with 2. lra. }
  split; [| lia].
  assert (Hup : inject_Z (Qfloor y) < y -> (Qfloor y + 1 <= Qceiling y)%Z).
  { intros Hlt. assert (Qfloor y < Qceiling y)%Z by (rewrite Zlt_Qlt; lra).
    lia. }
  unfold py_round.
  destruct (Qcompare_spec (y - inject_Z (Qfloor y)) (1 # 2)) as [He | Hl | Hg].
  - destruct (Z.even (Qfloor y)); [lia |].
    split; [lia | apply Hup; lra].
  - lia.
  - split; [lia | apply Hup; lra].
Qed.

(** Rounding to nearest never reverses the order of two values. *)
Lemma py_round_monotone (y y' : Q) : y <= y' -> (py_round y <= py_round y')%Z.
Proof.
  intros Hle.
  pose proof (Qfloor_resp_le _ _ Hle) as Hff.
  destruct (Z.eq_dec (Qfloor y) (Qfloor y')) as [He | Hne].
  - unfold py_round. rewrite <- He.
    destruct (Qcompare_spec (y - inject_Z (Qfloor y)) (1 # 2));
      destruct (Qcompare_spec (y' - inject_Z (Qfloor y)) (1 # 2));
      try (destruct (Z.even (Qfloor y))); try lia; exfalso; lra.
  - pose proof (py_round_bracket y) as [[_ Hy] Hc].
    pose proof (py_round_bracket y') as [[Hy' _] _]. lia.
Qed.

(** Round-half-even is symmetric about zero. *)
Lemma py_round_opp (y : Q) : py_round (- y) = (- py_round y)%Z.
Proof.
  destruct (floor_bounds y) as [Hf Hf'].
  destruct (Qle_lt_or_eq _ _ Hf) as [Hlt | Heq].
  - assert (Hfo : Qfloor (- y) = (- Qfloor y - 1)%Z).
    { apply floor_unique; unfold Z.sub;
        rewrite inject_Z_plus, !inject_Z_opp; change (inject_Z 1) with 1; lra. }
    assert (Hinj : inject_Z (- Qfloor y - 1) == - inject_Z (Qfloor y) - 1).
    { unfold Z.sub. rewrite inject_Z_plus, !inject_Z_opp. reflexivity. }
    unfold py_round. rewrite Hfo.
    assert (Hev : Z.even (- Qfloor y - 1) = negb (Z.even (Qfloor y))).
    { replace (- Qfloor y - 1)%Z with (- (Qfloor y + 1))%Z by lia.
      rewrite Z.even_opp, Z.even_add. now destruct (Z.even (Qfloor y)). }
    rewrite Hev.
    destruct (Qcompare_spec (y - inject_Z (Qfloor y)) (1 # 2));
      destruct (Qcompare_spec (- y - inject_Z (- Qfloor y - 1)) (1 # 2));
      try (destruct (Z.even (Qfloor y)); cbn [negb]); try lia; exfalso; lra.
  - rewrite (py_round_comp y (inject_Z (Qfloor y))) by (symmetry; exact Heq).
    rewrite (py_round_comp (- y) (inject_Z (- Qfloor y))).
    + now rewrite !py_round_inject.
    + rewrite inject_Z_opp, Heq. reflexivity.
Qed.

Lemma floor_opp (y : Q) : Qfloor (- y) = (- Qceiling y)%Z.
Proof. unfold Qceiling. lia. Qed.

Lemma ceiling_opp (y : Q) : Qceiling (- y) = (- Qfloor y)%Z.
Proof.
  unfold Qceiling. f_equal. apply Qfloor_comp. apply Qopp_involutive.
Qed.

Lemma mul_opp_scale (x s : Q) : (- x) * s == - (x * s).
Proof. ring. Qed.

Lemma scaled_error_gen (n : Z) (x s e : Q) :
  0 < s -> Qabs (inject_Z n - x * s) <= e ->
  Qabs (inject_Z n / s - x) <= e / s.
Proof.
  intros Hs Hn.
  assert (Hinv : 0 < / s) by now apply Qinv_lt_0_compat.
  assert (He : inject_Z n / s - x == (inject_Z n - x * s) * / s)
    by (field; lra).
  rewrite He, Qabs_Qmult, (Qabs_pos (/ s)) by lra.
  unfold Qdiv. apply Qmult_le_compat_r; [exact Hn | lra].
Qed.

(** Clamping a sum of two roundings towards an interval that holds the
    exact sum keeps it within one unit of the exact sum. *)
Lemma clamped_sum_error (lo hi na nb : Z) (ya yb : Q) :
  Qabs (inject_Z na - ya) <= 1 # 2 -> Qabs (inject_Z nb - yb) <= 1 # 2 ->
  inject_Z lo <= ya + yb -> ya + yb <= inject_Z hi ->
  Qabs (inject_Z (Z.max lo (Z.min hi (na + nb))) - (ya + yb)) <= 1.
Proof.
  intros Ha Hb Hlo Hhi.
  apply Qabs_Qle_condition in Ha. apply Qabs_Qle_condition in Hb.
  apply Qabs_Qle_condition.
  pose proof (inject_Z_plus na nb) as Hsum.
  assert (Hlh : (lo <= hi)%Z) by (rewrite Zle_Qle; lra).
  destruct (Z_lt_le_dec (na + nb) lo) as [Hl | Hl].
  - replace (Z.max lo (Z.min hi (na + nb))) with lo by lia.
    rewrite Zlt_Qlt, Hsum in Hl. lra.
  - destruct (Z_lt_le_dec hi (na + nb)) as [Hh | Hh].
    + replace (Z.max lo (Z.min hi (na + nb))) with hi by lia.
      rewrite Zlt_Qlt, Hsum in Hh. lra.
    + replace (Z.max lo (Z.min hi (na + nb))) with (na + nb)%Z by lia.
      rewrite Hsum. lra.
Qed.

Lemma abs_unscale (n : Z) (x s : Q) :
  0 < s -> Qabs (inject_Z n / s - x) == Qabs (inject_Z n - x * s) * / s.
Proof.
  intros Hs.
  assert (Hinv : 0 < / s) by now apply Qinv_lt_0_compat.
  assert (He : inject_Z n / s - x == (inject_Z n - x * s) * / s)
    by (field; lra).
  rewrite He, Qabs_Qmult, (Qabs_pos (/ s)) by lra. reflexivity.
Qed.

(** Clamping the nearest integer gives a nearest integer of the interval. *)
Lemma clamped_round_is_nearest (lo hi q : Z) (y : Q) :
  (lo <= q <= hi)%Z ->
  Qabs (inject_Z (Z.max lo (Z.min hi (py_round y))) - y)
  <= Qabs (inject_Z q - y).
Proof.
  intros Hq.
  pose proof (py_round_near y) as Hn.
  destruct (Z_lt_le_dec (py_round y) lo) as [Hl | Hl].
  - replace (Z.max lo (Z.min hi (py_round y))) with lo by lia.
    apply Qabs_Qle_condition in Hn.
    assert (H1 : inject_Z (py_round y) + 1 <= inject_Z lo).
    { rewrite <- inject_Z_succ, <- Zle_Qle. lia. }
    assert (H2 : inject_Z lo <= inject_Z q) by (rewrite <- Zle_Qle; lia).
    rewrite Qabs_pos by lra.
    apply Qle_trans with (inject_Z q - y); [lra | apply Qle_Qabs].
  - destruct (Z_lt_le_dec hi (py_round y)) as [Hh | Hh].
    + replace (Z.max lo (Z.min hi (py_round y))) with hi by lia.
      apply Qabs_Qle_condition in Hn.
      assert (H1 : inject_Z hi + 1 <= inject_Z (py_round y)).
      { rewrite <- inject_Z_succ, <- Zle_Qle. lia. }
      assert (H2 : inject_Z q <= inject_Z hi) by (rewrite <- Zle_Qle; lia).
      rewrite Qabs_neg by lra. rewrite <- (Qabs_opp (inject_Z q - y)).
      apply Qle_trans with (- (inject_Z q - y)); [lra | apply Qle_Qabs].
    + replace (Z.max lo (Z.min hi (py_round y))) with (py_round y) by lia.
      now apply half_away_is_nearest.
Qed.

(** Shifting by an even integer shifts the rounded value by as much. *)
Lemma py_round_add_even (y : Q) (m : Z) :
  Z.even m = true -> py_round (y + inject_Z m) = (py_round y + m)%Z.
Proof.
  intros Hm. destruct (floor_bounds y) as [Hf Hf'].
  assert (Hfl : Qfloor (y + inject_Z m) = (Qfloor y + m)%Z).
  { apply floor_unique; rewrite inject_Z_plus; lra. }
  unfold py_round. rewrite Hfl.
  assert (Hc : (y + inject_Z m - inject_Z (Qfloor y + m) ?= 1 # 2)
               = (y - inject_Z (Qfloor y) ?= 1 # 2)).
  { apply Qcompare_comp; [rewrite inject_Z_plus; ring | reflexivity]. }
  rewrite Hc, Z.even_add, Hm.
  destruct (y - inject_Z (Qfloor y) ?= 1 # 2);
    destruct (Z.even (Qfloor y)); cbn; lia.
Qed.

Lemma floor_add_int (y : Q) (m : Z) :
  Qfloor (y + inject_Z m) = (Qfloor y + m)%Z.
Proof.
  destruct (floor_bounds y) as [Hf Hf'].
  apply floor_unique; rewrite inject_Z_plus; lra.
Qed.

Lemma ceiling_add_int (y : Q) (m : Z) :
  Qceiling (y + inject_Z m) = (Qceiling y + m)%Z.
Proof.
  unfold Qceiling.
  assert (He : - (y + inject_Z m) == - y + inject_Z (- m))
    by (rewrite inject_Z_opp; ring).
  rewrite (Qfloor_comp _ _ He), floor_add_int. lia.
Qed.

End RationalFacts.

Section Unscale.

Local Open Scope Q_scope.

Variables (x s : Q) (n : Z).
Hypothesis Hs : 0 < s.

Lemma unscale_le_l : inject_Z n <= x * s -> inject_Z n / s <= x.
Proof. intros H. now apply Qle_shift_div_r. Qed.

Lemma unscale_le_r : x * s <= inject_Z n -> x <= inject_Z n / s.
Proof. intros H. now apply Qle_shift_div_l. Qed.

Lemma unscale_lt_r : x * s < inject_Z n + 1 -> x < inject_Z n / s + 1 / s.
Proof.
  intros H.
  assert (He : inject_Z n / s + 1 / s == (inject_Z n + 1) / s) by (field; lra).
  rewrite He. now apply Qlt_shift_div_l.
Qed.

Lemma unscale_lt_l : inject_Z n - 1 < x * s -> inject_Z n / s - 1 / s < x.
Proof.
  intros H.
  assert (He : inject_Z n / s - 1 / s == (inject_Z n - 1) / s) by (field; lra).
  rewrite He. now apply Qlt_shift_div_r.
Qed.

End Unscale.

(** * Hexadecimal rendering *)

Section Hex.

Import Hexadecimal.

Lemma length_append (s t : string) :
  String.length (String.append s t) = (String.length s + String.length t)%nat.
Proof. induction s as [| c s IH]; cbn; [reflexivity | now rewrite IH]. Qed.

Lemma length_zeros (n : nat) : String.length (zeros n) = n.
Proof. induction n as [| n IH]; cbn; [reflexivity | now rewrite IH]. Qed.

Lemma upper_hex_length (d : uint) : String.length (upper_hex d) = nb_digits d.
Proof. induction d; cbn; congruence. Qed.

(** Padding reaches the width exactly when the digits fit. *)
Lemma zfill_length (width : Z) (s : string) :
  Z.of_nat (String.length s) <= width ->
  Z.of_nat (String.length (zfill width s)) = width.
Proof.
  intros Hfit. unfold zfill. rewrite length_append, length_zeros. lia.
Qed.

(** The digits after an accumulator [p] weigh at least [p * 16^digits]. *)
Lemma of_hex_uint_acc_lower (d : uint) :
  forall p : positive,
    Z.pos p * 16 ^ Z.of_nat (nb_digits d) <= Z.pos (Pos.of_hex_uint_acc d p).
Proof.
  induction d as [| d IH | d IH | d IH | d IH | d IH | d IH | d IH | d IH
                  | d IH | d IH | d IH | d IH | d IH | d IH | d IH | d IH];
    intros p;
    [cbn; lia | ..];
    cbn [nb_digits Pos.of_hex_uint_acc];
    rewrite Nat2Z.inj_succ, Z.pow_succ_r by lia;
    match goal with
    | |- _ <= Z.pos (Pos.of_hex_uint_acc _ ?acc) => specialize (IH acc)
    end;
    assert (0 < 16 ^ Z.of_nat (nb_digits d)) by (apply Z.pow_pos_nonneg; lia);
    nia.
Qed.

(** The digits of a positive number do not start with a zero. *)
Lemma to_hex_uint_head (p : positive) :
  forall l, Pos.to_hex_uint p <> D0 l.
Proof.
  intros l Hd.
  pose proof (HexadecimalPos.Unsigned.to_of (Pos.to_hex_uint p)) as Hn.
  rewrite HexadecimalPos.Unsigned.of_to in Hn. cbn [N.to_hex_uint] in Hn.
  rewrite Hd in Hn. rewrite HexadecimalFacts.unorm_D0 in Hn.
  unfold unorm in Hn. destruct (nzhead l) eqn:Hz; try discriminate.
  - injection Hn as Hl. subst l.
    exact (HexadecimalPos.Unsigned.to_uint_nonzero p Hd).
  - exact (HexadecimalFacts.nzhead_nonzero _ _ Hz).
Qed.

Lemma hex_digits_fit (u k : Z) :
  1 <= k -> 0 <= u < 16 ^ k ->
  Z.of_nat (nb_digits (N.to_hex_uint (Z.abs_N u))) <= k.
Proof.
  intros Hk [Hu0 Hu].
  destruct u as [| p | p]; [cbn; lia | | lia].
  cbn [Z.abs_N N.to_hex_uint].
  pose proof (HexadecimalPos.Unsigned.of_to p) as Hval.
  pose proof (to_hex_uint_head p) as Hhead.
  pose proof (HexadecimalPos.Unsigned.to_uint_nonnil p) as Hnil.
  assert (Hlow : 16 ^ (Z.of_nat (nb_digits (Pos.to_hex_uint p)) - 1)
                 <= Z.pos p).
  { destruct (Pos.to_hex_uint p) as [| l | l | l | l | l | l | l | l
                                     | l | l | l | l | l | l | l | l];
      [congruence | exfalso; exact (Hhead l eq_refl) | ..];
      cbn [Pos.of_hex_uint] in Hval; injection Hval as <-;
      cbn [nb_digits]; rewrite Nat2Z.inj_succ;
      replace (Z.succ (Z.of_nat (nb_digits l)) - 1)
        with (Z.of_nat (nb_digits l)) by lia;
      match goal with
      | |- _ <= Z.pos (Pos.of_hex_uint_acc _ ?acc) =>
          pose proof (of_hex_uint_acc_lower l acc) as Hacc
      end;
      assert (0 < 16 ^ Z.of_nat (nb_digits l))
        by (apply Z.pow_pos_nonneg; lia);
      nia. }
  assert (Hlt : 16 ^ (Z.of_nat (nb_digits (Pos.to_hex_uint p)) - 1) < 16 ^ k)
    by lia.
  apply Z.pow_lt_mono_r_iff in Hlt; lia.
Qed.

End Hex.

Section HexValue.

Import Hexadecimal.

Lemma hex_value_acc (d : uint) :
  forall p : positive,
    hex_value_from (Npos p) (upper_hex d) = Npos (Pos.of_hex_uint_acc d p).
Proof.
  induction d as [| d IH | d IH | d IH | d IH | d IH | d IH | d IH | d IH
                  | d IH | d IH | d IH | d IH | d IH | d IH | d IH | d IH];
    intros p; [reflexivity | ..];
    cbn [upper_hex hex_value_from Pos.of_hex_uint_acc hex_digit_value];
    rewrite <- IH; f_equal; lia.
Qed.

Lemma hex_value_upper (d : uint) :
  hex_value_from 0 (upper_hex d) = N.of_hex_uint d.
Proof.
  unfold N.of_hex_uint.
  induction d as [| d IH | d IH | d IH | d IH | d IH | d IH | d IH | d IH
                  | d IH | d IH | d IH | d IH | d IH | d IH | d IH | d IH];
    [reflexivity | exact IH | ..];
    cbn [upper_hex hex_value_from Pos.of_hex_uint hex_digit_value];
    rewrite <- hex_value_acc; f_equal.
Qed.

Lemma hex_value_zeros (n : nat) (s : string) :
  hex_value_from 0 (String.append (zeros n) s) = hex_value_from 0 s.
Proof. induction n as [| n IH]; [reflexivity | exact IH]. Qed.

(** Reading a padded rendering back gives the number rendered. *)
Lemma hex_value_format (u width : Z) :
  0 <= u -> hex_value_from 0 (format_0X u width) = Z.to_N u.
Proof.
  intros Hu. unfold format_0X.
  destruct (Z.ltb_spec u 0) as [Hneg | _]; [lia |].
  unfold zfill. rewrite hex_value_zeros, hex_value_upper.
  rewrite HexadecimalN.Unsigned.of_to. now destruct u.
Qed.

End HexValue.

(** * Rounding next to a power of two *)

Section Absorb.

Local Open Scope Q_scope.

Lemma Qlog2_unique (a : Q) (l : Z) :
  0 < a -> Qpow2 l <= a -> a < Qpow2 (l + 1) -> Qlog2 a = l.
Proof.
  intros Ha H1 H2. destruct (Qlog2_spec a Ha) as [S1 S2].
  assert (L1 : Qpow2 (Qlog2 a) < Qpow2 (l + 1)) by lra.
  assert (L2 : Qpow2 l < Qpow2 (Qlog2 a + 1)) by lra.
  apply Qpow2_lt_inv in L1, L2. lia.
Qed.

(** An even integer within one half of [y] is the rounding of [y]. *)
Lemma py_round_even_near (y : Q) (n : Z) :
  Z.even n = true -> Qabs (inject_Z n - y) <= 1 # 2 -> py_round y = n.
Proof.
  intros Hev Hn.
  pose proof (py_round_near y) as Hm.
  pose proof (py_round_tie_even y) as Htie.
  set (m := py_round y) in *.
  apply Qabs_Qle_condition in Hn. apply Qabs_Qle_condition in Hm.
  assert (Hd : (n - 1 <= m <= n + 1)%Z).
  { split; rewrite Zle_Qle; [unfold Z.sub; rewrite inject_Z_plus, inject_Z_opp
                            | rewrite inject_Z_plus];
      change (inject_Z 1) with 1; lra. }
  destruct (Z.eq_dec m n) as [He | Hne]; [exact He | exfalso].
  assert (Hodd : Z.even m = false).
  { assert (Hc : m = (n + 1)%Z \/ m = (n - 1)%Z) by lia.
    destruct Hc as [-> | ->].
    - rewrite Z.even_add, Hev. reflexivity.
    - rewrite Z.even_sub, Hev. reflexivity. }
  rewrite Htie in Hodd; [discriminate |].
  assert (Hc : m = (n + 1)%Z \/ m = (n - 1)%Z) by lia.
  destruct Hc as [Hc | Hc].
  - assert (Hy : inject_Z m - y == 1 # 2).
    { rewrite Hc in *. rewrite inject_Z_plus in *.
      change (inject_Z 1) with 1 in *. lra. }
    rewrite Hy. reflexivity.
  - assert (Hy : inject_Z m - y == - (1 # 2)).
    { rewrite Hc in *. unfold Z.sub in *.
      rewrite inject_Z_plus, inject_Z_opp in *.
      change (inject_Z 1) with 1 in *. lra. }
    rewrite Hy. reflexivity.
Qed.

Lemma Qabs_opp_eq (x : Q) : Qabs (- x) = Qabs x.
Proof.
  destruct x as [n d]. unfold Qabs, Qopp. cbn. now rewrite Z.abs_opp.
Qed.

(** Rounding a value of the binade [[2^l, 2^(l+1))] whose mantissa is
    within one half of the even integer [n]. *)
Lemma round_double_normal (q : Q) (l n : Z) :
  Qpow2 l <= Qabs q -> Qabs q < Qpow2 (l + 1) -> (-1074 <= l - 52)%Z ->
  Z.even n = true ->
  Qabs (inject_Z n - Qabs q / Qpow2 (l - 52)) <= 1 # 2 ->
  inject_Z n * Qpow2 (l - 52) < Qpow2 1024 ->
  round_double q =
  Finite (Qred (if Qle_bool 0 q then inject_Z n * Qpow2 (l - 52)
                else - (inject_Z n * Qpow2 (l - 52)))).
Proof.
  intros H1 H2 Hl Hev Hn Hv.
  pose proof (Qpow2_pos l) as Hpl.
  pose proof (Qred_correct q) as Hx.
  unfold round_double. set (x := Qred q) in *.
  assert (Hax : Qabs x == Qabs q) by now rewrite Hx.
  destruct (Qeq_bool x 0) eqn:Hz.
  { apply Qeq_bool_iff in Hz. exfalso.
    rewrite Hz in Hax. change (Qabs 0) with 0 in Hax. lra. }
  assert (HL : Qlog2 (Qabs x) = l)
    by (apply Qlog2_unique; rewrite Hax; lra).
  rewrite HL. replace (Z.max (l - 52) (-1074)) with (l - 52)%Z by lia.
  assert (Hy : Qabs x / Qpow2 (l - 52) == Qabs q / Qpow2 (l - 52))
    by now rewrite Hax.
  rewrite (py_round_comp _ _ Hy), (py_round_even_near _ n Hev Hn).
  destruct (Qle_bool (Qpow2 1024) _) eqn:Hb.
  { apply Qle_bool_iff in Hb. exfalso. lra. }
  assert (Hs : Qle_bool 0 x = Qle_bool 0 q)
    by (apply Qleb_comp; [reflexivity | exact Hx]).
  now rewrite Hs.
Qed.

(** [(2^k + d) / 2^f] in terms of powers of two. *)
Lemma pow2_step (k f d : Z) :
  (0 <= k)%Z -> (0 <= f)%Z ->
  inject_Z (2 ^ k + d) / inject_Z (2 ^ f)
  == Qpow2 (k - f) + inject_Z d * Qpow2 (- f).
Proof.
  intros Hk Hf. pose proof (Qpow2_pos f) as Hp.
  rewrite inject_Z_plus, <- !Qpow2_inject by lia.
  rewrite Qpow2_sub. replace (- f)%Z with (0 - f)%Z by lia.
  rewrite (Qpow2_sub 0 f). change (Qpow2 0) with 1. field. lra.
Qed.

(** [2^k + 1] with [k >= 53] is rounded back to [2^k]; for [k = 53] by
    the tie rule. *)
Lemma round_double_above_pow2 (k f : Z) (s : bool) :
  (53 <= k <= 1023)%Z -> (0 <= f <= k)%Z ->
  round_double (inject_Z (if s then - (2 ^ k + 1) else 2 ^ k + 1)
                / inject_Z (2 ^ f))
  = Finite (Qred (inject_Z (if s then - 2 ^ k else 2 ^ k) / inject_Z (2 ^ f))).
Proof.
  intros Hk Hf.
  pose proof (Qpow2_pos (k - f)) as Hp. pose proof (Qpow2_pos (- f)) as Hpf.
  pose proof (Qpow2_pos (k - f - 52)) as HA.
  pose proof (Qpow2_pos (52 - k)) as Hsm.
  pose proof (Qpow2_pos f) as Hpos.
  assert (Hsmall : Qpow2 (52 - k) <= 1 # 2)
    by (apply (Qle_trans _ (Qpow2 (-1))); [apply Qpow2_le; lia | apply Qle_refl]).
  assert (Hlow : Qpow2 (- f) < Qpow2 (k - f)) by (apply Qpow2_lt; lia).
  assert (Hdouble : Qpow2 (k - f + 1) == 2 * Qpow2 (k - f))
    by (rewrite Qpow2_add; change (Qpow2 1) with 2; ring).
  assert (Hbig : Qpow2 (k - f) == inject_Z (2 ^ 52) * Qpow2 (k - f - 52)).
  { replace (k - f)%Z with (52 + (k - f - 52))%Z at 1 by lia.
    rewrite Qpow2_add, (Qpow2_inject 52) by lia. reflexivity. }
  assert (Hone : Qpow2 (- f) == Qpow2 (52 - k) * Qpow2 (k - f - 52)).
  { replace (- f)%Z with (52 - k + (k - f - 52))%Z at 1 by lia.
    apply Qpow2_add. }
  assert (Hq : inject_Z (2 ^ k + 1) / inject_Z (2 ^ f)
               == Qpow2 (k - f) + Qpow2 (- f)).
  { rewrite pow2_step by lia. change (inject_Z 1) with 1. ring. }
  assert (Habs : Qabs (inject_Z (if s then - (2 ^ k + 1) else 2 ^ k + 1)
                       / inject_Z (2 ^ f))
                 == Qpow2 (k - f) + Qpow2 (- f)).
  { rewrite <- Hq. destruct s.
    - rewrite inject_Z_opp.
      assert (He : - inject_Z (2 ^ k + 1) / inject_Z (2 ^ f)
                   == - (inject_Z (2 ^ k + 1) / inject_Z (2 ^ f)))
        by (field; rewrite <- Qpow2_inject by lia; lra).
      rewrite He, Qabs_opp. apply Qabs_pos. rewrite Hq. lra.
    - apply Qabs_pos. rewrite Hq. lra. }
  rewrite (round_double_normal _ (k - f) (2 ^ 52)).
  - f_equal. apply Qred_complete.
    assert (Hpow : inject_Z (2 ^ 52) * Qpow2 (k - f - 52)
                   == inject_Z (2 ^ k) / inject_Z (2 ^ f))
      by (rewrite <- Hbig, Qpow2_sub, !Qpow2_inject by lia; reflexivity).
    destruct s.
    + destruct (Qle_bool 0 _) eqn:Hb.
      * apply Qle_bool_iff in Hb. exfalso.
        rewrite inject_Z_opp in Hb.
        assert (He : - inject_Z (2 ^ k + 1) / inject_Z (2 ^ f)
                     == - (inject_Z (2 ^ k + 1) / inject_Z (2 ^ f)))
          by (field; rewrite <- Qpow2_inject by lia; lra).
        rewrite He, Hq in Hb. lra.
      * rewrite Hpow, inject_Z_opp. field.
        rewrite <- Qpow2_inject by lia. lra.
    + destruct (Qle_bool 0 _) eqn:Hb; [exact Hpow |].
      exfalso. assert (Hle : Qle_bool 0 (inject_Z (2 ^ k + 1) / inject_Z (2 ^ f))
                             = true)
        by (apply Qle_bool_iff; rewrite Hq; lra).
      congruence.
  - rewrite Habs. lra.
  - rewrite Habs, Hdouble. lra.
  - lia.
  - reflexivity.
  - assert (Hy : Qabs (inject_Z (if s then - (2 ^ k + 1) else 2 ^ k + 1)
                       / inject_Z (2 ^ f)) / Qpow2 (k - f - 52)
                 == inject_Z (2 ^ 52) + Qpow2 (52 - k)).
    { rewrite Habs, Hbig, Hone. field. lra. }
    rewrite Hy.
    assert (He : inject_Z (2 ^ 52) - (inject_Z (2 ^ 52) + Qpow2 (52 - k))
                 == - Qpow2 (52 - k)) by ring.
    rewrite He, Qabs_opp, Qabs_pos; lra.
  - rewrite <- Hbig. apply Qpow2_lt. lia.
Qed.

(** [2^k - 1] with [k >= 54] is rounded up to [2^k]; for [k = 54] by the
    tie rule. *)
Lemma round_double_below_pow2 (k f : Z) :
  (54 <= k <= 1023)%Z -> (0 <= f <= k)%Z ->
  round_double (inject_Z (2 ^ k - 1) / inject_Z (2 ^ f))
  = Finite (Qred (inject_Z (2 ^ k) / inject_Z (2 ^ f))).
Proof.
  intros Hk Hf.
  pose proof (Qpow2_pos (k - f)) as Hp. pose proof (Qpow2_pos (- f)) as Hpf.
  pose proof (Qpow2_pos (k - f - 1)) as Hp1.
  pose proof (Qpow2_pos (k - f - 53)) as HA.
  pose proof (Qpow2_pos (53 - k)) as Hsm.
  assert (Hsmall : Qpow2 (53 - k) <= 1 # 2)
    by (apply (Qle_trans _ (Qpow2 (-1))); [apply Qpow2_le; lia | apply Qle_refl]).
  assert (Hlow : Qpow2 (- f) <= Qpow2 (k - f - 1)) by (apply Qpow2_le; lia).
  assert (Hdouble : Qpow2 (k - f) == 2 * Qpow2 (k - f - 1)).
  { replace (k - f)%Z with (1 + (k - f - 1))%Z at 1 by lia.
    rewrite Qpow2_add. change (Qpow2 1) with 2. ring. }
  assert (Hbig : Qpow2 (k - f) == inject_Z (2 ^ 53) * Qpow2 (k - f - 53)).
  { replace (k - f)%Z with (53 + (k - f - 53))%Z at 1 by lia.
    rewrite Qpow2_add, (Qpow2_inject 53) by lia. reflexivity. }
  assert (Hone : Qpow2 (- f) == Qpow2 (53 - k) * Qpow2 (k - f - 53)).
  { replace (- f)%Z with (53 - k + (k - f - 53))%Z at 1 by lia.
    apply Qpow2_add. }
  assert (Hq : inject_Z (2 ^ k - 1) / inject_Z (2 ^ f)
               == Qpow2 (k - f) - Qpow2 (- f)).
  { unfold Z.sub at 1. rewrite pow2_step by lia.
    rewrite inject_Z_opp. change (inject_Z 1) with 1. ring. }
  assert (Hpos : 0 < inject_Z (2 ^ k - 1) / inject_Z (2 ^ f))
    by (rewrite Hq; lra).
  assert (Habs : Qabs (inject_Z (2 ^ k - 1) / inject_Z (2 ^ f))
                 == Qpow2 (k - f) - Qpow2 (- f))
    by (rewrite Qabs_pos; [exact Hq | lra]).
  rewrite (round_double_normal _ (k - f - 1) (2 ^ 53)).
  - f_equal. apply Qred_complete.
    replace (k - f - 1 - 52)%Z with (k - f - 53)%Z by lia.
    assert (Hle : Qle_bool 0 (inject_Z (2 ^ k - 1) / inject_Z (2 ^ f)) = true)
      by (apply Qle_bool_iff; lra).
    rewrite Hle, <- Hbig, Qpow2_sub, !Qpow2_inject by lia. reflexivity.
  - rewrite Habs. lra.
  - replace (k - f - 1 + 1)%Z with (k - f)%Z by lia. rewrite Habs. lra.
  - lia.
  - reflexivity.
  - replace (k - f - 1 - 52)%Z with (k - f - 53)%Z by lia.
    assert (Hy : Qabs (inject_Z (2 ^ k - 1) / inject_Z (2 ^ f))
                 / Qpow2 (k - f - 53)
                 == inject_Z (2 ^ 53) - Qpow2 (53 - k)).
    { rewrite Habs, Hbig, Hone. field. lra. }
    rewrite Hy.
    assert (He : inject_Z (2 ^ 53) - (inject_Z (2 ^ 53) - Qpow2 (53 - k))
                 == Qpow2 (53 - k)) by ring.
    rewrite He, Qabs_pos; lra.
  - replace (k - f - 1 - 52)%Z with (k - f - 53)%Z by lia.
    rewrite <- Hbig. apply Qpow2_lt. lia.
Qed.

End Absorb.

(** * The public operations step by step *)

(** Closed side conditions on a concrete format and a concrete float. *)
Ltac format_ok :=
  unfold exact_format, float_format, wf_format; cbn; lia.

Ltac scalable_ok :=
  split; [cbn; lia | split; vm_compute; reflexivity].

(** ** The policy tokens are decidable *)

Lemma valid_rounding_dec (r : string) :
  {valid_rounding r} + {~ valid_rounding r}.
Proof.
  unfold valid_rounding.
  destruct (string_dec r "nearest"); [left; tauto |].
  destruct (string_dec r "floor"); [left; tauto |].
  destruct (string_dec r "ceil"); [left; tauto |].
  right; tauto.
Qed.

Lemma valid_overflow_dec (o : string) :
  {valid_overflow o} + {~ valid_overflow o}.
Proof.
  unfold valid_overflow.
  destruct (string_dec o "wrap"); [left; tauto |].
  destruct (string_dec o "saturate"); [left; tauto |].
  right; tauto.
Qed.

(** ** Reading a returned triple backwards *)

Lemma quantize_inv (x : float) (fmt : FixedFormat) (o r : string)
      (qi : Z) (xr : float) (hx : string) :
  quantize x fmt o r = Ok (qi, xr, hx) ->
  exists n,
    _round_to_int x fmt r = Ok n /\ _apply_overflow n fmt o = Ok qi /\
    int_to_real qi fmt = Ok xr /\ int_to_hex qi fmt = Ok hx.
Proof.
  unfold quantize. intros H.
  destruct (_round_to_int x fmt r) as [n |] eqn:E1; [| discriminate]. cbn [bind] in H.
  destruct (_apply_overflow n fmt o) as [q |] eqn:E2; [| discriminate].
  cbn [bind] in H.
  destruct (int_to_real q fmt) as [xr0 |] eqn:E3; [| discriminate]. cbn [bind] in H.
  destruct (int_to_hex q fmt) as [hx0 |] eqn:E4; [| discriminate]. cbn [bind] in H.
  injection H as <- <- <-. exists n. repeat split; assumption.
Qed.

Lemma add_inv (a b : float) (fmt : FixedFormat) (o r : string)
      (qi : Z) (xr : float) (hx : string) :
  add a b fmt o r = Ok (qi, xr, hx) ->
  exists ra ai rb bi,
    _round_to_int a fmt r = Ok ra /\ _apply_overflow ra fmt o = Ok ai /\
    _round_to_int b fmt r = Ok rb /\ _apply_overflow rb fmt o = Ok bi /\
    _apply_overflow (ai + bi) fmt o = Ok qi /\
    int_to_real qi fmt = Ok xr /\ int_to_hex qi fmt = Ok hx.
Proof.
  unfold add. intros H.
  destruct (_round_to_int a fmt r) as [ra |] eqn:E5; [| discriminate]. cbn [bind] in H.
  destruct (_apply_overflow ra fmt o) as [ai |] eqn:E6; [| discriminate].
  cbn [bind] in H.
  destruct (_round_to_int b fmt r) as [rb |] eqn:E7; [| discriminate]. cbn [bind] in H.
  destruct (_apply_overflow rb fmt o) as [bi |] eqn:E8; [| discriminate].
  cbn [bind] in H.
  destruct (_apply_overflow (ai + bi) fmt o) as [si |] eqn:E9; [| discriminate].
  cbn [bind] in H.
  destruct (int_to_real si fmt) as [xr0 |] eqn:E10; [| discriminate]. cbn [bind] in H.
  destruct (int_to_hex si fmt) as [hx0 |] eqn:E11; [| discriminate]. cbn [bind] in H.
  injection H as <- <- <-. exists ra, ai, rb, bi. repeat split; assumption.
Qed.

Lemma mul_inv (a b : float) (fmt : FixedFormat) (o r : string)
      (qi : Z) (xr : float) (hx : string) :
  mul a b fmt o r = Ok (qi, xr, hx) ->
  exists ra ai rb bi bias q,
    _round_to_int a fmt r = Ok ra /\ _apply_overflow ra fmt o = Ok ai /\
    _round_to_int b fmt r = Ok rb /\ _apply_overflow rb fmt o = Ok bi /\
    lshift 1 (F fmt - 1) = Ok bias /\
    rshift (biased (ai * bi) bias) (F fmt) = Ok q /\
    _apply_overflow q fmt o = Ok qi /\
    int_to_real qi fmt = Ok xr /\ int_to_hex qi fmt = Ok hx.
Proof.
  unfold mul. intros H.
  destruct (_round_to_int a fmt r) as [ra |] eqn:E12; [| discriminate]. cbn [bind] in H.
  destruct (_apply_overflow ra fmt o) as [ai |] eqn:E13; [| discriminate].
  cbn [bind] in H.
  destruct (_round_to_int b fmt r) as [rb |] eqn:E14; [| discriminate]. cbn [bind] in H.
  destruct (_apply_overflow rb fmt o) as [bi |] eqn:E15; [| discriminate].
  cbn [bind] in H.
  destruct (lshift 1 (F fmt - 1)) as [bias |] eqn:E16; [| discriminate].
  cbn [bind] in H. fold (biased (ai * bi) bias) in H.
  destruct (rshift (biased (ai * bi) bias) (F fmt)) as [q |] eqn:E17; [| discriminate].
  cbn [bind] in H.
  destruct (_apply_overflow q fmt o) as [q' |] eqn:E18; [| discriminate].
  cbn [bind] in H.
  destruct (int_to_real q' fmt) as [xr0 |] eqn:E19; [| discriminate]. cbn [bind] in H.
  destruct (int_to_hex q' fmt) as [hx0 |] eqn:E20; [| discriminate]. cbn [bind] in H.
  injection H as <- <- <-. exists ra, ai, rb, bi, bias, q. repeat split; assumption.
Qed.

(** A constrained integer is in range, whatever the policy was. *)
Lemma apply_overflow_inv (fmt : FixedFormat) (n qi : Z) (o : string) :
  wf_format fmt -> _apply_overflow n fmt o = Ok qi ->
  valid_overflow o /\ lo_int fmt <= qi <= hi_int fmt.
Proof.
  intros Hwf H. destruct (valid_overflow_dec o) as [Ho | Ho].
  - split; [exact Ho |].
    destruct (apply_overflow_total fmt Hwf n o Ho) as [q [Hq Hrange]].
    rewrite Hq in H. now injection H as <-.
  - rewrite apply_overflow_bad in H by assumption. discriminate.
Qed.

Lemma round_to_int_inv (fmt : FixedFormat) (x : float) (r : string) (n : Z) :
  _round_to_int x fmt r = Ok n -> valid_rounding r.
Proof.
  unfold _round_to_int. intros H.
  destruct (scale fmt) as [s |]; [| discriminate]. cbn [bind] in H.
  destruct (float_of_int s) as [sf |]; [| discriminate]. cbn [bind] in H.
  destruct (String.eqb_spec r "nearest") as [-> | _]; [now left |].
  destruct (String.eqb_spec r "floor") as [-> | _]; [right; now left |].
  destruct (String.eqb_spec r "ceil") as [-> | _]; [right; now right |].
  discriminate.
Qed.

(** ** Integer facts on the overflow policies and on the rescaling *)

Lemma wrap_int_mod (fmt : FixedFormat) (qi : Z) :
  wf_format fmt -> wrap_int fmt qi mod 2 ^ W fmt = qi mod 2 ^ W fmt.
Proof.
  intros Hwf. unfold wrap_int, fold_signed.
  assert (Hpos : 0 < 2 ^ W fmt)
    by (pose proof (pow_half_pos fmt Hwf); pose proof (pow_W_split fmt Hwf); lia).
  destruct (signed fmt && (2 ^ (W fmt - 1) <=? qi mod 2 ^ W fmt)).
  - replace (qi mod 2 ^ W fmt - 2 ^ W fmt)
      with (qi mod 2 ^ W fmt + (-1) * 2 ^ W fmt) by lia.
    rewrite Z.mod_add by lia. apply Z.mod_mod. lia.
  - apply Z.mod_mod. lia.
Qed.

Lemma clamp_int_id (fmt : FixedFormat) (q : Z) :
  lo_int fmt <= q <= hi_int fmt -> clamp_int fmt q = q.
Proof. unfold clamp_int. lia. Qed.

(** A stored integer already in range is left alone by "wrap". *)
Lemma wrap_int_id (fmt : FixedFormat) (Hwf : wf_format fmt) (q : Z) :
  lo_int fmt <= q <= hi_int fmt -> wrap_int fmt q = q.
Proof.
  unfold lo_int, hi_int, wrap_int, fold_signed.
  pose proof (pow_half_pos fmt Hwf) as Hh.
  pose proof (pow_W_split fmt Hwf) as Hs.
  destruct (signed fmt); cbn [andb]; intros Hq.
  - destruct (Z.neg_nonneg_cases q) as [Hneg | Hnn].
    + assert (Hm : q mod 2 ^ W fmt = q + 2 ^ W fmt).
      { symmetry. apply (Z.mod_unique_pos q (2 ^ W fmt) (-1)); lia. }
      rewrite Hm.
      destruct (Z.leb_spec (2 ^ (W fmt - 1)) (q + 2 ^ W fmt)); lia.
    + rewrite Z.mod_small by lia.
      destruct (Z.leb_spec (2 ^ (W fmt - 1)) q); lia.
  - apply Z.mod_small. lia.
Qed.

Lemma apply_overflow_id (fmt : FixedFormat) (q : Z) (o : string) :
  wf_format fmt -> valid_overflow o -> lo_int fmt <= q <= hi_int fmt ->
  _apply_overflow q fmt o = Ok q.
Proof.
  intros Hwf [-> | ->] Hq.
  - rewrite apply_overflow_wrap by assumption. now rewrite wrap_int_id.
  - rewrite apply_overflow_saturate by assumption. now rewrite clamp_int_id.
Qed.

Lemma wrap_int_add (fmt : FixedFormat) (u v : Z) :
  wf_format fmt ->
  wrap_int fmt (wrap_int fmt u + v) = wrap_int fmt (u + v) /\
  wrap_int fmt (u + wrap_int fmt v) = wrap_int fmt (u + v).
Proof.
  intros Hwf.
  assert (Hpos : 2 ^ W fmt <> 0)
    by (pose proof (pow_half_pos fmt Hwf); pose proof (pow_W_split fmt Hwf); lia).
  split; unfold wrap_int at 1 3; f_equal.
  - rewrite Z.add_mod, wrap_int_mod, <- Z.add_mod by assumption. reflexivity.
  - rewrite Z.add_mod, wrap_int_mod, <- Z.add_mod by assumption. reflexivity.
Qed.

(** The rescaled product against the exact one. *)
Lemma rescale_bounds (p f : Z) :
  1 <= f ->
  let q := biased p (2 ^ (f - 1)) / 2 ^ f in
  (0 <= p -> - 2 ^ (f - 1) <= p - q * 2 ^ f < 2 ^ (f - 1)) /\
  (p < 0 -> 2 ^ (f - 1) <= p - q * 2 ^ f < 3 * 2 ^ (f - 1)).
Proof.
  intros Hf q.
  assert (Hb : 0 < 2 ^ (f - 1)) by (apply Z.pow_pos_nonneg; lia).
  assert (Hs : 2 ^ f = 2 * 2 ^ (f - 1)).
  { replace f with (Z.succ (f - 1)) at 1 by lia. apply Z.pow_succ_r. lia. }
  assert (Hm : 0 < 2 ^ f) by lia.
  pose proof (Z.mul_div_le (biased p (2 ^ (f - 1))) (2 ^ f) Hm) as Hle.
  pose proof (Z.mul_succ_div_gt (biased p (2 ^ (f - 1))) (2 ^ f) Hm) as Hgt.
  fold q in Hle, Hgt. unfold biased in Hle, Hgt.
  split; intros Hp.
  - destruct (Z.leb_spec 0 p); lia.
  - destruct (Z.leb_spec 0 p); lia.
Qed.

(** A product of stored integers that is a multiple of [2^F]. *)
Lemma rescale_exact (k f : Z) :
  1 <= f ->
  biased (k * 2 ^ f) (2 ^ (f - 1)) / 2 ^ f = (if 0 <=? k then k else k - 1).
Proof.
  intros Hf.
  assert (Hb : 0 < 2 ^ (f - 1)) by (apply Z.pow_pos_nonneg; lia).
  assert (Hs : 2 ^ f = 2 * 2 ^ (f - 1)).
  { replace f with (Z.succ (f - 1)) at 1 by lia. apply Z.pow_succ_r. lia. }
  unfold biased.
  destruct (Z.leb_spec 0 k) as [Hk | Hk].
  - destruct (Z.leb_spec 0 (k * 2 ^ f)) as [_ | Hneg]; [| nia].
    symmetry. apply (Z.div_unique _ _ k (2 ^ (f - 1))); lia.
  - destruct (Z.leb_spec 0 (k * 2 ^ f)) as [Hpos | _]; [nia |].
    symmetry. apply (Z.div_unique _ _ (k - 1) (2 ^ (f - 1))); lia.
Qed.

(** ** Steps on float formats *)

Section Operations.

Variable fmt : FixedFormat.
Hypothesis Hff : float_format fmt.

Let Hwf : wf_format fmt := proj1 Hff.

Lemma decode_total (qi : Z) :
  exists (xr : Q) hx,
    int_to_real qi fmt = Ok (Finite xr) /\ int_to_hex qi fmt = Ok hx.
Proof.
  destruct (int_to_real_total fmt qi Hff) as [v [Hv _]].
  exists v. eexists. split; [exact Hv | now apply int_to_hex_eq].
Qed.

(** Rounding then constraining one operand: what [quantize] starts with and
    what [add] and [mul] do to each input. *)
Lemma operand_total (x : Q) (o r : string) :
  scalable fmt x -> valid_overflow o -> valid_rounding r ->
  exists n qi,
    _round_to_int x fmt r = Ok n /\ _apply_overflow n fmt o = Ok qi /\
    lo_int fmt <= qi <= hi_int fmt.
Proof.
  intros Hx Ho Hr.
  destruct (round_to_int_total fmt Hwf x r Hx Hr) as [n Hn].
  destruct (apply_overflow_total fmt Hwf n o Ho) as [qi [Hqi Hrange]].
  now exists n, qi.
Qed.

Lemma quantize_steps (x : float) (o r : string) (n qi : Z) :
  _round_to_int x fmt r = Ok n -> _apply_overflow n fmt o = Ok qi ->
  exists (xr : Q) hx,
    int_to_real qi fmt = Ok (Finite xr) /\ int_to_hex qi fmt = Ok hx /\
    quantize x fmt o r = Ok (qi, Finite xr, hx).
Proof.
  intros Hn Hqi. destruct (decode_total qi) as [xr [hx [Hxr Hhx]]].
  exists xr, hx. repeat split; try assumption.
  unfold quantize. rewrite Hn. cbn [bind]. rewrite Hqi. cbn [bind].
  rewrite Hxr. cbn [bind]. now rewrite Hhx.
Qed.

Lemma add_steps (a b : float) (o r : string) (ra ai rb bi si : Z) :
  _round_to_int a fmt r = Ok ra -> _apply_overflow ra fmt o = Ok ai ->
  _round_to_int b fmt r = Ok rb -> _apply_overflow rb fmt o = Ok bi ->
  _apply_overflow (ai + bi) fmt o = Ok si ->
  exists (xr : Q) hx,
    int_to_real si fmt = Ok (Finite xr) /\ int_to_hex si fmt = Ok hx /\
    add a b fmt o r = Ok (si, Finite xr, hx).
Proof.
  intros Hra Hai Hrb Hbi Hsi. destruct (decode_total si) as [xr [hx [Hxr Hhx]]].
  exists xr, hx. repeat split; try assumption.
  unfold add. rewrite Hra. cbn [bind]. rewrite Hai. cbn [bind].
  rewrite Hrb. cbn [bind]. rewrite Hbi. cbn [bind].
  rewrite Hsi. cbn [bind]. rewrite Hxr. cbn [bind]. now rewrite Hhx.
Qed.

Lemma mul_steps (a b : float) (o r : string) (ra ai rb bi qi : Z) :
  1 <= F fmt ->
  _round_to_int a fmt r = Ok ra -> _apply_overflow ra fmt o = Ok ai ->
  _round_to_int b fmt r = Ok rb -> _apply_overflow rb fmt o = Ok bi ->
  _apply_overflow (biased (ai * bi) (2 ^ (F fmt - 1)) / 2 ^ F fmt) fmt o
    = Ok qi ->
  exists (xr : Q) hx,
    int_to_real qi fmt = Ok (Finite xr) /\ int_to_hex qi fmt = Ok hx /\
    mul a b fmt o r = Ok (qi, Finite xr, hx).
Proof.
  intros HF Hra Hai Hrb Hbi Hqi.
  destruct (decode_total qi) as [xr [hx [Hxr Hhx]]].
  exists xr, hx. repeat split; try assumption.
  unfold mul. rewrite Hra. cbn [bind]. rewrite Hai. cbn [bind].
  rewrite Hrb. cbn [bind]. rewrite Hbi. cbn [bind].
  rewrite lshift_1 by lia. cbn [bind].
  rewrite rshift_floor by lia. cbn [bind].
  fold (biased (ai * bi) (2 ^ (F fmt - 1))).
  rewrite Hqi. cbn [bind]. rewrite Hxr. cbn [bind]. now rewrite Hhx.
Qed.

End Operations.

(** With no fractional bit the bias [1 << (F - 1)] cannot be computed. *)
Lemma mul_no_fraction (fmt : FixedFormat) (a b : Q) (o r : string) :
  wf_format fmt -> F fmt = 0 -> double a -> double b ->
  valid_overflow o -> valid_rounding r ->
  mul a b fmt o r = Raise NegativeShiftCount.
Proof.
  intros Hwf HF Ha Hb Ho Hr.
  assert (Hsc : forall x, double x -> scalable fmt x).
  { intros x Hx. split; [lia |]. split; [exact Hx |].
    rewrite HF. change (inject_Z (2 ^ 0)) with 1%Q. rewrite Qmult_1_r.
    exact (proj1 (double_inv x Hx)). }
  destruct (round_to_int_total fmt Hwf a r (Hsc a Ha) Hr) as [ra Hra].
  destruct (round_to_int_total fmt Hwf b r (Hsc b Hb) Hr) as [rb Hrb].
  destruct (apply_overflow_total fmt Hwf ra o Ho) as [ai [Hai _]].
  destruct (apply_overflow_total fmt Hwf rb o Ho) as [bi [Hbi _]].
  unfold mul. rewrite Hra. cbn [bind]. rewrite Hai. cbn [bind].
  rewrite Hrb. cbn [bind]. rewrite Hbi. cbn [bind].
  rewrite lshift_neg by lia. reflexivity.
Qed.

(** ** Steps on exact formats *)

Section ExactSteps.

Variable fmt : FixedFormat.
Hypothesis Hex : exact_format fmt.

Let Hwf : wf_format fmt := proj1 Hex.
Let Hff : float_format fmt := exact_is_float fmt Hex.

Lemma int_to_real_in_range (q : Z) :
  lo_int fmt <= q <= hi_int fmt ->
  int_to_real q fmt = Ok (Finite (decoded fmt q)).
Proof.
  intros Hq. rewrite int_to_real_eq by assumption. now rewrite wrap_int_id.
Qed.

(** The decoded value of a stored integer scales back to that integer, in
    every rounding mode. *)
Lemma round_of_decoded_any (q : Z) (r : string) :
  Z.abs q <= 2 ^ 53 -> valid_rounding r ->
  _round_to_int (decoded fmt q) fmt r = Ok q.
Proof.
  intros Hq Hr.
  pose proof (decoded_scalable fmt q Hex Hq) as Hsc.
  assert (Hy : (decoded fmt q * inject_Z (2 ^ F fmt) == inject_Z q)%Q).
  { rewrite decoded_eq. apply div_mul_cancel. now apply pow_F_pos. }
  destruct Hr as [-> | [-> | ->]].
  - rewrite round_to_int_nearest by assumption. f_equal.
    rewrite (py_round_comp _ _ Hy). apply py_round_inject.
  - rewrite round_to_int_floor by assumption. f_equal.
    rewrite (Qfloor_comp _ _ Hy). apply Qfloor_Z.
  - rewrite round_to_int_ceil by assumption. f_equal.
    rewrite (Qceiling_comp _ _ Hy). apply Qceiling_Z.
Qed.

Lemma round_of_stored (q : Z) (r : string) :
  lo_int fmt <= q <= hi_int fmt -> valid_rounding r ->
  _round_to_int (decoded fmt q) fmt r = Ok q.
Proof.
  intros Hq Hr. apply round_of_decoded_any; [| exact Hr].
  pose proof (stored_fits_53 fmt q Hex Hq). lia.
Qed.

Lemma decoded_le (q q' : Z) :
  q <= q' -> (decoded fmt q <= decoded fmt q')%Q.
Proof.
  intros Hle. rewrite !decoded_eq. unfold Qdiv. apply Qmult_le_compat_r.
  - now rewrite <- Zle_Qle.
  - apply Qlt_le_weak, Qinv_lt_0_compat, inject_Z_pos, pow_F_pos, Hwf.
Qed.

(** A float between the bounds of the format can be scaled. *)
Lemma in_range_scalable (x : Q) :
  double x ->
  (decoded fmt (lo_int fmt) <= x)%Q -> (x <= decoded fmt (hi_int fmt))%Q ->
  scalable fmt x.
Proof.
  intros Hd Hlo Hhi.
  pose proof (scale_pos fmt Hwf) as Hs.
  pose proof (lo_le_hi fmt Hwf) as Hlh.
  assert (Hl53 : Z.abs (lo_int fmt) < 2 ^ 53)
    by (apply (stored_fits_53 fmt); [assumption | lia]).
  assert (Hh53 : Z.abs (hi_int fmt) < 2 ^ 53)
    by (apply (stored_fits_53 fmt); [assumption | lia]).
  pose proof Hex as [[_ HF] HW].
  split; [lia |]. split; [exact Hd |].
  rewrite decoded_eq in Hlo, Hhi.
  assert (Hylo : (inject_Z (lo_int fmt) <= x * inject_Z (2 ^ F fmt))%Q).
  { rewrite <- (div_mul_cancel (lo_int fmt) (2 ^ F fmt))
      by (now apply pow_F_pos).
    apply Qmult_le_compat_r; [exact Hlo | lra]. }
  assert (Hyhi : (x * inject_Z (2 ^ F fmt) <= inject_Z (hi_int fmt))%Q).
  { rewrite <- (div_mul_cancel (hi_int fmt) (2 ^ F fmt))
      by (now apply pow_F_pos).
    apply Qmult_le_compat_r; [exact Hhi | lra]. }
  assert (Habs : (Qabs x * inject_Z (2 ^ F fmt)
                  == Qabs (x * inject_Z (2 ^ F fmt)))%Q).
  { rewrite Qabs_Qmult, (Qabs_pos (inject_Z (2 ^ F fmt))) by lra.
    reflexivity. }
  rewrite Habs.
  apply Qle_lt_trans with (inject_Z (2 ^ 53)).
  - apply Qabs_Qle_condition. split.
    + apply Qle_trans with (inject_Z (lo_int fmt)); [| exact Hylo].
      rewrite <- inject_Z_opp, <- Zle_Qle. lia.
    + apply Qle_trans with (inject_Z (hi_int fmt)); [exact Hyhi |].
      rewrite <- Zle_Qle. lia.
  - rewrite <- (Qpow2_inject 53) by lia. now apply Qpow2_lt.
Qed.

End ExactSteps.

Lemma scale_le (fmt : FixedFormat) (x x' : Q) :
  wf_format fmt -> (x <= x')%Q ->
  (x * inject_Z (2 ^ F fmt) <= x' * inject_Z (2 ^ F fmt))%Q.
Proof.
  intros Hwf Hle. apply Qmult_le_compat_r; [exact Hle |].
  apply Qlt_le_weak, inject_Z_pos, pow_F_pos, Hwf.
Qed.

Lemma round_to_int_monotone (fmt : FixedFormat) (x x' : Q) (r : string)
      (n n' : Z) :
  wf_format fmt -> scalable fmt x -> scalable fmt x' -> (x <= x')%Q ->
  _round_to_int x fmt r = Ok n -> _round_to_int x' fmt r = Ok n' -> n <= n'.
Proof.
  intros Hwf Hx Hx' Hle Hn Hn'.
  pose proof (scale_le fmt x x' Hwf Hle) as Hy.
  destruct (round_to_int_inv fmt x r n Hn) as [-> | [-> | ->]].
  - rewrite round_to_int_nearest in Hn, Hn' by assumption.
    injection Hn as <-. injection Hn' as <-. exact (py_round_monotone _ _ Hy).
  - rewrite round_to_int_floor in Hn, Hn' by assumption.
    injection Hn as <-. injection Hn' as <-. exact (Qfloor_resp_le _ _ Hy).
  - rewrite round_to_int_ceil in Hn, Hn' by assumption.
    injection Hn as <-. injection Hn' as <-. exact (Qceiling_resp_le _ _ Hy).
Qed.

Lemma round_in_range (fmt : FixedFormat) (x : Q) (r : string) (n : Z) :
  exact_format fmt -> scalable fmt x ->
  (decoded fmt (lo_int fmt) <= x)%Q -> (x <= decoded fmt (hi_int fmt))%Q ->
  _round_to_int x fmt r = Ok n -> lo_int fmt <= n <= hi_int fmt.
Proof.
  intros Hex Hx Hlo Hhi Hn. pose proof Hex as [Hwf _].
  pose proof (round_to_int_inv fmt x r n Hn) as Hr.
  pose proof (lo_le_hi fmt Hwf) as Hlh.
  assert (Hl : lo_int fmt <= lo_int fmt <= hi_int fmt) by lia.
  assert (Hh : lo_int fmt <= hi_int fmt <= hi_int fmt) by lia.
  pose proof (stored_fits_53 fmt _ Hex Hl) as Hl53.
  pose proof (stored_fits_53 fmt _ Hex Hh) as Hh53.
  split.
  - refine (round_to_int_monotone fmt _ x r _ n Hwf _ Hx Hlo
              (round_of_stored fmt Hex (lo_int fmt) r Hl Hr) Hn).
    apply decoded_scalable; [assumption | lia].
  - refine (round_to_int_monotone fmt x _ r n _ Hwf Hx _ Hhi Hn
              (round_of_stored fmt Hex (hi_int fmt) r Hh Hr)).
    apply decoded_scalable; [assumption | lia].
Qed.

(** * The specified properties *)

(** C1, as stated for every real input, fails: on Fix16_11 the float
    [2^1023] scales to an infinity, and [quantize] raises [OverflowError]
    in place of returning a triple. *)
Lemma quantize_overflow_counterexample :
  float_format fix16_11 /\ double (inject_Z (2 ^ 1023)) /\
  valid_overflow "wrap" /\ valid_rounding "nearest" /\
  quantize (inject_Z (2 ^ 1023)) fix16_11 "wrap" "nearest"
    = Raise InfinityToInteger /\
  class_of InfinityToInteger = OverflowError.
Proof.
  split; [format_ok |].
  split; [vm_compute; reflexivity |].
  split; [left; reflexivity |].
  split; [left; reflexivity |].
  split; [vm_compute; reflexivity | reflexivity].
Qed.

(** C1, amended: on a format of at most 1023 bits, for a finite float [x]
    whose scaled value [x * 2^F] stays in the float range and for valid
    tokens, [quantize] returns the triple made of the rounded and
    overflow-constrained integer, its decoded real value and its hex
    rendering; on Fix16_11 signed, [quantize(16.25, "wrap", "nearest")] is
    [(-32256, -15.75, "0x8200")]. *)
Theorem quantize_triple :
  (forall (fmt : FixedFormat) (x : Q) (o r : string),
      float_format fmt -> scalable fmt x ->
      valid_overflow o -> valid_rounding r ->
      exists n qi (xr : Q) hx,
        _round_to_int x fmt r = Ok n /\
        _apply_overflow n fmt o = Ok qi /\
        int_to_real qi fmt = Ok (Finite xr) /\
        int_to_hex qi fmt = Ok hx /\
        quantize x fmt o r = Ok (qi, Finite xr, hx)) /\
  quantize (65 # 4) fix16_11 "wrap" "nearest"
    = Ok (-32256, Finite (- (63 # 4)), "0x8200").
Proof.
  split.
  - intros fmt x o r Hff Hx Ho Hr.
    destruct (operand_total fmt Hff x o r Hx Ho Hr) as [n [qi [Hn [Hqi _]]]].
    destruct (quantize_steps fmt Hff x o r n qi Hn Hqi) as [xr [hx [Hxr [Hhx Hq]]]].
    now exists n, qi, xr, hx.
  - vm_compute. reflexivity.
Qed.

Lemma quantize_triple_witness :
  exists n qi (xr : Q) hx,
    _round_to_int (3 # 8) ufix16_11 "floor" = Ok n /\
    _apply_overflow n ufix16_11 "saturate" = Ok qi /\
    int_to_real qi ufix16_11 = Ok (Finite xr) /\
    int_to_hex qi ufix16_11 = Ok hx /\
    quantize (3 # 8) ufix16_11 "saturate" "floor" = Ok (qi, Finite xr, hx).
Proof.
  apply (proj1 quantize_triple).
  - format_ok.
  - scalable_ok.
  - right; reflexivity.
  - right; left; reflexivity.
Defined.

(** C3, as stated for every pair of real inputs, fails: on Fix16_11 the
    operand [2^1023] scales to an infinity and [add] raises
    [OverflowError]. *)
Lemma add_overflow_counterexample :
  float_format fix16_11 /\ double (inject_Z (2 ^ 1023)) /\ double 0 /\
  valid_overflow "wrap" /\ valid_rounding "nearest" /\
  add (inject_Z (2 ^ 1023)) 0 fix16_11 "wrap" "nearest"
    = Raise InfinityToInteger /\
  class_of InfinityToInteger = OverflowError.
Proof.
  split; [format_ok |].
  split; [vm_compute; reflexivity |].
  split; [vm_compute; reflexivity |].
  split; [left; reflexivity |].
  split; [left; reflexivity |].
  split; [vm_compute; reflexivity | reflexivity].
Qed.

(** C3, amended: on a format of at most 1023 bits, for finite floats whose
    scaled values stay in the float range, [add] rounds each input,
    constrains each rounded operand on its own, adds the two constrained
    integers, constrains the sum and decodes it. *)
Theorem add_constrains_operands_then_sum :
  forall (fmt : FixedFormat) (a b : Q) (o r : string),
    float_format fmt -> scalable fmt a -> scalable fmt b ->
    valid_overflow o -> valid_rounding r ->
    exists ra rb ai bi si (xr : Q) hx,
      _round_to_int a fmt r = Ok ra /\
      _round_to_int b fmt r = Ok rb /\
      _apply_overflow ra fmt o = Ok ai /\
      _apply_overflow rb fmt o = Ok bi /\
      _apply_overflow (ai + bi) fmt o = Ok si /\
      int_to_real si fmt = Ok (Finite xr) /\
      int_to_hex si fmt = Ok hx /\
      add a b fmt o r = Ok (si, Finite xr, hx).
Proof.
  intros fmt a b o r Hff Ha Hb Ho Hr. pose proof Hff as [Hwf _].
  destruct (operand_total fmt Hff a o r Ha Ho Hr) as [ra [ai [Hra [Hai _]]]].
  destruct (operand_total fmt Hff b o r Hb Ho Hr) as [rb [bi [Hrb [Hbi _]]]].
  destruct (apply_overflow_total fmt Hwf (ai + bi) o Ho) as [si [Hsi _]].
  destruct (add_steps fmt Hff a b o r ra ai rb bi si Hra Hai Hrb Hbi Hsi)
    as [xr [hx [Hxr [Hhx Hadd]]]].
  exists ra, rb, ai, bi, si, xr, hx. repeat split; assumption.
Qed.

Lemma add_constrains_operands_then_sum_witness :
  exists ra rb ai bi si (xr : Q) hx,
    _round_to_int 20 fix16_11 "nearest" = Ok ra /\
    _round_to_int (-10) fix16_11 "nearest" = Ok rb /\
    _apply_overflow ra fix16_11 "saturate" = Ok ai /\
    _apply_overflow rb fix16_11 "saturate" = Ok bi /\
    _apply_overflow (ai + bi) fix16_11 "saturate" = Ok si /\
    int_to_real si fix16_11 = Ok (Finite xr) /\
    int_to_hex si fix16_11 = Ok hx /\
    add 20 (-10) fix16_11 "saturate" "nearest" = Ok (si, Finite xr, hx).
Proof.
  apply add_constrains_operands_then_sum.
  - format_ok.
  - scalable_ok.
  - scalable_ok.
  - right; reflexivity.
  - left; reflexivity.
Defined.

(** The operand-level constraint is visible in the result: 20 saturates to
    the largest stored integer before -10 is added. *)
Example add_saturates_operand_first :
  _round_to_int 20 fix16_11 "nearest" = Ok 40960 /\
  _round_to_int (-10) fix16_11 "nearest" = Ok (-20480) /\
  _apply_overflow (40960 + -20480) fix16_11 "saturate" = Ok 20480 /\
  add 20 (-10) fix16_11 "saturate" "nearest"
    = Ok (12287, Finite (12287 # 2048), "0x2FFF").
Proof. repeat split; vm_compute; reflexivity. Qed.

(** C4: under "wrap" the result is the Euclidean remainder [u] of [qi] by
    [2^W] (the one with [0 <= u < 2^W], also for negative [qi]), less [2^W]
    when the format is signed and [u >= 2^(W-1)]; a signed result lies in
    the two's-complement range. *)
Theorem wrap_is_euclidean_fold :
  forall (fmt : FixedFormat) (qi : Z),
    wf_format fmt ->
    exists u k res,
      0 <= u < 2 ^ W fmt /\
      qi = k * 2 ^ W fmt + u /\
      _apply_overflow qi fmt "wrap" = Ok res /\
      res = (if signed fmt && (2 ^ (W fmt - 1) <=? u)
             then u - 2 ^ W fmt else u) /\
      (signed fmt = true -> - 2 ^ (W fmt - 1) <= res < 2 ^ (W fmt - 1)).
Proof.
  intros fmt qi Hwf.
  assert (Hpos : 0 < 2 ^ W fmt)
    by (apply Z.pow_pos_nonneg; destruct Hwf; lia).
  exists (qi mod 2 ^ W fmt), (qi / 2 ^ W fmt), (wrap_int fmt qi).
  split; [apply Z.mod_pos_bound; exact Hpos |].
  split; [rewrite Z.mul_comm; apply Z.div_mod; lia |].
  split; [now apply apply_overflow_wrap |].
  split; [reflexivity |].
  intros Hs. pose proof (wrap_int_range fmt Hwf qi) as Hr.
  unfold lo_int, hi_int in Hr. rewrite Hs in Hr. lia.
Qed.

Lemma wrap_is_euclidean_fold_witness :
  exists u k res,
    0 <= u < 2 ^ W fix16_11 /\
    -5 = k * 2 ^ W fix16_11 + u /\
    _apply_overflow (-5) fix16_11 "wrap" = Ok res /\
    res = (if signed fix16_11 && (2 ^ (W fix16_11 - 1) <=? u)
           then u - 2 ^ W fix16_11 else u) /\
    (signed fix16_11 = true ->
     - 2 ^ (W fix16_11 - 1) <= res < 2 ^ (W fix16_11 - 1)).
Proof.
  apply (wrap_is_euclidean_fold fix16_11 (-5)).
  unfold wf_format; cbn; lia.
Defined.

(** Negative inputs wrap through a non-negative remainder. *)
Example wrap_negative_unsigned :
  _apply_overflow (-1) ufix16_11 "wrap" = Ok 65535 /\
  _apply_overflow (-1) fix16_11 "wrap" = Ok (-1) /\
  _apply_overflow (-32769) fix16_11 "wrap" = Ok 32767.
Proof. repeat split; reflexivity. Qed.

(** C10: whenever [quantize], [add] or [mul] returns a triple on a
    well-formed format, for any float inputs and any tokens, its stored
    integer lies in [[min_int, max_int]]; and they do return one on a
    format of at most 1023 bits, for valid tokens and finite floats whose
    scaled values stay in the float range ([mul] when the format has a
    fractional bit). *)
Theorem stored_integer_in_range :
  forall (fmt : FixedFormat) (a b : float) (o r : string),
    wf_format fmt ->
    exists lo hi,
      min_int fmt = Ok lo /\ max_int fmt = Ok hi /\
      lo = (if signed fmt then - 2 ^ (W fmt - 1) else 0) /\
      hi = (if signed fmt then 2 ^ (W fmt - 1) - 1 else 2 ^ W fmt - 1) /\
      (forall qi xr hx,
          quantize a fmt o r = Ok (qi, xr, hx) \/
          add a b fmt o r = Ok (qi, xr, hx) \/
          mul a b fmt o r = Ok (qi, xr, hx) ->
          lo <= qi <= hi) /\
      (forall x y : Q,
          a = Finite x -> b = Finite y ->
          W fmt <= 1023 -> scalable fmt x -> scalable fmt y ->
          valid_overflow o -> valid_rounding r ->
          (exists qi xr hx, quantize a fmt o r = Ok (qi, xr, hx)) /\
          (exists qi xr hx, add a b fmt o r = Ok (qi, xr, hx)) /\
          (1 <= F fmt -> exists qi xr hx, mul a b fmt o r = Ok (qi, xr, hx))).
Proof.
  intros fmt a b o r Hwf.
  exists (lo_int fmt), (hi_int fmt).
  split; [now apply min_int_eq |]. split; [now apply max_int_eq |].
  split; [reflexivity |]. split; [reflexivity |].
  split.
  - intros qi xr hx [Hq | [Ha | Hm]].
    + destruct (quantize_inv _ _ _ _ _ _ _ Hq) as [n [_ [Hqi _]]].
      exact (proj2 (apply_overflow_inv fmt n qi o Hwf Hqi)).
    + destruct (add_inv _ _ _ _ _ _ _ _ Ha)
        as [ra [ai [rb [bi [_ [_ [_ [_ [Hqi _]]]]]]]]].
      exact (proj2 (apply_overflow_inv fmt _ qi o Hwf Hqi)).
    + destruct (mul_inv _ _ _ _ _ _ _ _ Hm)
        as [ra [ai [rb [bi [bias [q [_ [_ [_ [_ [_ [_ [Hqi _]]]]]]]]]]]]].
      exact (proj2 (apply_overflow_inv fmt q qi o Hwf Hqi)).
  - intros x y -> -> HW Hx Hy Ho Hr.
    assert (Hff : float_format fmt) by (split; assumption).
    destruct (operand_total fmt Hff x o r Hx Ho Hr) as [ra [ai [Hra [Hai _]]]].
    destruct (operand_total fmt Hff y o r Hy Ho Hr) as [rb [bi [Hrb [Hbi _]]]].
    split; [| split].
    + destruct (quantize_steps fmt Hff x o r ra ai Hra Hai)
        as [xr [hx [_ [_ Hq]]]].
      now exists ai, (Finite xr), hx.
    + destruct (apply_overflow_total fmt Hwf (ai + bi) o Ho) as [si [Hsi _]].
      destruct (add_steps fmt Hff x y o r ra ai rb bi si Hra Hai Hrb Hbi Hsi)
        as [xr [hx [_ [_ Hadd]]]].
      now exists si, (Finite xr), hx.
    + intros HF.
      destruct (apply_overflow_total fmt Hwf
                  (biased (ai * bi) (2 ^ (F fmt - 1)) / 2 ^ F fmt) o Ho)
        as [qi [Hqi _]].
      destruct (mul_steps fmt Hff x y o r ra ai rb bi qi HF Hra Hai Hrb Hbi Hqi)
        as [xr [hx [_ [_ Hm]]]].
      now exists qi, (Finite xr), hx.
Qed.

Lemma stored_integer_in_range_witness :
  exists lo hi,
    min_int fix16_11 = Ok lo /\ max_int fix16_11 = Ok hi /\
    lo = -32768 /\ hi = 32767 /\
    (exists qi xr hx,
        quantize 100 fix16_11 "wrap" "ceil" = Ok (qi, xr, hx) /\
        lo <= qi <= hi) /\
    (exists qi xr hx,
        add 100 (-7 # 4) fix16_11 "wrap" "ceil" = Ok (qi, xr, hx) /\
        lo <= qi <= hi) /\
    (exists qi xr hx,
        mul 100 (-7 # 4) fix16_11 "wrap" "ceil" = Ok (qi, xr, hx) /\
        lo <= qi <= hi).
Proof.
  assert (Hwf : wf_format fix16_11) by format_ok.
  destruct (stored_integer_in_range fix16_11 100 (-7 # 4) "wrap" "ceil" Hwf)
    as [lo [hi [Hlo [Hhi [Hl [Hh [Hinv Hret]]]]]]].
  assert (Hsx : scalable fix16_11 100) by scalable_ok.
  assert (Hsy : scalable fix16_11 (-7 # 4)) by scalable_ok.
  destruct (Hret 100%Q (-7 # 4)%Q eq_refl eq_refl ltac:(cbn; lia) Hsx Hsy
              (or_introl eq_refl) (or_intror (or_intror eq_refl)))
    as [[q1 [x1 [h1 H1]]] [[q2 [x2 [h2 H2]]] H3]].
  destruct (H3 ltac:(cbn; lia)) as [q3 [x3 [h3 H3']]].
  exists lo, hi.
  split; [exact Hlo |]. split; [exact Hhi |].
  split; [exact Hl |]. split; [exact Hh |].
  split; [exists q1, x1, h1; split; [exact H1 | apply (Hinv q1 x1 h1); now left] |].
  split; [exists q2, x2, h2; split;
          [exact H2 | apply (Hinv q2 x2 h2); right; now left] |].
  exists q3, x3, h3; split; [exact H3' | apply (Hinv q3 x3 h3); right; now right].
Defined.

(** * Multiplication *)

(** On a format with at least one fractional bit, [mul] constrains each
    rounded operand, multiplies the stored integers exactly, moves the
    product away from zero by [2^(F-1)], divides by [2^F] rounding down,
    constrains the quotient and decodes it. *)
Lemma mul_rescales :
  forall (fmt : FixedFormat) (a b : Q) (o r : string),
    float_format fmt -> 1 <= F fmt -> scalable fmt a -> scalable fmt b ->
    valid_overflow o -> valid_rounding r ->
    exists ra rb ai bi qi (xr : Q) hx,
      _round_to_int a fmt r = Ok ra /\
      _round_to_int b fmt r = Ok rb /\
      _apply_overflow ra fmt o = Ok ai /\
      _apply_overflow rb fmt o = Ok bi /\
      _apply_overflow
        ((if 0 <=? ai * bi then ai * bi + 2 ^ (F fmt - 1)
          else ai * bi - 2 ^ (F fmt - 1)) / 2 ^ F fmt) fmt o = Ok qi /\
      int_to_real qi fmt = Ok (Finite xr) /\
      int_to_hex qi fmt = Ok hx /\
      mul a b fmt o r = Ok (qi, Finite xr, hx).
Proof.
  intros fmt a b o r Hff HF Ha Hb Ho Hr. pose proof Hff as [Hwf _].
  destruct (operand_total fmt Hff a o r Ha Ho Hr) as [ra [ai [Hra [Hai _]]]].
  destruct (operand_total fmt Hff b o r Hb Ho Hr) as [rb [bi [Hrb [Hbi _]]]].
  destruct (apply_overflow_total fmt Hwf
              (biased (ai * bi) (2 ^ (F fmt - 1)) / 2 ^ F fmt) o Ho)
    as [qi [Hqi _]].
  destruct (mul_steps fmt Hff a b o r ra ai rb bi qi HF Hra Hai Hrb Hbi Hqi)
    as [xr [hx [Hxr [Hhx Hm]]]].
  exists ra, rb, ai, bi, qi, xr, hx. repeat split; assumption.
Qed.

(** The worked product on Fix16_11: 5.5 * 4.0 under "saturate". *)
Example mul_saturates_on_fix16_11 :
  _apply_overflow 11264 fix16_11 "saturate" = Ok 11264 /\
  _apply_overflow 8192 fix16_11 "saturate" = Ok 8192 /\
  11264 * 8192 = 92274688 /\
  rshift (92274688 + 1024) 11 = Ok 45056 /\
  mul (11 # 2) 4 fix16_11 "saturate" "nearest"
    = Ok (32767, Finite (32767 # 2048), "0x7FFF").
Proof. repeat split; vm_compute; reflexivity. Qed.

(** C2: [mul] is specified for every format, but on a well-formed format
    with [F = 0] the bias [1 << (F - 1)] is a shift by [-1]: [mul] raises
    [ValueError] and returns no triple, whatever the finite float operands
    and valid tokens, where [quantize] and [add] return (on a format of at
    most 1023 bits). *)
Theorem mul_raises_when_F_is_zero :
  forall (fmt : FixedFormat) (a b : Q) (o r : string),
    wf_format fmt -> F fmt = 0 -> double a -> double b ->
    valid_overflow o -> valid_rounding r ->
    mul a b fmt o r = Raise NegativeShiftCount /\
    (W fmt <= 1023 ->
     is_ok (quantize a fmt o r) = true /\
     is_ok (add a b fmt o r) = true).
Proof.
  intros fmt a b o r Hwf HF Ha Hb Ho Hr.
  split; [now apply mul_no_fraction |].
  intros HW. assert (Hff : float_format fmt) by (split; assumption).
  assert (Hsc : forall x, double x -> scalable fmt x).
  { intros x Hx. split; [lia |]. split; [exact Hx |].
    rewrite HF. change (inject_Z (2 ^ 0)) with 1%Q. rewrite Qmult_1_r.
    exact (proj1 (double_inv x Hx)). }
  destruct (operand_total fmt Hff a o r (Hsc a Ha) Ho Hr)
    as [ra [ai [Hra [Hai _]]]].
  destruct (operand_total fmt Hff b o r (Hsc b Hb) Ho Hr)
    as [rb [bi [Hrb [Hbi _]]]].
  split.
  - destruct (quantize_steps fmt Hff a o r ra ai Hra Hai) as [xr [hx [_ [_ Hq]]]].
    now rewrite Hq.
  - destruct (apply_overflow_total fmt Hwf (ai + bi) o Ho) as [si [Hsi _]].
    destruct (add_steps fmt Hff a b o r ra ai rb bi si Hra Hai Hrb Hbi Hsi)
      as [xr [hx [_ [_ Hadd]]]].
    now rewrite Hadd.
Qed.

Lemma mul_raises_when_F_is_zero_witness :
  mul 3 5 int8 "saturate" "nearest" = Raise NegativeShiftCount /\
  is_ok (quantize 3 int8 "saturate" "nearest") = true /\
  is_ok (add 3 5 int8 "saturate" "nearest") = true.
Proof.
  destruct (mul_raises_when_F_is_zero int8 3 5 "saturate" "nearest")
    as [Hm Hs].
  - format_ok.
  - reflexivity.
  - vm_compute; reflexivity.
  - vm_compute; reflexivity.
  - right; reflexivity.
  - left; reflexivity.
  - split; [exact Hm | apply Hs; cbn; lia].
Defined.

(** * Failures *)

(** On a format of at most 1023 bits and for a finite float whose scaled
    value stays in the float range, [quantize] fails exactly on a token
    outside its set. *)
Lemma quantize_fails_iff :
  forall (fmt : FixedFormat) (x : Q) (o r : string),
    float_format fmt -> scalable fmt x ->
    is_ok (quantize x fmt o r) = false <->
    ~ valid_rounding r \/ ~ valid_overflow o.
Proof.
  intros fmt x o r Hff Hx. pose proof Hff as [Hwf _].
  destruct (valid_rounding_dec r) as [Hr | Hr].
  - destruct (valid_overflow_dec o) as [Ho | Ho].
    + destruct (operand_total fmt Hff x o r Hx Ho Hr) as [n [qi [Hn [Hqi _]]]].
      destruct (quantize_steps fmt Hff x o r n qi Hn Hqi)
        as [xr [hx [_ [_ Hq]]]].
      rewrite Hq. cbn. split; [discriminate | tauto].
    + destruct (round_to_int_total fmt Hwf x r Hx Hr) as [n Hn].
      unfold quantize. rewrite Hn. cbn [bind].
      rewrite apply_overflow_bad by assumption. cbn. tauto.
  - unfold quantize.
    rewrite round_to_int_bad by (assumption || apply Hx). cbn. tauto.
Qed.

(** So does [add]. *)
Lemma add_fails_iff :
  forall (fmt : FixedFormat) (a b : Q) (o r : string),
    float_format fmt -> scalable fmt a -> scalable fmt b ->
    is_ok (add a b fmt o r) = false <->
    ~ valid_rounding r \/ ~ valid_overflow o.
Proof.
  intros fmt a b o r Hff Ha Hb. pose proof Hff as [Hwf _].
  destruct (valid_rounding_dec r) as [Hr | Hr].
  - destruct (valid_overflow_dec o) as [Ho | Ho].
    + destruct (operand_total fmt Hff a o r Ha Ho Hr) as [ra [ai [Hra [Hai _]]]].
      destruct (operand_total fmt Hff b o r Hb Ho Hr) as [rb [bi [Hrb [Hbi _]]]].
      destruct (apply_overflow_total fmt Hwf (ai + bi) o Ho) as [si [Hsi _]].
      destruct (add_steps fmt Hff a b o r ra ai rb bi si Hra Hai Hrb Hbi Hsi)
        as [xr [hx [_ [_ Hadd]]]].
      rewrite Hadd. cbn. split; [discriminate | tauto].
    + destruct (round_to_int_total fmt Hwf a r Ha Hr) as [n Hn].
      unfold add. rewrite Hn. cbn [bind].
      rewrite apply_overflow_bad by assumption. cbn. tauto.
  - unfold add.
    rewrite round_to_int_bad by (assumption || apply Ha). cbn. tauto.
Qed.

(** So does [mul], as long as the format has a fractional bit. *)
Lemma mul_fails_iff :
  forall (fmt : FixedFormat) (a b : Q) (o r : string),
    float_format fmt -> 1 <= F fmt -> scalable fmt a -> scalable fmt b ->
    is_ok (mul a b fmt o r) = false <->
    ~ valid_rounding r \/ ~ valid_overflow o.
Proof.
  intros fmt a b o r Hff HF Ha Hb. pose proof Hff as [Hwf _].
  destruct (valid_rounding_dec r) as [Hr | Hr].
  - destruct (valid_overflow_dec o) as [Ho | Ho].
    + destruct (mul_rescales fmt a b o r Hff HF Ha Hb Ho Hr)
        as [ra [rb [ai [bi [qi [xr [hx Hall]]]]]]].
      decompose [and] Hall.
      match goal with Hm : mul _ _ _ _ _ = _ |- _ => rewrite Hm end.
      cbn. split; [discriminate | tauto].
    + destruct (round_to_int_total fmt Hwf a r Ha Hr) as [n Hn].
      unfold mul. rewrite Hn. cbn [bind].
      rewrite apply_overflow_bad by assumption. cbn. tauto.
  - unfold mul.
    rewrite round_to_int_bad by (assumption || apply Ha). cbn. tauto.
Qed.

(** C6: no failure is specified besides a token outside its set, but
    [mul] on the well-formed format W=8, F=0 raises with both tokens valid
    (the shift count of the bias is negative), where [quantize] and [add]
    return. *)
Theorem mul_fails_with_valid_tokens :
  wf_format int8 /\ valid_overflow "wrap" /\ valid_rounding "nearest" /\
  mul 1 1 int8 "wrap" "nearest" = Raise NegativeShiftCount /\
  quantize 1 int8 "wrap" "nearest" = Ok (1, Finite (1 # 1), "0x01") /\
  add 1 1 int8 "wrap" "nearest" = Ok (2, Finite (2 # 1), "0x02").
Proof.
  split; [unfold wf_format; cbn; lia |].
  split; [left; reflexivity |].
  split; [left; reflexivity |].
  repeat split; vm_compute; reflexivity.
Qed.

(** C7, as stated for every real input, fails: on Fix16_11 the float
    [2^1023] scales to an infinity, which [round] refuses. *)
Lemma nearest_overflow_counterexample :
  wf_format fix16_11 /\ double (inject_Z (2 ^ 1023)) /\
  _round_to_int (inject_Z (2 ^ 1023)) fix16_11 "nearest"
    = Raise InfinityToInteger /\
  class_of InfinityToInteger = OverflowError.
Proof.
  split; [format_ok |].
  split; [vm_compute; reflexivity |].
  split; [vm_compute; reflexivity | reflexivity].
Qed.

(** C7, amended: for a finite float [x] whose scaled value [x * 2^F] stays
    in the float range, [_round_to_int] under "nearest" returns an integer
    nearest to [x * 2^F] (no integer is closer), and when [x * 2^F] lies
    exactly half-way between two integers it returns the even one. *)
Theorem nearest_rounds_half_to_even :
  forall (fmt : FixedFormat) (x : Q),
    wf_format fmt -> scalable fmt x ->
    exists n,
      _round_to_int x fmt "nearest" = Ok n /\
      (forall m : Z,
          Qabs (inject_Z n - x * inject_Z (2 ^ F fmt))
          <= Qabs (inject_Z m - x * inject_Z (2 ^ F fmt)))%Q /\
      (Qabs (inject_Z n - x * inject_Z (2 ^ F fmt)) <= 1 # 2)%Q /\
      ((Qabs (inject_Z n - x * inject_Z (2 ^ F fmt)) == 1 # 2)%Q ->
       Z.even n = true).
Proof.
  intros fmt x Hwf Hx.
  exists (py_round (x * inject_Z (2 ^ F fmt))).
  split; [now apply round_to_int_nearest |].
  split; [apply half_away_is_nearest, py_round_near |].
  split; [apply py_round_near | apply py_round_tie_even].
Qed.

Lemma nearest_rounds_half_to_even_witness :
  exists n,
    _round_to_int (5 # 4096) fix16_11 "nearest" = Ok n /\
    (forall m : Z,
        Qabs (inject_Z n - (5 # 4096) * inject_Z (2 ^ F fix16_11))
        <= Qabs (inject_Z m - (5 # 4096) * inject_Z (2 ^ F fix16_11)))%Q /\
    (Qabs (inject_Z n - (5 # 4096) * inject_Z (2 ^ F fix16_11)) <= 1 # 2)%Q /\
    ((Qabs (inject_Z n - (5 # 4096) * inject_Z (2 ^ F fix16_11)) == 1 # 2)%Q ->
     Z.even n = true).
Proof.
  apply (nearest_rounds_half_to_even fix16_11 (5 # 4096)).
  - format_ok.
  - scalable_ok.
Defined.

(** Ties on an integer format: towards the even neighbour, on both sides of
    zero, where rounding half away from zero would give 1, 3, -1 and -3. *)
Example nearest_ties :
  _round_to_int (1 # 2) int8 "nearest" = Ok 0 /\
  _round_to_int (3 # 2) int8 "nearest" = Ok 2 /\
  _round_to_int (5 # 2) int8 "nearest" = Ok 2 /\
  _round_to_int (- (1 # 2)) int8 "nearest" = Ok 0 /\
  _round_to_int (- (5 # 2)) int8 "nearest" = Ok (-2) /\
  _round_to_int (5 # 4096) fix16_11 "nearest" = Ok 2.
Proof. repeat split; vm_compute; reflexivity. Qed.

(** * Saturation at the bounds *)

(** Sums and differences of decoded integers are exact while the result
    keeps to 53 bits. *)
Lemma decoded_add (fmt : FixedFormat) (q q' : Z) :
  wf_format fmt -> F fmt <= 1074 -> Z.abs (q + q') <= 2 ^ 53 ->
  float_add (Finite (decoded fmt q)) (Finite (decoded fmt q'))
  = Finite (decoded fmt (q + q')).
Proof.
  intros Hwf HF Hq. pose proof (scale_pos fmt Hwf) as Hs.
  assert (He : (decoded fmt q + decoded fmt q'
                == inject_Z (q + q') / inject_Z (2 ^ F fmt))%Q).
  { rewrite !decoded_eq, inject_Z_plus. field. lra. }
  cbn [float_add]. rewrite (round_double_comp _ _ He).
  assert (Hd : double (inject_Z (q + q') / inject_Z (2 ^ F fmt)))
    by (apply double_decoded_int; destruct Hwf; lia).
  exact Hd.
Qed.

Lemma decoded_sub (fmt : FixedFormat) (q q' : Z) :
  wf_format fmt -> F fmt <= 1074 -> Z.abs (q - q') <= 2 ^ 53 ->
  float_sub (Finite (decoded fmt q)) (Finite (decoded fmt q'))
  = Finite (decoded fmt (q - q')).
Proof.
  intros Hwf HF Hq. pose proof (scale_pos fmt Hwf) as Hs.
  assert (He : (decoded fmt q + Qred (- decoded fmt q')
                == inject_Z (q - q') / inject_Z (2 ^ F fmt))%Q).
  { rewrite Qred_correct, !decoded_eq.
    unfold Z.sub. rewrite inject_Z_plus, inject_Z_opp. field. lra. }
  unfold float_sub. cbn [float_opp float_add].
  rewrite (round_double_comp _ _ He).
  assert (Hd : double (inject_Z (q - q') / inject_Z (2 ^ F fmt)))
    by (apply double_decoded_int; destruct Hwf; lia).
  exact Hd.
Qed.


(** * One resolution step off the bounds *)

Section Boundary.

Variable fmt : FixedFormat.
Hypothesis Hff : float_format fmt.

Let Hwf : wf_format fmt := proj1 Hff.

Lemma int_true_div_double (q : Z) :
  double (inject_Z q / inject_Z (2 ^ F fmt)) ->
  int_true_div q (2 ^ F fmt) = Ok (Finite (decoded fmt q)).
Proof.
  intros Hd. unfold int_true_div. rewrite (scale_nonzero fmt Hwf).
  unfold double in Hd. now rewrite Hd.
Qed.

(** A decoded integer that is a float below [2^1024] scales back to the
    integer, in every rounding mode. *)
Lemma decoded_scalable_gen (q : Z) :
  double (inject_Z q / inject_Z (2 ^ F fmt)) -> Z.abs q < 2 ^ 1024 ->
  scalable fmt (decoded fmt q).
Proof.
  intros Hd Hq. pose proof (scale_pos fmt Hwf) as Hs.
  split; [pose proof Hff as [[_ HF] HW]; lia |]. split.
  - apply (double_comp (inject_Z q / inject_Z (2 ^ F fmt)));
      [symmetry; apply decoded_eq | exact Hd].
  - rewrite decoded_eq. unfold Qdiv.
    rewrite Qabs_Qmult, Qabs_inject_Z.
    rewrite (Qabs_pos (/ inject_Z (2 ^ F fmt)))
      by (apply Qlt_le_weak, Qinv_lt_0_compat, Hs).
    setoid_replace (inject_Z (Z.abs q) * / inject_Z (2 ^ F fmt)
                    * inject_Z (2 ^ F fmt))%Q
      with (inject_Z (Z.abs q)) by (field; lra).
    rewrite (Qpow2_inject 1024) by lia. now rewrite <- Zlt_Qlt.
Qed.

Lemma round_of_decoded_gen (q : Z) (r : string) :
  double (inject_Z q / inject_Z (2 ^ F fmt)) -> Z.abs q < 2 ^ 1024 ->
  valid_rounding r ->
  _round_to_int (decoded fmt q) fmt r = Ok q.
Proof.
  intros Hd Hq Hr.
  pose proof (decoded_scalable_gen q Hd Hq) as Hsc.
  assert (Hy : (decoded fmt q * inject_Z (2 ^ F fmt) == inject_Z q)%Q).
  { rewrite decoded_eq. apply div_mul_cancel. now apply pow_F_pos. }
  destruct Hr as [-> | [-> | ->]].
  - rewrite round_to_int_nearest by assumption. f_equal.
    rewrite (py_round_comp _ _ Hy). apply py_round_inject.
  - rewrite round_to_int_floor by assumption. f_equal.
    rewrite (Qfloor_comp _ _ Hy). apply Qfloor_Z.
  - rewrite round_to_int_ceil by assumption. f_equal.
    rewrite (Qceiling_comp _ _ Hy). apply Qceiling_Z.
Qed.

Lemma double_pow2_over_scale (k : Z) (s : bool) :
  0 <= k <= 1023 ->
  double (inject_Z (if s then - 2 ^ k else 2 ^ k) / inject_Z (2 ^ F fmt)).
Proof.
  intros Hk. pose proof Hff as [[_ HF] HW].
  pose proof (Qpow2_pos (k - F fmt)) as Hp.
  assert (He : (inject_Z (2 ^ k) / inject_Z (2 ^ F fmt) == Qpow2 (k - F fmt))%Q)
    by (rewrite Qpow2_sub, !Qpow2_inject by lia; reflexivity).
  assert (Hneg : (inject_Z (- 2 ^ k) / inject_Z (2 ^ F fmt)
                  == - Qpow2 (k - F fmt))%Q).
  { rewrite <- He, inject_Z_opp. field.
    pose proof (scale_pos fmt Hwf). lra. }
  destruct s.
  - apply (double_intro _ (-1) (k - F fmt)).
    + rewrite Hneg. change (inject_Z (-1)) with (- (1))%Q. ring.
    + cbn; lia.
    + lia.
    + rewrite Hneg, Qabs_opp, Qabs_pos by lra. apply Qpow2_lt. lia.
  - apply (double_intro _ 1 (k - F fmt)).
    + rewrite He. change (inject_Z 1) with 1%Q. ring.
    + cbn; lia.
    + lia.
    + rewrite He, Qabs_pos by lra. apply Qpow2_lt. lia.
Qed.

(** [max_int + 1] is a power of two. *)
Lemma hi_int_pow2 :
  exists k, 0 <= k <= 1023 /\ F fmt <= k /\ hi_int fmt + 1 = 2 ^ k.
Proof.
  pose proof Hff as [[HW1 HF] HW]. unfold hi_int. destruct (signed fmt).
  - exists (W fmt - 1). repeat split; lia.
  - exists (W fmt). repeat split; lia.
Qed.

(** One resolution step above [max_real] is the float of
    [(max_int + 1) / 2^F]: exactly up to 53 bits, and by rounding twice
    above. *)
Lemma step_above_max_real :
  exists top : Q,
    max_real fmt = Ok (Finite top) /\
    resolution fmt = Ok (Finite (decoded fmt 1)) /\
    float_add (Finite top) (Finite (decoded fmt 1))
    = Finite (decoded fmt (hi_int fmt + 1)) /\
    double (inject_Z (hi_int fmt + 1) / inject_Z (2 ^ F fmt)) /\
    Z.abs (hi_int fmt + 1) < 2 ^ 1024.
Proof.
  destruct hi_int_pow2 as [k [Hk [HFk Hhi]]].
  assert (HF0 : 0 <= F fmt) by (destruct Hwf; lia).
  assert (Hres : resolution fmt = Ok (Finite (decoded fmt 1)))
    by (apply resolution_eq; (assumption || lia)).
  assert (Hlt : Z.abs (hi_int fmt + 1) < 2 ^ 1024).
  { rewrite Hhi, Z.abs_eq by (apply Z.pow_nonneg; lia).
    apply Z.pow_lt_mono_r; lia. }
  assert (Hd : double (inject_Z (hi_int fmt + 1) / inject_Z (2 ^ F fmt)))
    by (rewrite Hhi; apply (double_pow2_over_scale k false Hk)).
  assert (Hpk : 0 < 2 ^ k) by (apply Z.pow_pos_nonneg; lia).
  unfold max_real. rewrite max_int_eq, scale_eq by assumption. cbn [bind].
  destruct (Z_le_gt_dec k 53) as [Hsmall | Hbig].
  - assert (H53 : 2 ^ k <= 2 ^ 53) by (apply Z.pow_le_mono_r; lia).
    exists (decoded fmt (hi_int fmt)).
    split; [apply int_true_div_small; (assumption || lia) |].
    split; [exact Hres |].
    split; [apply decoded_add; (assumption || lia) |].
    split; assumption.
  - exists (decoded fmt (2 ^ k)).
    split.
    { replace (hi_int fmt) with (2 ^ k - 1) by lia.
      unfold int_true_div. rewrite (scale_nonzero fmt Hwf).
      rewrite round_double_below_pow2 by lia. reflexivity. }
    split; [exact Hres |].
    split; [| split; assumption].
    rewrite Hhi. cbn [float_add].
    assert (He : (decoded fmt (2 ^ k) + decoded fmt 1
                  == inject_Z (2 ^ k + 1) / inject_Z (2 ^ F fmt))%Q).
    { rewrite !decoded_eq, inject_Z_plus. field.
      pose proof (scale_pos fmt Hwf). lra. }
    rewrite (round_double_comp _ _ He).
    exact (round_double_above_pow2 k (F fmt) false ltac:(lia) ltac:(lia)).
Qed.

(** One resolution step below [min_real] is the float of
    [(min_int - 1) / 2^F] up to 53 bits, and [min_real] itself above. *)
Lemma step_below_min_real :
  exists q : Z,
    min_real fmt = Ok (Finite (decoded fmt (lo_int fmt))) /\
    float_sub (Finite (decoded fmt (lo_int fmt))) (Finite (decoded fmt 1))
    = Finite (decoded fmt q) /\
    lo_int fmt - 1 <= q <= lo_int fmt /\
    double (inject_Z q / inject_Z (2 ^ F fmt)) /\
    Z.abs q < 2 ^ 1024.
Proof.
  assert (HF0 : 0 <= F fmt <= 1074) by (pose proof Hff as [[_ HF] HW]; lia).
  unfold min_real. rewrite min_int_eq, scale_eq by assumption. cbn [bind].
  unfold lo_int. destruct (signed fmt) eqn:Hs.
  - set (k := W fmt - 1).
    assert (Hk : 0 <= k <= 1022) by (pose proof Hff as [[HW1 HF] HW]; lia).
    assert (HFk : F fmt <= k) by (pose proof Hff as [[HW1 HF] HW]; lia).
    assert (Hpk : 0 < 2 ^ k) by (apply Z.pow_pos_nonneg; lia).
    assert (Hmin : int_true_div (- 2 ^ k) (2 ^ F fmt)
                   = Ok (Finite (decoded fmt (- 2 ^ k))))
      by (apply int_true_div_double;
          apply (double_pow2_over_scale k true); lia).
    destruct (Z_le_gt_dec k 52) as [Hsmall | Hbig].
    + assert (H52 : 2 ^ k <= 2 ^ 52) by (apply Z.pow_le_mono_r; lia).
      exists (- 2 ^ k - 1).
      split; [exact Hmin |].
      split; [apply decoded_sub; (assumption || lia) |].
      split; [lia |].
      split; [apply double_decoded_int; lia | lia].
    + exists (- 2 ^ k).
      split; [exact Hmin |].
      split.
      { unfold float_sub. cbn [float_opp float_add].
        assert (He : (decoded fmt (- 2 ^ k) + Qred (- decoded fmt 1)
                      == inject_Z (- (2 ^ k + 1)) / inject_Z (2 ^ F fmt))%Q).
        { rewrite Qred_correct, !decoded_eq, !inject_Z_opp, inject_Z_plus.
          field. pose proof (scale_pos fmt Hwf). lra. }
        rewrite (round_double_comp _ _ He).
        exact (round_double_above_pow2 k (F fmt) true ltac:(lia) ltac:(lia)). }
      split; [lia |].
      split; [apply (double_pow2_over_scale k true); lia |].
      rewrite Z.abs_opp, Z.abs_eq by lia. apply Z.pow_lt_mono_r; lia.
  - exists (-1).
    split; [apply int_true_div_small; (assumption || (cbn; lia)) |].
    split; [apply (decoded_sub fmt 0 1); (assumption || (cbn; lia)) |].
    split; [lia |].
    split; [apply double_decoded_int; (cbn; lia) | cbn; lia].
Qed.

End Boundary.
(** C5, as stated for every format, fails: with 1024 fractional bits the
    scale [2^1024] is no float, so [resolution] raises [OverflowError] and
    so does [quantize], on every input. *)
Lemma saturate_boundary_counterexample :
  wf_format (mkFixedFormat 1100 1024 true) /\
  resolution (mkFixedFormat 1100 1024 true) = Raise IntTooLargeForFloat /\
  (forall x : float,
      quantize x (mkFixedFormat 1100 1024 true) "saturate" "nearest"
      = Raise IntTooLargeForFloat) /\
  class_of IntTooLargeForFloat = OverflowError.
Proof.
  assert (Hwf : wf_format (mkFixedFormat 1100 1024 true)) by format_ok.
  split; [exact Hwf |].
  split; [vm_compute; reflexivity |].
  split; [| reflexivity].
  intros x. unfold quantize.
  rewrite round_to_int_large_scale by (assumption || (cbn; lia)).
  reflexivity.
Qed.

(** C5, amended: on every well-formed format, [_apply_overflow] under
    "saturate" is [qi] clamped into [[min_int, max_int]]; and on a format
    of at most 1023 bits, quantising the float one resolution step above
    [max_real] stores [max_int], and one step below [min_real] stores
    [min_int]. *)
Theorem saturate_clamps :
  forall (fmt : FixedFormat) (qi : Z),
    wf_format fmt ->
    exists lo hi c,
      min_int fmt = Ok lo /\ max_int fmt = Ok hi /\
      _apply_overflow qi fmt "saturate" = Ok c /\
      lo <= c <= hi /\
      (lo <= qi <= hi -> c = qi) /\
      (qi < lo -> c = lo) /\
      (hi < qi -> c = hi) /\
      (W fmt <= 1023 ->
       exists top bottom res,
         max_real fmt = Ok top /\ min_real fmt = Ok bottom /\
         resolution fmt = Ok res /\
         (exists xr hx,
             quantize (float_add top res) fmt "saturate" "nearest"
             = Ok (hi, xr, hx)) /\
         (exists xr hx,
             quantize (float_sub bottom res) fmt "saturate" "nearest"
             = Ok (lo, xr, hx))).
Proof.
  intros fmt qi Hwf.
  pose proof (lo_le_hi fmt Hwf) as Hle.
  exists (lo_int fmt), (hi_int fmt), (clamp_int fmt qi).
  split; [now apply min_int_eq |]. split; [now apply max_int_eq |].
  split; [now apply apply_overflow_saturate |].
  split; [now apply clamp_int_range |].
  split; [unfold clamp_int; lia |].
  split; [unfold clamp_int; lia |].
  split; [unfold clamp_int; lia |].
  intros HW. assert (Hff : float_format fmt) by (split; assumption).
  destruct (step_above_max_real fmt Hff) as [top [Htop [Hres [Habove [Hda Hla]]]]].
  destruct (step_below_min_real fmt Hff)
    as [q [Hbottom [Hbelow [Hq [Hdq Hlq]]]]].
  exists (Finite top), (Finite (decoded fmt (lo_int fmt))).
  exists (Finite (decoded fmt 1)).
  split; [exact Htop |]. split; [exact Hbottom |]. split; [exact Hres |].
  split.
  - rewrite Habove.
    pose proof (round_of_decoded_gen fmt Hff (hi_int fmt + 1) "nearest"
                  Hda Hla (or_introl eq_refl)) as Hn.
    pose proof (apply_overflow_saturate fmt Hwf (hi_int fmt + 1)) as Hc.
    replace (clamp_int fmt (hi_int fmt + 1)) with (hi_int fmt) in Hc
      by (unfold clamp_int; lia).
    destruct (quantize_steps fmt Hff _ _ _ _ _ Hn Hc) as [xr [hx [_ [_ Hqz]]]].
    now exists (Finite xr), hx.
  - rewrite Hbelow.
    pose proof (round_of_decoded_gen fmt Hff q "nearest"
                  Hdq Hlq (or_introl eq_refl)) as Hn.
    pose proof (apply_overflow_saturate fmt Hwf q) as Hc.
    replace (clamp_int fmt q) with (lo_int fmt) in Hc
      by (unfold clamp_int; lia).
    destruct (quantize_steps fmt Hff _ _ _ _ _ Hn Hc) as [xr [hx [_ [_ Hqz]]]].
    now exists (Finite xr), hx.
Qed.

Lemma saturate_clamps_witness :
  exists lo hi c,
    min_int fix16_11 = Ok lo /\ max_int fix16_11 = Ok hi /\
    _apply_overflow 45056 fix16_11 "saturate" = Ok c /\
    lo <= c <= hi /\
    (lo <= 45056 <= hi -> c = 45056) /\
    (45056 < lo -> c = lo) /\
    (hi < 45056 -> c = hi) /\
    exists top bottom res,
      max_real fix16_11 = Ok top /\ min_real fix16_11 = Ok bottom /\
      resolution fix16_11 = Ok res /\
      (exists xr hx,
          quantize (float_add top res) fix16_11 "saturate" "nearest"
          = Ok (hi, xr, hx)) /\
      (exists xr hx,
          quantize (float_sub bottom res) fix16_11 "saturate" "nearest"
          = Ok (lo, xr, hx)).
Proof.
  destruct (saturate_clamps fix16_11 45056)
    as [lo [hi [c [H1 [H2 [H3 [H4 [H5 [H6 [H7 H8]]]]]]]]]].
  - format_ok.
  - exists lo, hi, c. repeat (split; [assumption |]).
    apply H8. cbn; lia.
Defined.

(** The saturation boundary of Fix16_11, evaluated. *)
Example saturate_boundary_fix16_11 :
  max_real fix16_11 = Ok (Finite (32767 # 2048)) /\
  min_real fix16_11 = Ok (Finite (- (16 # 1))) /\
  resolution fix16_11 = Ok (Finite (1 # 2048)) /\
  quantize (float_add (Finite (32767 # 2048)) (Finite (1 # 2048)))
           fix16_11 "saturate" "nearest"
    = Ok (32767, Finite (32767 # 2048), "0x7FFF") /\
  quantize (float_sub (Finite (- (16 # 1))) (Finite (1 # 2048)))
           fix16_11 "saturate" "nearest"
    = Ok (-32768, Finite (- (16 # 1)), "0x8000").
Proof. repeat split; vm_compute; reflexivity. Qed.

(** Above 53 bits the bounds are rounded, and the boundary still holds:
    on the signed 64-bit integer format [max_real] is [2^63], one above
    [max_int], the step is absorbed, and the result saturates. *)
Example saturate_boundary_fix64_0 :
  max_real fix64_0 = Ok (Finite (inject_Z (2 ^ 63))) /\
  float_add (Finite (inject_Z (2 ^ 63))) (Finite 1)
    = Finite (inject_Z (2 ^ 63)) /\
  quantize (Finite (inject_Z (2 ^ 63))) fix64_0 "saturate" "nearest"
    = Ok (2 ^ 63 - 1, Finite (inject_Z (2 ^ 63)), "0x7FFFFFFFFFFFFFFF").
Proof. repeat split; vm_compute; reflexivity. Qed.

(** The bound on the width is needed: on the unsigned 1024-bit integer
    format [max_int / scale] is beyond the float range, and [max_real]
    itself raises [OverflowError]. *)
Example max_real_overflows_at_1024_bits :
  wf_format (mkFixedFormat 1024 0 false) /\
  max_real (mkFixedFormat 1024 0 false) = Raise QuotientTooLarge /\
  class_of QuotientTooLarge = OverflowError.
Proof.
  split; [format_ok |]. split; [vm_compute; reflexivity | reflexivity].
Qed.

(** * Round trips *)

(** C8, as stated, fails on a signed format: the pattern 40000 of Fix16_11
    decodes to a negative value, which quantises to -25536. *)
Lemma wrap_roundtrip_signed_counterexample :
  wf_format fix16_11 /\ 0 <= 40000 < 2 ^ W fix16_11 /\
  int_to_real 40000 fix16_11 = Ok (Finite (- (399 # 32))) /\
  quantize (Finite (- (399 # 32))) fix16_11 "wrap" "nearest"
    = Ok (-25536, Finite (- (399 # 32)), "0x9C40") /\
  ~ (exists xr xr' hx,
        int_to_real 40000 fix16_11 = Ok xr /\
        quantize xr fix16_11 "wrap" "nearest" = Ok (40000, xr', hx)).
Proof.
  assert (Hreal : int_to_real 40000 fix16_11 = Ok (Finite (- (399 # 32))))
    by (vm_compute; reflexivity).
  assert (Hq : quantize (Finite (- (399 # 32))) fix16_11 "wrap" "nearest"
               = Ok (-25536, Finite (- (399 # 32)), "0x9C40"))
    by (vm_compute; reflexivity).
  split; [format_ok |].
  split; [cbn; lia |].
  split; [exact Hreal |].
  split; [exact Hq |].
  intros [xr [xr' [hx [Hreal' Hq']]]].
  rewrite Hreal in Hreal'. injection Hreal' as <-.
  rewrite Hq in Hq'. discriminate Hq'.
Qed.

(** Above 53 bits the decoded value is rounded, and the round trip loses
    the low bits even on an unsigned format. *)
Example wrap_roundtrip_loses_low_bits :
  wf_format ufix64_0 /\ 0 <= 2 ^ 53 + 1 < 2 ^ W ufix64_0 /\
  int_to_real (2 ^ 53 + 1) ufix64_0 = Ok (Finite (inject_Z (2 ^ 53))) /\
  quantize (Finite (inject_Z (2 ^ 53))) ufix64_0 "wrap" "nearest"
    = Ok (2 ^ 53, Finite (inject_Z (2 ^ 53)), "0x0020000000000000").
Proof.
  split; [format_ok |].
  split; [cbn; lia |].
  split; vm_compute; reflexivity.
Qed.

(** C8, amended: on a format of at most 53 bits and for [0 <= qi < 2^W],
    decoding [qi] and quantising the result with "wrap" and "nearest"
    stores the two's-complement fold of [qi]: [qi] itself on an unsigned
    format or when [qi < 2^(W-1)], and [qi - 2^W] on a signed format when
    [qi >= 2^(W-1)]; the hex rendering is that of [qi] in both cases. *)
Theorem wrap_roundtrip_folds :
  forall (fmt : FixedFormat) (qi : Z),
    wf_format fmt -> W fmt <= 53 -> 0 <= qi < 2 ^ W fmt ->
    exists xr q xr' hx,
      int_to_real qi fmt = Ok xr /\
      quantize xr fmt "wrap" "nearest" = Ok (q, xr', hx) /\
      q = (if signed fmt && (2 ^ (W fmt - 1) <=? qi)
           then qi - 2 ^ W fmt else qi) /\
      (signed fmt = false \/ qi < 2 ^ (W fmt - 1) -> q = qi) /\
      xr' = xr /\
      int_to_hex qi fmt = Ok hx.
Proof.
  intros fmt qi Hwf HW Hqi.
  assert (Hex : exact_format fmt) by (split; assumption).
  pose proof (exact_is_float fmt Hex) as Hff.
  assert (Hw : wrap_int fmt qi = fold_signed fmt qi)
    by (unfold wrap_int; now rewrite Z.mod_small).
  pose proof (wrap_int_range fmt Hwf qi) as Hrange. rewrite Hw in Hrange.
  pose proof (int_to_real_eq fmt qi Hex) as Hreal. rewrite Hw in Hreal.
  assert (H53 : Z.abs (fold_signed fmt qi) < 2 ^ 53)
    by (apply (stored_fits_53 fmt); assumption).
  assert (Hn : _round_to_int (decoded fmt (fold_signed fmt qi)) fmt "nearest"
               = Ok (fold_signed fmt qi))
    by (apply round_of_decoded_any; [assumption | lia | now left]).
  pose proof (apply_overflow_wrap fmt Hwf (fold_signed fmt qi)) as Hc.
  rewrite (wrap_int_id fmt Hwf _ Hrange) in Hc.
  destruct (quantize_steps fmt Hff _ _ _ _ _ Hn Hc) as [xr' [hx [Hxr [Hhx Hq]]]].
  rewrite (int_to_real_in_range fmt Hex _ Hrange) in Hxr.
  injection Hxr as Hxr.
  exists (Finite (decoded fmt (fold_signed fmt qi))).
  exists (fold_signed fmt qi), (Finite xr'), hx.
  split; [exact Hreal |]. split; [exact Hq |]. split; [reflexivity |].
  split; [| split].
  - unfold fold_signed. intros [-> | Hsmall]; [reflexivity |].
    destruct (Z.leb_spec (2 ^ (W fmt - 1)) qi); [lia |].
    now rewrite andb_false_r.
  - now rewrite Hxr.
  - rewrite int_to_hex_eq in * by assumption. rewrite <- Hhx.
    do 3 f_equal. unfold fold_signed.
    destruct (signed fmt && (2 ^ (W fmt - 1) <=? qi)); [| reflexivity].
    replace (qi - 2 ^ W fmt) with (qi + (-1) * 2 ^ W fmt) by lia.
    now rewrite Z.mod_add by lia.
Qed.

Lemma wrap_roundtrip_folds_witness :
  exists xr q xr' hx,
    int_to_real 40000 fix16_11 = Ok xr /\
    quantize xr fix16_11 "wrap" "nearest" = Ok (q, xr', hx) /\
    q = (if signed fix16_11 && (2 ^ (W fix16_11 - 1) <=? 40000)
         then 40000 - 2 ^ W fix16_11 else 40000) /\
    (signed fix16_11 = false \/ 40000 < 2 ^ (W fix16_11 - 1) -> q = 40000) /\
    xr' = xr /\
    int_to_hex 40000 fix16_11 = Ok hx.
Proof.
  apply (wrap_roundtrip_folds fix16_11 40000).
  - format_ok.
  - cbn; lia.
  - cbn; lia.
Defined.

(** * The rounding error *)




(** * Further properties of the code *)

(** ** The three rounding modes *)

Lemma scalable_opp (fmt : FixedFormat) (x : Q) :
  scalable fmt x -> scalable fmt (- x).
Proof.
  intros [HF [Hd Hlt]]. split; [exact HF |]. split.
  - now apply double_opp.
  - now rewrite Qabs_opp.
Qed.

(** X1: for a finite float whose scaled value stays in the float range, the
    three rounding modes bracket each other: "floor" gives the largest
    integer not above [x * 2^F], "ceil" the smallest one not below it,
    "nearest" lies between the two, and the two are at most one apart. *)
Theorem rounding_modes_bracket :
  forall (fmt : FixedFormat) (x : Q),
    wf_format fmt -> scalable fmt x ->
    exists nf nn nc,
      _round_to_int x fmt "floor" = Ok nf /\
      _round_to_int x fmt "nearest" = Ok nn /\
      _round_to_int x fmt "ceil" = Ok nc /\
      (inject_Z nf <= x * inject_Z (2 ^ F fmt) < inject_Z nf + 1)%Q /\
      (inject_Z nc - 1 < x * inject_Z (2 ^ F fmt) <= inject_Z nc)%Q /\
      nf <= nn <= nc /\ nc <= nf + 1.
Proof.
  intros fmt x Hwf Hx.
  set (y := (x * inject_Z (2 ^ F fmt))%Q).
  exists (Qfloor y), (py_round y), (Qceiling y).
  split; [now apply round_to_int_floor |].
  split; [now apply round_to_int_nearest |].
  split; [now apply round_to_int_ceil |].
  split; [apply floor_bounds |].
  split; [split; apply ceiling_bounds |].
  apply py_round_bracket.
Qed.

Lemma rounding_modes_bracket_witness :
  exists nf nn nc,
    _round_to_int (-7 # 4096) fix16_11 "floor" = Ok nf /\
    _round_to_int (-7 # 4096) fix16_11 "nearest" = Ok nn /\
    _round_to_int (-7 # 4096) fix16_11 "ceil" = Ok nc /\
    (inject_Z nf <= (-7 # 4096) * inject_Z (2 ^ F fix16_11) < inject_Z nf + 1)%Q /\
    (inject_Z nc - 1 < (-7 # 4096) * inject_Z (2 ^ F fix16_11) <= inject_Z nc)%Q /\
    nf <= nn <= nc /\ nc <= nf + 1.
Proof.
  apply (rounding_modes_bracket fix16_11 (-7 # 4096)).
  - format_ok.
  - scalable_ok.
Defined.

(** X2: for a finite float whose scaled value stays in the float range,
    negating the input negates the result of "nearest", and swaps "floor"
    with "ceil". *)
Theorem rounding_of_negation :
  forall (fmt : FixedFormat) (x : Q),
    wf_format fmt -> scalable fmt x ->
    exists nf nn nc,
      _round_to_int x fmt "floor" = Ok nf /\
      _round_to_int x fmt "nearest" = Ok nn /\
      _round_to_int x fmt "ceil" = Ok nc /\
      _round_to_int (- x) fmt "floor" = Ok (- nc) /\
      _round_to_int (- x) fmt "nearest" = Ok (- nn) /\
      _round_to_int (- x) fmt "ceil" = Ok (- nf).
Proof.
  intros fmt x Hwf Hx.
  pose proof (scalable_opp fmt x Hx) as Hx'.
  set (s := inject_Z (2 ^ F fmt)).
  exists (Qfloor (x * s)), (py_round (x * s)), (Qceiling (x * s)).
  split; [now apply round_to_int_floor |].
  split; [now apply round_to_int_nearest |].
  split; [now apply round_to_int_ceil |].
  pose proof (mul_opp_scale x s) as Hopp.
  split; [| split].
  - rewrite round_to_int_floor by assumption. f_equal. fold s.
    rewrite (Qfloor_comp _ _ Hopp). apply floor_opp.
  - rewrite round_to_int_nearest by assumption. f_equal. fold s.
    rewrite (py_round_comp _ _ Hopp). apply py_round_opp.
  - rewrite round_to_int_ceil by assumption. f_equal. fold s.
    rewrite (Qceiling_comp _ _ Hopp). apply ceiling_opp.
Qed.

Lemma rounding_of_negation_witness :
  exists nf nn nc,
    _round_to_int (5 # 4096) fix16_11 "floor" = Ok nf /\
    _round_to_int (5 # 4096) fix16_11 "nearest" = Ok nn /\
    _round_to_int (5 # 4096) fix16_11 "ceil" = Ok nc /\
    _round_to_int (- (5 # 4096)) fix16_11 "floor" = Ok (- nc) /\
    _round_to_int (- (5 # 4096)) fix16_11 "nearest" = Ok (- nn) /\
    _round_to_int (- (5 # 4096)) fix16_11 "ceil" = Ok (- nf).
Proof.
  apply (rounding_of_negation fix16_11 (5 # 4096)).
  - format_ok.
  - scalable_ok.
Defined.

(** ** Overflow policies *)

(** X3: both policies leave exactly the integers of [[min_int, max_int]]
    unchanged, and constraining a second time changes nothing. *)
Theorem apply_overflow_idempotent :
  forall (fmt : FixedFormat) (qi : Z) (o : string),
    wf_format fmt -> valid_overflow o ->
    exists lo hi q,
      min_int fmt = Ok lo /\ max_int fmt = Ok hi /\
      _apply_overflow qi fmt o = Ok q /\
      _apply_overflow q fmt o = Ok q /\
      (q = qi <-> lo <= qi <= hi).
Proof.
  intros fmt qi o Hwf Ho.
  destruct (apply_overflow_total fmt Hwf qi o Ho) as [q [Hq Hrange]].
  exists (lo_int fmt), (hi_int fmt), q.
  split; [now apply min_int_eq |]. split; [now apply max_int_eq |].
  split; [exact Hq |].
  split; [now apply apply_overflow_id |].
  split.
  - now intros <-.
  - intros Hin. rewrite apply_overflow_id in Hq by assumption.
    now injection Hq.
Qed.

Lemma apply_overflow_idempotent_witness :
  exists lo hi q,
    min_int fix16_11 = Ok lo /\ max_int fix16_11 = Ok hi /\
    _apply_overflow 45056 fix16_11 "wrap" = Ok q /\
    _apply_overflow q fix16_11 "wrap" = Ok q /\
    (q = 45056 <-> lo <= 45056 <= hi).
Proof.
  apply (apply_overflow_idempotent fix16_11 45056 "wrap").
  - unfold wf_format; cbn; lia.
  - left; reflexivity.
Defined.

(** X4: "wrap" sends two integers to the same stored integer exactly when
    they agree modulo [2^W], and the stored integer is itself congruent to
    the input. *)
Theorem wrap_identifies_congruent :
  forall (fmt : FixedFormat) (qi qi' : Z),
    wf_format fmt ->
    exists q q',
      _apply_overflow qi fmt "wrap" = Ok q /\
      _apply_overflow qi' fmt "wrap" = Ok q' /\
      q mod 2 ^ W fmt = qi mod 2 ^ W fmt /\
      (q = q' <-> (qi - qi') mod 2 ^ W fmt = 0).
Proof.
  intros fmt qi qi' Hwf.
  exists (wrap_int fmt qi), (wrap_int fmt qi').
  split; [now apply apply_overflow_wrap |].
  split; [now apply apply_overflow_wrap |].
  split; [now apply wrap_int_mod |].
  rewrite <- Z.cong_iff_0. split.
  - intros Heq. rewrite <- (wrap_int_mod fmt qi), <- (wrap_int_mod fmt qi')
      by assumption. now rewrite Heq.
  - intros Hcong. unfold wrap_int. now rewrite Hcong.
Qed.

Lemma wrap_identifies_congruent_witness :
  exists q q',
    _apply_overflow 33280 fix16_11 "wrap" = Ok q /\
    _apply_overflow (-32256) fix16_11 "wrap" = Ok q' /\
    q mod 2 ^ W fix16_11 = 33280 mod 2 ^ W fix16_11 /\
    (q = q' <-> (33280 - -32256) mod 2 ^ W fix16_11 = 0).
Proof.
  apply (wrap_identifies_congruent fix16_11 33280 (-32256)).
  unfold wf_format; cbn; lia.
Defined.

(** ** Quantising representable and out-of-range values *)

(** X5: on a format of at most 53 bits, quantising the real value of a
    returned triple, under any valid policy and rounding mode, returns that
    same triple: a decoded value is representable and is left alone. *)
Theorem quantize_idempotent :
  forall (fmt : FixedFormat) (x : float) (o r o' r' : string)
         (qi : Z) (xr : float) (hx : string),
    exact_format fmt -> valid_overflow o' -> valid_rounding r' ->
    quantize x fmt o r = Ok (qi, xr, hx) ->
    quantize xr fmt o' r' = Ok (qi, xr, hx).
Proof.
  intros fmt x o r o' r' qi xr hx Hex Ho' Hr' Hq.
  pose proof Hex as [Hwf _].
  destruct (quantize_inv _ _ _ _ _ _ _ Hq) as [n [Hn [Hqi [Hxr Hhx]]]].
  destruct (apply_overflow_inv fmt n qi o Hwf Hqi) as [_ Hrange].
  pose proof Hxr as Hxr'.
  rewrite (int_to_real_in_range fmt Hex qi Hrange) in Hxr'.
  injection Hxr' as <-.
  unfold quantize.
  rewrite (round_of_stored fmt Hex qi r' Hrange Hr'). cbn [bind].
  rewrite apply_overflow_id by assumption. cbn [bind].
  rewrite Hxr. cbn [bind]. now rewrite Hhx.
Qed.

Lemma quantize_idempotent_witness :
  quantize (Finite (- (63 # 4))) fix16_11 "saturate" "ceil"
  = Ok (-32256, Finite (- (63 # 4)), "0x8200").
Proof.
  apply (quantize_idempotent fix16_11 (65 # 4) "wrap" "nearest"
           "saturate" "ceil").
  - format_ok.
  - right; reflexivity.
  - right; right; reflexivity.
  - vm_compute; reflexivity.
Defined.

(** X6: under "saturate" quantisation is monotone on finite floats whose
    scaled values stay in the float range: a larger input never stores a
    smaller integer, whatever the rounding mode, nor, on a format of at most
    53 bits, decodes to a smaller real. *)
Theorem quantize_saturate_monotone :
  forall (fmt : FixedFormat) (x x' : Q) (r : string),
    float_format fmt -> scalable fmt x -> scalable fmt x' ->
    valid_rounding r -> (x <= x')%Q ->
    exists qi (xr : Q) hx qi' (xr' : Q) hx',
      quantize x fmt "saturate" r = Ok (qi, Finite xr, hx) /\
      quantize x' fmt "saturate" r = Ok (qi', Finite xr', hx') /\
      qi <= qi' /\ (W fmt <= 53 -> (xr <= xr')%Q).
Proof.
  intros fmt x x' r Hff Hx Hx' Hr Hle. pose proof Hff as [Hwf _].
  destruct (round_to_int_total fmt Hwf x r Hx Hr) as [n Hn].
  destruct (round_to_int_total fmt Hwf x' r Hx' Hr) as [n' Hn'].
  pose proof (round_to_int_monotone fmt x x' r n n' Hwf Hx Hx' Hle Hn Hn')
    as Hnn.
  pose proof (apply_overflow_saturate fmt Hwf n) as Hc.
  pose proof (apply_overflow_saturate fmt Hwf n') as Hc'.
  destruct (quantize_steps fmt Hff _ _ _ _ _ Hn Hc) as [xr [hx [Hxr [_ Hq]]]].
  destruct (quantize_steps fmt Hff _ _ _ _ _ Hn' Hc')
    as [xr' [hx' [Hxr' [_ Hq']]]].
  exists (clamp_int fmt n), xr, hx, (clamp_int fmt n'), xr', hx'.
  split; [exact Hq |]. split; [exact Hq' |].
  assert (Hcc : clamp_int fmt n <= clamp_int fmt n')
    by (unfold clamp_int; lia).
  split; [exact Hcc |].
  intros HW. assert (Hex : exact_format fmt) by (split; assumption).
  rewrite (int_to_real_in_range fmt Hex) in Hxr, Hxr'
    by (apply clamp_int_range; assumption).
  injection Hxr as <-. injection Hxr' as <-. now apply decoded_le.
Qed.

Lemma quantize_saturate_monotone_witness :
  exists qi (xr : Q) hx qi' (xr' : Q) hx',
    quantize (3 # 8192) fix16_11 "saturate" "floor" = Ok (qi, Finite xr, hx) /\
    quantize (65 # 4) fix16_11 "saturate" "floor" = Ok (qi', Finite xr', hx') /\
    qi <= qi' /\ (xr <= xr')%Q.
Proof.
  destruct (quantize_saturate_monotone fix16_11 (3 # 8192) (65 # 4) "floor")
    as [qi [xr [hx [qi' [xr' [hx' [H1 [H2 [H3 H4]]]]]]]]].
  - format_ok.
  - scalable_ok.
  - scalable_ok.
  - right; left; reflexivity.
  - unfold Qle; cbn; lia.
  - exists qi, xr, hx, qi', xr', hx'.
    split; [exact H1 |]. split; [exact H2 |]. split; [exact H3 |].
    apply H4. cbn; lia.
Defined.

(** X7: on a format of at most 53 bits, under "saturate", every finite
    float at or above [max_real] whose scaled value stays in the float
    range stores [max_int], and every one at or below [min_real] stores
    [min_int], whatever the rounding mode. *)
Theorem saturate_beyond_range :
  forall (fmt : FixedFormat) (x top bottom : Q) (lo hi q : Z) (r : string),
    exact_format fmt -> scalable fmt x -> valid_rounding r ->
    max_real fmt = Ok (Finite top) -> min_real fmt = Ok (Finite bottom) ->
    min_int fmt = Ok lo -> max_int fmt = Ok hi ->
    ((top <= x)%Q /\ q = hi) \/ ((x <= bottom)%Q /\ q = lo) ->
    exists xr hx, quantize x fmt "saturate" r = Ok (q, xr, hx).
Proof.
  intros fmt x top bottom lo hi q r Hex Hsc Hr Htop Hbottom Hlo Hhi Hx.
  pose proof Hex as [Hwf _]. pose proof (exact_is_float fmt Hex) as Hff.
  rewrite max_real_eq in Htop by assumption. injection Htop as <-.
  rewrite min_real_eq in Hbottom by assumption. injection Hbottom as <-.
  rewrite min_int_eq in Hlo by assumption. injection Hlo as <-.
  rewrite max_int_eq in Hhi by assumption. injection Hhi as <-.
  pose proof (lo_le_hi fmt Hwf) as Hlh.
  assert (Hl : lo_int fmt <= lo_int fmt <= hi_int fmt) by lia.
  assert (Hh : lo_int fmt <= hi_int fmt <= hi_int fmt) by lia.
  pose proof (stored_fits_53 fmt _ Hex Hl) as Hl53.
  pose proof (stored_fits_53 fmt _ Hex Hh) as Hh53.
  destruct (round_to_int_total fmt Hwf x r Hsc Hr) as [n Hn].
  pose proof (apply_overflow_saturate fmt Hwf n) as Hc.
  destruct Hx as [[Hx ->] | [Hx ->]].
  - assert (Hge : hi_int fmt <= n).
    { refine (round_to_int_monotone fmt _ x r _ n Hwf _ Hsc Hx
                (round_of_stored fmt Hex (hi_int fmt) r Hh Hr) Hn).
      apply decoded_scalable; [assumption | lia]. }
    replace (clamp_int fmt n) with (hi_int fmt) in Hc
      by (unfold clamp_int; lia).
    destruct (quantize_steps fmt Hff _ _ _ _ _ Hn Hc) as [xr [hx [_ [_ Hq]]]].
    now exists (Finite xr), hx.
  - assert (Hge : n <= lo_int fmt).
    { refine (round_to_int_monotone fmt x _ r n _ Hwf Hsc _ Hx Hn
                (round_of_stored fmt Hex (lo_int fmt) r Hl Hr)).
      apply decoded_scalable; [assumption | lia]. }
    replace (clamp_int fmt n) with (lo_int fmt) in Hc
      by (unfold clamp_int; lia).
    destruct (quantize_steps fmt Hff _ _ _ _ _ Hn Hc) as [xr [hx [_ [_ Hq]]]].
    now exists (Finite xr), hx.
Qed.

Lemma saturate_beyond_range_witness :
  exists xr hx,
    quantize (-1000) fix16_11 "saturate" "floor" = Ok (-32768, xr, hx).
Proof.
  apply (saturate_beyond_range fix16_11 (-1000) (32767 # 2048) (- (16 # 1))
           (-32768) 32767 (-32768) "floor").
  - format_ok.
  - scalable_ok.
  - right; left; reflexivity.
  - vm_compute; reflexivity.
  - vm_compute; reflexivity.
  - reflexivity.
  - reflexivity.
  - right. split; [unfold Qle; cbn; lia | reflexivity].
Defined.

(** ** What a returned triple says *)

(** X8: whenever [quantize], [add] or [mul] returns a triple on a
    well-formed format, for any float inputs, the real component is the
    decoding of the stored integer and the hex component its rendering; on
    a format of at most 53 bits the real component is exactly the stored
    integer over [2^F] and lies between [min_real] and [max_real]. *)
Theorem returned_triple_is_consistent :
  forall (fmt : FixedFormat) (a b : float) (o r : string)
         (qi : Z) (xr : float) (hx : string),
    wf_format fmt ->
    quantize a fmt o r = Ok (qi, xr, hx) \/
    add a b fmt o r = Ok (qi, xr, hx) \/
    mul a b fmt o r = Ok (qi, xr, hx) ->
    int_to_real qi fmt = Ok xr /\
    int_to_hex qi fmt = Ok hx /\
    (W fmt <= 53 ->
     exists v bottom top : Q,
       xr = Finite v /\
       min_real fmt = Ok (Finite bottom) /\ max_real fmt = Ok (Finite top) /\
       (v == inject_Z qi / inject_Z (2 ^ F fmt))%Q /\
       (v * inject_Z (2 ^ F fmt) == inject_Z qi)%Q /\
       (bottom <= v <= top)%Q).
Proof.
  intros fmt a b o r qi xr hx Hwf Hres.
  assert (H : (exists n, _apply_overflow n fmt o = Ok qi) /\
              int_to_real qi fmt = Ok xr /\ int_to_hex qi fmt = Ok hx).
  { destruct Hres as [Hq | [Ha | Hm]].
    - destruct (quantize_inv _ _ _ _ _ _ _ Hq) as [n [_ [Hqi [Hxr Hhx]]]].
      split; [now exists n | now split].
    - destruct (add_inv _ _ _ _ _ _ _ _ Ha)
        as [ra [ai [rb [bi [_ [_ [_ [_ [Hqi [Hxr Hhx]]]]]]]]]].
      split; [now exists (ai + bi) | now split].
    - destruct (mul_inv _ _ _ _ _ _ _ _ Hm)
        as [ra [ai [rb [bi [bias [q [_ [_ [_ [_ [_ [_ [Hqi [Hxr Hhx]]]]]]]]]]]]]].
      split; [now exists q | now split]. }
  destruct H as [[n Hqi] [Hxr Hhx]].
  split; [exact Hxr |]. split; [exact Hhx |].
  intros HW. assert (Hex : exact_format fmt) by (split; assumption).
  destruct (apply_overflow_inv fmt n qi o Hwf Hqi) as [_ Hrange].
  rewrite (int_to_real_in_range fmt Hex qi Hrange) in Hxr.
  injection Hxr as <-.
  exists (decoded fmt qi), (decoded fmt (lo_int fmt)), (decoded fmt (hi_int fmt)).
  split; [reflexivity |].
  split; [now apply min_real_eq |]. split; [now apply max_real_eq |].
  split; [apply decoded_eq |].
  split; [rewrite decoded_eq; apply div_mul_cancel, pow_F_pos, Hwf |].
  split; apply (decoded_le fmt Hex); lia.
Qed.

Lemma returned_triple_is_consistent_witness :
  int_to_real 32767 fix16_11 = Ok (Finite (32767 # 2048)) /\
  int_to_hex 32767 fix16_11 = Ok "0x7FFF" /\
  exists v bottom top : Q,
    Finite (32767 # 2048) = Finite v /\
    min_real fix16_11 = Ok (Finite bottom) /\
    max_real fix16_11 = Ok (Finite top) /\
    (v == inject_Z 32767 / inject_Z (2 ^ F fix16_11))%Q /\
    (v * inject_Z (2 ^ F fix16_11) == inject_Z 32767)%Q /\
    (bottom <= v <= top)%Q.
Proof.
  destruct (returned_triple_is_consistent fix16_11 (11 # 2) 4
              "saturate" "nearest" 32767 (Finite (32767 # 2048)) "0x7FFF")
    as [H1 [H2 H3]].
  - format_ok.
  - right; right; vm_compute; reflexivity.
  - split; [exact H1 |]. split; [exact H2 |]. apply H3. cbn; lia.
Defined.

(** X9: on a format of at most 53 bits and for a finite float [x] between
    [min_real] and [max_real], under "wrap", "floor" decodes to a value at
    most [x] and less than one resolution step below it, and "ceil" to a
    value at least [x] and less than one step above. *)
Theorem floor_ceil_error_bounds :
  forall (fmt : FixedFormat) (x bottom top res : Q),
    exact_format fmt -> double x ->
    min_real fmt = Ok (Finite bottom) -> max_real fmt = Ok (Finite top) ->
    resolution fmt = Ok (Finite res) ->
    (bottom <= x)%Q -> (x <= top)%Q ->
    exists qf (xf : Q) hf qc (xc : Q) hc,
      quantize x fmt "wrap" "floor" = Ok (qf, Finite xf, hf) /\
      quantize x fmt "wrap" "ceil" = Ok (qc, Finite xc, hc) /\
      (xf <= x < xf + res)%Q /\
      (xc - res < x <= xc)%Q.
Proof.
  intros fmt x bottom top res Hex Hd Hbottom Htop Hres Hlo Hhi.
  pose proof Hex as [Hwf _]. pose proof (exact_is_float fmt Hex) as Hff.
  rewrite min_real_eq in Hbottom by assumption. injection Hbottom as <-.
  rewrite max_real_eq in Htop by assumption. injection Htop as <-.
  rewrite exact_resolution_eq in Hres by assumption. injection Hres as <-.
  pose proof (pow_F_pos fmt Hwf) as HsZ.
  pose proof (inject_Z_pos _ HsZ) as Hs.
  pose proof (in_range_scalable fmt Hex x Hd Hlo Hhi) as Hsc.
  rewrite decoded_eq in Hlo, Hhi.
  set (s := inject_Z (2 ^ F fmt)) in *.
  set (y := (x * s)%Q).
  assert (Hylo : (inject_Z (lo_int fmt) <= y)%Q).
  { unfold y. rewrite <- (div_mul_cancel (lo_int fmt) (2 ^ F fmt) HsZ).
    apply Qmult_le_compat_r; [exact Hlo | apply Qlt_le_weak, Hs]. }
  assert (Hyhi : (y <= inject_Z (hi_int fmt))%Q).
  { unfold y. rewrite <- (div_mul_cancel (hi_int fmt) (2 ^ F fmt) HsZ).
    apply Qmult_le_compat_r; [exact Hhi | apply Qlt_le_weak, Hs]. }
  destruct (floor_bounds y) as [Hf Hf'].
  destruct (ceiling_bounds y) as [Hc Hc'].
  assert (Hfr : lo_int fmt <= Qfloor y <= hi_int fmt).
  { split.
    - rewrite <- (Qfloor_Z (lo_int fmt)). now apply Qfloor_resp_le.
    - rewrite <- (Qfloor_Z (hi_int fmt)). now apply Qfloor_resp_le. }
  assert (Hcr : lo_int fmt <= Qceiling y <= hi_int fmt).
  { split.
    - rewrite <- (Qceiling_Z (lo_int fmt)). now apply Qceiling_resp_le.
    - rewrite <- (Qceiling_Z (hi_int fmt)). now apply Qceiling_resp_le. }
  pose proof (round_to_int_floor fmt Hwf x Hsc) as Hnf.
  pose proof (round_to_int_ceil fmt Hwf x Hsc) as Hnc.
  fold s in Hnf, Hnc. fold y in Hnf, Hnc.
  pose proof (apply_overflow_id fmt (Qfloor y) "wrap" Hwf
                (or_introl eq_refl) Hfr) as Hof.
  pose proof (apply_overflow_id fmt (Qceiling y) "wrap" Hwf
                (or_introl eq_refl) Hcr) as Hoc.
  destruct (quantize_steps fmt Hff _ _ _ _ _ Hnf Hof) as [xf [hf [Hxf [_ Hqf]]]].
  destruct (quantize_steps fmt Hff _ _ _ _ _ Hnc Hoc) as [xc [hc [Hxc [_ Hqc]]]].
  rewrite (int_to_real_in_range fmt Hex) in Hxf, Hxc by assumption.
  injection Hxf as <-. injection Hxc as <-.
  exists (Qfloor y), (decoded fmt (Qfloor y)), hf.
  exists (Qceiling y), (decoded fmt (Qceiling y)), hc.
  split; [exact Hqf |]. split; [exact Hqc |].
  rewrite !decoded_eq. fold s. change (inject_Z 1) with 1%Q.
  split; split.
  - now apply unscale_le_l.
  - now apply unscale_lt_r.
  - now apply unscale_lt_l.
  - now apply unscale_le_r.
Qed.

Lemma floor_ceil_error_bounds_witness :
  exists qf (xf : Q) hf qc (xc : Q) hc,
    quantize (3 # 8192) fix16_11 "wrap" "floor" = Ok (qf, Finite xf, hf) /\
    quantize (3 # 8192) fix16_11 "wrap" "ceil" = Ok (qc, Finite xc, hc) /\
    (xf <= 3 # 8192 < xf + (1 # 2048))%Q /\
    (xc - (1 # 2048) < 3 # 8192 <= xc)%Q.
Proof.
  apply (floor_ceil_error_bounds fix16_11 (3 # 8192)
           (- (16 # 1)) (32767 # 2048) (1 # 2048)).
  - format_ok.
  - vm_compute; reflexivity.
  - vm_compute; reflexivity.
  - vm_compute; reflexivity.
  - vm_compute; reflexivity.
  - unfold Qle; cbn; lia.
  - unfold Qle; cbn; lia.
Defined.

(** ** Addition *)

(** X10: under "wrap" the operand-level constraint is invisible: the stored
    sum is the wrapped sum of the two rounded, unconstrained operands (on a
    format of at most 1023 bits, for finite floats whose scaled values stay
    in the float range). *)
Theorem add_wrap_is_modular :
  forall (fmt : FixedFormat) (a b : Q) (r : string),
    float_format fmt -> scalable fmt a -> scalable fmt b ->
    valid_rounding r ->
    exists ra rb si xr hx,
      _round_to_int a fmt r = Ok ra /\
      _round_to_int b fmt r = Ok rb /\
      _apply_overflow (ra + rb) fmt "wrap" = Ok si /\
      add a b fmt "wrap" r = Ok (si, xr, hx).
Proof.
  intros fmt a b r Hff Ha Hb Hr. pose proof Hff as [Hwf _].
  destruct (round_to_int_total fmt Hwf a r Ha Hr) as [ra Hra].
  destruct (round_to_int_total fmt Hwf b r Hb Hr) as [rb Hrb].
  pose proof (apply_overflow_wrap fmt Hwf ra) as Hai.
  pose proof (apply_overflow_wrap fmt Hwf rb) as Hbi.
  pose proof (apply_overflow_wrap fmt Hwf
                (wrap_int fmt ra + wrap_int fmt rb)) as Hsi.
  assert (Hmod : wrap_int fmt (wrap_int fmt ra + wrap_int fmt rb)
                 = wrap_int fmt (ra + rb)).
  { rewrite (proj1 (wrap_int_add fmt ra (wrap_int fmt rb) Hwf)).
    apply (proj2 (wrap_int_add fmt ra rb Hwf)). }
  rewrite Hmod in Hsi.
  destruct (add_steps fmt Hff a b "wrap" r _ _ _ _ _ Hra Hai Hrb Hbi Hsi)
    as [xr [hx [_ [_ Hadd]]]].
  exists ra, rb, (wrap_int fmt (ra + rb)), (Finite xr), hx.
  split; [exact Hra |]. split; [exact Hrb |].
  split; [now apply apply_overflow_wrap | exact Hadd].
Qed.

Lemma add_wrap_is_modular_witness :
  exists ra rb si xr hx,
    _round_to_int 20 fix16_11 "nearest" = Ok ra /\
    _round_to_int (-10) fix16_11 "nearest" = Ok rb /\
    _apply_overflow (ra + rb) fix16_11 "wrap" = Ok si /\
    add 20 (-10) fix16_11 "wrap" "nearest" = Ok (si, xr, hx).
Proof.
  apply (add_wrap_is_modular fix16_11 20 (-10) "nearest").
  - format_ok.
  - scalable_ok.
  - scalable_ok.
  - left; reflexivity.
Defined.

(** A triple returned in one order of the operands is returned in the
    other. *)
Lemma add_swap_ok (fmt : FixedFormat) (a b : float) (o r : string)
      (t : Z * float * string) :
  add a b fmt o r = Ok t -> add b a fmt o r = Ok t.
Proof.
  destruct t as [[qi xr] hx]. intros H.
  destruct (add_inv _ _ _ _ _ _ _ _ H)
    as [ra [ai [rb [bi [Hra [Hai [Hrb [Hbi [Hqi [Hxr Hhx]]]]]]]]]].
  unfold add. rewrite Hrb. cbn [bind]. rewrite Hbi. cbn [bind].
  rewrite Hra. cbn [bind]. rewrite Hai. cbn [bind].
  rewrite (Z.add_comm bi ai), Hqi. cbn [bind].
  rewrite Hxr. cbn [bind]. now rewrite Hhx.
Qed.

Lemma mul_swap_ok (fmt : FixedFormat) (a b : float) (o r : string)
      (t : Z * float * string) :
  mul a b fmt o r = Ok t -> mul b a fmt o r = Ok t.
Proof.
  destruct t as [[qi xr] hx]. intros H.
  destruct (mul_inv _ _ _ _ _ _ _ _ H)
    as [ra [ai [rb [bi [bias [q [Hra [Hai [Hrb [Hbi [Hb [Hq [Hqi [Hxr Hhx]]]]]]]]]]]]]].
  unfold mul. rewrite Hrb. cbn [bind]. rewrite Hbi. cbn [bind].
  rewrite Hra. cbn [bind]. rewrite Hai. cbn [bind].
  rewrite Hb. cbn [bind]. rewrite (Z.mul_comm bi ai).
  fold (biased (ai * bi) bias). rewrite Hq. cbn [bind].
  rewrite Hqi. cbn [bind]. rewrite Hxr. cbn [bind]. now rewrite Hhx.
Qed.

(** X11: [add] is commutative where it returns: on every format, for any
    floats and tokens, the two orders return the same triple or both raise;
    and for finite floats whose scaled values stay in the float range, on a
    well-formed format, they also raise the same error. *)
Theorem add_commutative :
  forall (fmt : FixedFormat) (a b : float) (o r : string),
    (forall t, add a b fmt o r = Ok t <-> add b a fmt o r = Ok t) /\
    (forall x y : Q,
        a = Finite x -> b = Finite y ->
        wf_format fmt -> scalable fmt x -> scalable fmt y ->
        add a b fmt o r = add b a fmt o r).
Proof.
  intros fmt a b o r. split.
  - intros t. split; apply add_swap_ok.
  - intros x y -> -> Hwf Hx Hy. unfold add.
    destruct (valid_rounding_dec r) as [Hr | Hr].
    + destruct (round_to_int_total fmt Hwf x r Hx Hr) as [ra Hra].
      destruct (round_to_int_total fmt Hwf y r Hy Hr) as [rb Hrb].
      rewrite Hra, Hrb. cbn [bind].
      destruct (valid_overflow_dec o) as [Ho | Ho].
      * destruct (apply_overflow_total fmt Hwf ra o Ho) as [ai [Hai _]].
        destruct (apply_overflow_total fmt Hwf rb o Ho) as [bi [Hbi _]].
        rewrite Hai, Hbi. cbn [bind]. now rewrite (Z.add_comm bi ai).
      * rewrite !apply_overflow_bad by assumption. reflexivity.
    + rewrite !round_to_int_bad by (assumption || apply Hx). reflexivity.
Qed.

Lemma add_commutative_witness :
  (forall t, add 20 (-10) fix16_11 "wrap" "nearest" = Ok t <->
             add (-10) 20 fix16_11 "wrap" "nearest" = Ok t) /\
  add 20 (-10) fix16_11 "clip" "nearest"
  = add (-10) 20 fix16_11 "clip" "nearest".
Proof.
  split.
  - apply (proj1 (add_commutative fix16_11 20 (-10) "wrap" "nearest")).
  - apply (proj2 (add_commutative fix16_11 20 (-10) "clip" "nearest")
             20 (-10))%Q.
    + reflexivity.
    + reflexivity.
    + format_ok.
    + scalable_ok.
    + scalable_ok.
Defined.

(** Outside the float range the two orders can raise different errors. *)
Example add_error_depends_on_order :
  add (inject_Z (2 ^ 1023)) 1 fix16_11 "clip" "nearest"
    = Raise InfinityToInteger /\
  add 1 (inject_Z (2 ^ 1023)) fix16_11 "clip" "nearest"
    = Raise BadOverflow /\
  class_of InfinityToInteger <> class_of BadOverflow.
Proof.
  split; [vm_compute; reflexivity |].
  split; [vm_compute; reflexivity | discriminate].
Qed.

(** Addition of representable operands whose sum is representable is
    exact. *)
Lemma add_steps_exact (fmt : FixedFormat) (qa qb : Z) (o r : string) :
  exact_format fmt -> valid_overflow o -> valid_rounding r ->
  lo_int fmt <= qa <= hi_int fmt -> lo_int fmt <= qb <= hi_int fmt ->
  lo_int fmt <= qa + qb <= hi_int fmt ->
  exists hx,
    add (decoded fmt qa) (decoded fmt qb) fmt o r
    = Ok (qa + qb, Finite (decoded fmt (qa + qb)), hx).
Proof.
  intros Hex Ho Hr Ha Hb Hab. pose proof Hex as [Hwf _].
  destruct (add_steps fmt (exact_is_float fmt Hex) _ _ o r qa qa qb qb (qa + qb)
              (round_of_stored fmt Hex qa r Ha Hr)
              (apply_overflow_id fmt qa o Hwf Ho Ha)
              (round_of_stored fmt Hex qb r Hb Hr)
              (apply_overflow_id fmt qb o Hwf Ho Hb)
              (apply_overflow_id fmt (qa + qb) o Hwf Ho Hab))
    as [xr [hx [Hxr [_ Hadd]]]].
  rewrite (int_to_real_in_range fmt Hex _ Hab) in Hxr. injection Hxr as <-.
  now exists hx.
Qed.

(** X12: on a format of at most 53 bits, when [a], [b] and [a + b] are all
    real values of stored integers of the format, [add] returns exactly
    [a + b], under every valid policy and rounding mode. *)
Theorem add_exact_on_representable :
  forall (fmt : FixedFormat) (qa qb lo hi : Z) (a b : Q) (o r : string),
    exact_format fmt -> valid_overflow o -> valid_rounding r ->
    min_int fmt = Ok lo -> max_int fmt = Ok hi ->
    lo <= qa <= hi -> lo <= qb <= hi -> lo <= qa + qb <= hi ->
    int_to_real qa fmt = Ok (Finite a) -> int_to_real qb fmt = Ok (Finite b) ->
    exists (xr : Q) hx,
      add a b fmt o r = Ok (qa + qb, Finite xr, hx) /\ (xr == a + b)%Q.
Proof.
  intros fmt qa qb lo hi a b o r Hex Ho Hr Hlo Hhi Ha Hb Hab Hra Hrb.
  pose proof Hex as [Hwf _].
  rewrite min_int_eq in Hlo by assumption. injection Hlo as <-.
  rewrite max_int_eq in Hhi by assumption. injection Hhi as <-.
  rewrite (int_to_real_in_range fmt Hex) in Hra, Hrb by assumption.
  injection Hra as <-. injection Hrb as <-.
  destruct (add_steps_exact fmt qa qb o r Hex Ho Hr Ha Hb Hab) as [hx Hadd].
  eexists; exists hx. split; [exact Hadd |].
  rewrite !decoded_eq, inject_Z_plus. field.
  pose proof (inject_Z_pos _ (pow_F_pos fmt Hwf)). lra.
Qed.

Lemma add_exact_on_representable_witness :
  exists (xr : Q) hx,
    add 10 (- (21 # 2)) fix16_11 "saturate" "floor"
    = Ok (20480 + -21504, Finite xr, hx) /\
    (xr == 10 + - (21 # 2))%Q.
Proof.
  apply (add_exact_on_representable fix16_11 20480 (-21504) (-32768) 32767
           10 (- (21 # 2)) "saturate" "floor").
  - format_ok.
  - right; reflexivity.
  - right; left; reflexivity.
  - reflexivity.
  - reflexivity.
  - lia.
  - lia.
  - lia.
  - vm_compute; reflexivity.
  - vm_compute; reflexivity.
Defined.

(** ** Multiplication, continued *)

(** X13: [mul] is commutative where it returns: on every format, for any
    floats and tokens, the two orders return the same triple or both raise;
    and for finite floats whose scaled values stay in the float range, on a
    well-formed format, they also raise the same error. *)
Theorem mul_commutative :
  forall (fmt : FixedFormat) (a b : float) (o r : string),
    (forall t, mul a b fmt o r = Ok t <-> mul b a fmt o r = Ok t) /\
    (forall x y : Q,
        a = Finite x -> b = Finite y ->
        wf_format fmt -> scalable fmt x -> scalable fmt y ->
        mul a b fmt o r = mul b a fmt o r).
Proof.
  intros fmt a b o r. split.
  - intros t. split; apply mul_swap_ok.
  - intros x y -> -> Hwf Hx Hy. unfold mul.
    destruct (valid_rounding_dec r) as [Hr | Hr].
    + destruct (round_to_int_total fmt Hwf x r Hx Hr) as [ra Hra].
      destruct (round_to_int_total fmt Hwf y r Hy Hr) as [rb Hrb].
      rewrite Hra, Hrb. cbn [bind].
      destruct (valid_overflow_dec o) as [Ho | Ho].
      * destruct (apply_overflow_total fmt Hwf ra o Ho) as [ai [Hai _]].
        destruct (apply_overflow_total fmt Hwf rb o Ho) as [bi [Hbi _]].
        rewrite Hai, Hbi. cbn [bind]. now rewrite (Z.mul_comm bi ai).
      * rewrite !apply_overflow_bad by assumption. reflexivity.
    + rewrite !round_to_int_bad by (assumption || apply Hx). reflexivity.
Qed.

Lemma mul_commutative_witness :
  (forall t, mul (11 # 2) 4 fix16_11 "saturate" "nearest" = Ok t <->
             mul 4 (11 # 2) fix16_11 "saturate" "nearest" = Ok t) /\
  mul (11 # 2) 4 int8 "saturate" "nearest"
  = mul 4 (11 # 2) int8 "saturate" "nearest".
Proof.
  split.
  - apply (proj1 (mul_commutative fix16_11 (11 # 2) 4 "saturate" "nearest")).
  - apply (proj2 (mul_commutative int8 (11 # 2) 4 "saturate" "nearest")
             (11 # 2) 4)%Q.
    + reflexivity.
    + reflexivity.
    + format_ok.
    + scalable_ok.
    + scalable_ok.
Defined.

(** X14: on a format of at most 1023 bits with a fractional bit, for
    finite floats whose scaled values stay in the float range, the integer
    [q] that [mul] constrains and stores is, for a non-negative product [p]
    of the stored operands, the nearest integer to [p / 2^F] with ties
    upwards; for a negative product it is the floor of [p / 2^F - 1/2], so
    it lies at least half a step and less than a step and a half below
    [p / 2^F]. *)
Theorem mul_rescale_rounding :
  forall (fmt : FixedFormat) (a b : Q) (o r : string),
    float_format fmt -> 1 <= F fmt -> scalable fmt a -> scalable fmt b ->
    valid_overflow o -> valid_rounding r ->
    exists ra rb ai bi q qi xr hx,
      _round_to_int a fmt r = Ok ra /\ _apply_overflow ra fmt o = Ok ai /\
      _round_to_int b fmt r = Ok rb /\ _apply_overflow rb fmt o = Ok bi /\
      _apply_overflow q fmt o = Ok qi /\
      mul a b fmt o r = Ok (qi, xr, hx) /\
      (0 <= ai * bi ->
       - 2 ^ (F fmt - 1) <= ai * bi - q * 2 ^ F fmt < 2 ^ (F fmt - 1)) /\
      (ai * bi < 0 ->
       2 ^ (F fmt - 1) <= ai * bi - q * 2 ^ F fmt < 3 * 2 ^ (F fmt - 1)).
Proof.
  intros fmt a b o r Hff HF Ha Hb Ho Hr. pose proof Hff as [Hwf _].
  destruct (operand_total fmt Hff a o r Ha Ho Hr) as [ra [ai [Hra [Hai _]]]].
  destruct (operand_total fmt Hff b o r Hb Ho Hr) as [rb [bi [Hrb [Hbi _]]]].
  set (q := biased (ai * bi) (2 ^ (F fmt - 1)) / 2 ^ F fmt).
  destruct (apply_overflow_total fmt Hwf q o Ho) as [qi [Hqi _]].
  destruct (mul_steps fmt Hff a b o r ra ai rb bi qi HF Hra Hai Hrb Hbi Hqi)
    as [xr [hx [_ [_ Hm]]]].
  exists ra, rb, ai, bi, q, qi, (Finite xr), hx.
  repeat (split; [assumption |]).
  apply (rescale_bounds (ai * bi) (F fmt) HF).
Qed.

Lemma mul_rescale_rounding_witness :
  exists ra rb ai bi q qi xr hx,
    _round_to_int 1 fix16_11 "nearest" = Ok ra /\
    _apply_overflow ra fix16_11 "saturate" = Ok ai /\
    _round_to_int (-1) fix16_11 "nearest" = Ok rb /\
    _apply_overflow rb fix16_11 "saturate" = Ok bi /\
    _apply_overflow q fix16_11 "saturate" = Ok qi /\
    mul 1 (-1) fix16_11 "saturate" "nearest" = Ok (qi, xr, hx) /\
    (0 <= ai * bi ->
     - 2 ^ (F fix16_11 - 1) <= ai * bi - q * 2 ^ F fix16_11
       < 2 ^ (F fix16_11 - 1)) /\
    (ai * bi < 0 ->
     2 ^ (F fix16_11 - 1) <= ai * bi - q * 2 ^ F fix16_11
       < 3 * 2 ^ (F fix16_11 - 1)).
Proof.
  apply (mul_rescale_rounding fix16_11 1 (-1) "saturate" "nearest").
  - format_ok.
  - cbn; lia.
  - scalable_ok.
  - scalable_ok.
  - right; reflexivity.
  - left; reflexivity.
Defined.

(** X15: on a format of at most 53 bits with a fractional bit, when both
    operands are real values of stored integers [qa], [qb] whose product is
    exactly [k * 2^F], [mul] stores the constrained [k] for [k >= 0] but
    the constrained [k - 1] for [k < 0]: an exactly representable negative
    product comes out one resolution step low. *)
Theorem mul_exact_product :
  forall (fmt : FixedFormat) (qa qb k lo hi : Z) (a b : float) (o r : string),
    exact_format fmt -> 1 <= F fmt -> valid_overflow o -> valid_rounding r ->
    min_int fmt = Ok lo -> max_int fmt = Ok hi ->
    lo <= qa <= hi -> lo <= qb <= hi ->
    int_to_real qa fmt = Ok a -> int_to_real qb fmt = Ok b ->
    qa * qb = k * 2 ^ F fmt ->
    exists qi xr hx,
      _apply_overflow (if 0 <=? k then k else k - 1) fmt o = Ok qi /\
      mul a b fmt o r = Ok (qi, xr, hx).
Proof.
  intros fmt qa qb k lo hi a b o r Hex HF Ho Hr Hlo Hhi Ha Hb Hra Hrb Hk.
  pose proof Hex as [Hwf _].
  rewrite min_int_eq in Hlo by assumption. injection Hlo as <-.
  rewrite max_int_eq in Hhi by assumption. injection Hhi as <-.
  rewrite (int_to_real_in_range fmt Hex) in Hra, Hrb by assumption.
  injection Hra as <-. injection Hrb as <-.
  destruct (apply_overflow_total fmt Hwf (if 0 <=? k then k else k - 1) o Ho)
    as [qi [Hqi _]].
  pose proof Hqi as Hqi'.
  rewrite <- (rescale_exact k (F fmt) HF), <- Hk in Hqi'.
  destruct (mul_steps fmt (exact_is_float fmt Hex) _ _ o r qa qa qb qb qi HF
              (round_of_stored fmt Hex qa r Ha Hr)
              (apply_overflow_id fmt qa o Hwf Ho Ha)
              (round_of_stored fmt Hex qb r Hb Hr)
              (apply_overflow_id fmt qb o Hwf Ho Hb) Hqi')
    as [xr [hx [_ [_ Hm]]]].
  now exists qi, (Finite xr), hx.
Qed.

Lemma mul_exact_product_witness :
  exists qi xr hx,
    _apply_overflow (if 0 <=? -2048 then -2048 else -2048 - 1) fix16_11 "wrap"
    = Ok qi /\
    mul 1 (-1) fix16_11 "wrap" "nearest" = Ok (qi, xr, hx).
Proof.
  apply (mul_exact_product fix16_11 2048 (-2048) (-2048) (-32768) 32767
           1 (-1) "wrap" "nearest").
  - format_ok.
  - cbn; lia.
  - left; reflexivity.
  - left; reflexivity.
  - reflexivity.
  - reflexivity.
  - lia.
  - lia.
  - vm_compute; reflexivity.
  - vm_compute; reflexivity.
  - reflexivity.
Defined.

(** One times minus one, and one times one, on Fix16_11. *)
Example mul_by_one_fix16_11 :
  mul 1 (-1) fix16_11 "saturate" "nearest"
    = Ok (-2049, Finite (-2049 # 2048), "0xF7FF") /\
  mul 1 1 fix16_11 "saturate" "nearest"
    = Ok (2048, Finite 1, "0x0800").
Proof. split; vm_compute; reflexivity. Qed.

(** ** Hexadecimal rendering *)

(** X16: the rendering of any integer is "0x" followed by exactly
    [ceil(W / 4)] characters, whatever its sign or size. *)
Theorem hex_width :
  forall (fmt : FixedFormat) (qi : Z),
    wf_format fmt ->
    exists digits,
      int_to_hex qi fmt = Ok (String.append "0x" digits) /\
      Z.of_nat (String.length digits) = (W fmt + 3) / 4 /\
      4 * ((W fmt + 3) / 4) - 4 < W fmt <= 4 * ((W fmt + 3) / 4).
Proof.
  intros fmt qi Hwf.
  set (n := (W fmt + 3) / 4).
  assert (Hn : 4 * n - 4 < W fmt <= 4 * n).
  { pose proof (Z.mul_div_le (W fmt + 3) 4 eq_refl) as H1.
    pose proof (Z.mul_succ_div_gt (W fmt + 3) 4 eq_refl) as H2.
    fold n in H1, H2. lia. }
  assert (HW : 1 <= W fmt) by (destruct Hwf; lia).
  assert (Hpos : 0 < 2 ^ W fmt) by (apply Z.pow_pos_nonneg; lia).
  pose proof (Z.mod_pos_bound qi (2 ^ W fmt) Hpos) as Hu.
  assert (H16 : 2 ^ W fmt <= 16 ^ n).
  { change 16 with (2 ^ 4). rewrite <- Z.pow_mul_r by lia.
    apply Z.pow_le_mono_r; lia. }
  eexists. split; [now apply int_to_hex_eq |]. fold n.
  split; [| exact Hn].
  unfold format_0X.
  destruct (Z.ltb_spec (qi mod 2 ^ W fmt) 0) as [Hneg | _]; [lia |].
  apply zfill_length.
  rewrite upper_hex_length. apply hex_digits_fit; lia.
Qed.

Lemma hex_width_witness :
  exists digits,
    int_to_hex (-1) fix16_11 = Ok (String.append "0x" digits) /\
    Z.of_nat (String.length digits) = (W fix16_11 + 3) / 4 /\
    4 * ((W fix16_11 + 3) / 4) - 4 < W fix16_11
      <= 4 * ((W fix16_11 + 3) / 4).
Proof.
  apply (hex_width fix16_11 (-1)).
  unfold wf_format; cbn; lia.
Defined.

(** X17: two integers have the same hex rendering exactly when they agree
    modulo [2^W]: the rendering shows the bit pattern and nothing else. *)
Theorem hex_identifies_bit_pattern :
  forall (fmt : FixedFormat) (qi qi' : Z),
    wf_format fmt ->
    exists hx hx',
      int_to_hex qi fmt = Ok hx /\ int_to_hex qi' fmt = Ok hx' /\
      (hx = hx' <-> (qi - qi') mod 2 ^ W fmt = 0).
Proof.
  intros fmt qi qi' Hwf.
  assert (Hpos : 0 < 2 ^ W fmt)
    by (apply Z.pow_pos_nonneg; destruct Hwf; lia).
  eexists; eexists.
  split; [now apply int_to_hex_eq |]. split; [now apply int_to_hex_eq |].
  rewrite <- Z.cong_iff_0. split.
  - intros Heq. cbn [String.append] in Heq. injection Heq as Heq.
    apply (f_equal (hex_value_from 0)) in Heq.
    rewrite !hex_value_format in Heq by (apply Z.mod_pos_bound; exact Hpos).
    apply Z2N.inj in Heq; (exact Heq || apply Z.mod_pos_bound; exact Hpos).
  - intros Hcong. now rewrite Hcong.
Qed.

Lemma hex_identifies_bit_pattern_witness :
  exists hx hx',
    int_to_hex 40000 fix16_11 = Ok hx /\ int_to_hex (-25536) fix16_11 = Ok hx' /\
    (hx = hx' <-> (40000 - -25536) mod 2 ^ W fix16_11 = 0).
Proof.
  apply (hex_identifies_bit_pattern fix16_11 40000 (-25536)).
  unfold wf_format; cbn; lia.
Defined.

(** X18: integers that agree modulo [2^W] decode alike on every
    well-formed format; on a format of at most 53 bits, two integers decode
    to the same real exactly when they agree modulo [2^W]. *)
Theorem real_identifies_bit_pattern :
  forall (fmt : FixedFormat) (qi qi' : Z),
    wf_format fmt ->
    ((qi - qi') mod 2 ^ W fmt = 0 ->
     int_to_real qi fmt = int_to_real qi' fmt) /\
    (W fmt <= 53 ->
     exists xr xr' : Q,
       int_to_real qi fmt = Ok (Finite xr) /\
       int_to_real qi' fmt = Ok (Finite xr') /\
       ((qi - qi') mod 2 ^ W fmt = 0 -> xr = xr') /\
       ((xr == xr')%Q -> (qi - qi') mod 2 ^ W fmt = 0)).
Proof.
  intros fmt qi qi' Hwf.
  pose proof (pow_F_pos fmt Hwf) as HsZ.
  split.
  - intros Hcong. apply Z.cong_iff_0 in Hcong.
    rewrite !int_to_real_fold by assumption.
    unfold wrap_int. now rewrite Hcong.
  - intros HW. assert (Hex : exact_format fmt) by (split; assumption).
    exists (decoded fmt (wrap_int fmt qi)), (decoded fmt (wrap_int fmt qi')).
    split; [now apply int_to_real_eq |]. split; [now apply int_to_real_eq |].
    split.
    + intros Hcong. apply Z.cong_iff_0 in Hcong.
      unfold wrap_int. now rewrite Hcong.
    + intros Heq. apply Z.cong_iff_0. rewrite !decoded_eq in Heq.
      assert (Hw : wrap_int fmt qi = wrap_int fmt qi').
      { apply inject_Z_injective.
        rewrite <- (div_mul_cancel (wrap_int fmt qi) _ HsZ).
        rewrite <- (div_mul_cancel (wrap_int fmt qi') _ HsZ).
        now rewrite Heq. }
      rewrite <- (wrap_int_mod fmt qi), <- (wrap_int_mod fmt qi') by assumption.
      now rewrite Hw.
Qed.

Lemma real_identifies_bit_pattern_witness :
  int_to_real 40000 fix16_11 = int_to_real (-25536) fix16_11 /\
  exists xr xr' : Q,
    int_to_real 40000 fix16_11 = Ok (Finite xr) /\
    int_to_real (-25536) fix16_11 = Ok (Finite xr') /\
    ((40000 - -25536) mod 2 ^ W fix16_11 = 0 -> xr = xr') /\
    ((xr == xr')%Q -> (40000 - -25536) mod 2 ^ W fix16_11 = 0).
Proof.
  destruct (real_identifies_bit_pattern fix16_11 40000 (-25536)) as [H1 H2].
  - format_ok.
  - split; [apply H1; reflexivity | apply H2; cbn; lia].
Defined.

(** ** Inputs inside the representable range *)

(** X19: on a format of at most 53 bits, for a finite float between
    [min_real] and [max_real] the overflow policy does not matter: "wrap"
    and "saturate" return the same triple, whose stored integer is the
    rounded value itself. *)
Theorem policies_agree_in_range :
  forall (fmt : FixedFormat) (x bottom top : Q) (r : string),
    exact_format fmt -> double x -> valid_rounding r ->
    min_real fmt = Ok (Finite bottom) -> max_real fmt = Ok (Finite top) ->
    (bottom <= x)%Q -> (x <= top)%Q ->
    exists qi xr hx,
      _round_to_int x fmt r = Ok qi /\
      quantize x fmt "wrap" r = Ok (qi, xr, hx) /\
      quantize x fmt "saturate" r = Ok (qi, xr, hx).
Proof.
  intros fmt x bottom top r Hex Hd Hr Hbottom Htop Hlo Hhi.
  pose proof Hex as [Hwf _]. pose proof (exact_is_float fmt Hex) as Hff.
  rewrite min_real_eq in Hbottom by assumption. injection Hbottom as <-.
  rewrite max_real_eq in Htop by assumption. injection Htop as <-.
  pose proof (in_range_scalable fmt Hex x Hd Hlo Hhi) as Hsc.
  destruct (round_to_int_total fmt Hwf x r Hsc Hr) as [n Hn].
  pose proof (round_in_range fmt x r n Hex Hsc Hlo Hhi Hn) as Hrange.
  pose proof (apply_overflow_id fmt n "wrap" Hwf (or_introl eq_refl) Hrange)
    as Hw.
  pose proof (apply_overflow_id fmt n "saturate" Hwf (or_intror eq_refl) Hrange)
    as Hs.
  destruct (quantize_steps fmt Hff _ _ _ _ _ Hn Hw) as [xr [hx [Hxr [Hhx Hqw]]]].
  exists n, (Finite xr), hx. split; [exact Hn |]. split; [exact Hqw |].
  unfold quantize. rewrite Hn. cbn [bind]. rewrite Hs. cbn [bind].
  rewrite Hxr. cbn [bind]. now rewrite Hhx.
Qed.

Lemma policies_agree_in_range_witness :
  exists qi xr hx,
    _round_to_int (-7 # 4096) fix16_11 "ceil" = Ok qi /\
    quantize (-7 # 4096) fix16_11 "wrap" "ceil" = Ok (qi, xr, hx) /\
    quantize (-7 # 4096) fix16_11 "saturate" "ceil" = Ok (qi, xr, hx).
Proof.
  apply (policies_agree_in_range fix16_11 (-7 # 4096)
           (- (16 # 1)) (32767 # 2048) "ceil").
  - format_ok.
  - vm_compute; reflexivity.
  - right; right; reflexivity.
  - vm_compute; reflexivity.
  - vm_compute; reflexivity.
  - unfold Qle; cbn; lia.
  - unfold Qle; cbn; lia.
Defined.

(** X20: on a format of at most 53 bits, under "saturate" and "nearest",
    when the finite floats [a] and [b] and their exact sum all lie between
    [min_real] and [max_real], the real value returned by [add] is within
    one resolution step of [a + b]. *)
Theorem add_saturate_error_bound :
  forall (fmt : FixedFormat) (a b bottom top res : Q),
    exact_format fmt -> double a -> double b ->
    min_real fmt = Ok (Finite bottom) -> max_real fmt = Ok (Finite top) ->
    resolution fmt = Ok (Finite res) ->
    (bottom <= a <= top)%Q -> (bottom <= b <= top)%Q ->
    (bottom <= a + b <= top)%Q ->
    exists qi (xr : Q) hx,
      add a b fmt "saturate" "nearest" = Ok (qi, Finite xr, hx) /\
      (Qabs (xr - (a + b)) <= res)%Q.
Proof.
  intros fmt a b bottom top res Hex Hda Hdb Hbottom Htop Hres [Hal Hah]
         [Hbl Hbh] [Hsl Hsh].
  pose proof Hex as [Hwf _]. pose proof (exact_is_float fmt Hex) as Hff.
  rewrite min_real_eq in Hbottom by assumption. injection Hbottom as <-.
  rewrite max_real_eq in Htop by assumption. injection Htop as <-.
  rewrite exact_resolution_eq in Hres by assumption. injection Hres as <-.
  pose proof (pow_F_pos fmt Hwf) as HsZ.
  pose proof (inject_Z_pos _ HsZ) as Hs.
  pose proof (in_range_scalable fmt Hex a Hda Hal Hah) as Hsa.
  pose proof (in_range_scalable fmt Hex b Hdb Hbl Hbh) as Hsb.
  pose proof (round_to_int_nearest fmt Hwf a Hsa) as Hra.
  pose proof (round_to_int_nearest fmt Hwf b Hsb) as Hrb.
  pose proof (round_in_range fmt a _ _ Hex Hsa Hal Hah Hra) as Hna.
  pose proof (round_in_range fmt b _ _ Hex Hsb Hbl Hbh Hrb) as Hnb.
  pose proof (apply_overflow_id fmt _ "saturate" Hwf (or_intror eq_refl) Hna)
    as Hai.
  pose proof (apply_overflow_id fmt _ "saturate" Hwf (or_intror eq_refl) Hnb)
    as Hbi.
  rewrite decoded_eq in Hsl, Hsh.
  set (s := inject_Z (2 ^ F fmt)) in *.
  set (na := py_round (a * s)) in *. set (nb := py_round (b * s)) in *.
  pose proof (apply_overflow_saturate fmt Hwf (na + nb)) as Hsi.
  destruct (add_steps fmt Hff a b _ _ _ _ _ _ _ Hra Hai Hrb Hbi Hsi)
    as [xr [hx [Hxr [_ Hadd]]]].
  rewrite (int_to_real_in_range fmt Hex) in Hxr
    by (apply clamp_int_range; assumption).
  injection Hxr as <-.
  eexists; eexists; eexists. split; [exact Hadd |].
  rewrite !decoded_eq. fold s. change (inject_Z 1) with 1%Q.
  apply scaled_error_gen; [exact Hs |].
  assert (Hy : ((a + b) * s == a * s + b * s)%Q) by ring.
  rewrite Hy. unfold clamp_int. apply clamped_sum_error.
  - apply py_round_near.
  - apply py_round_near.
  - rewrite <- Hy, <- (div_mul_cancel (lo_int fmt) (2 ^ F fmt) HsZ).
    apply Qmult_le_compat_r; [exact Hsl | apply Qlt_le_weak, Hs].
  - rewrite <- Hy, <- (div_mul_cancel (hi_int fmt) (2 ^ F fmt) HsZ).
    apply Qmult_le_compat_r; [exact Hsh | apply Qlt_le_weak, Hs].
Qed.

Lemma add_saturate_error_bound_witness :
  exists qi (xr : Q) hx,
    add (32767 # 4096) (32767 # 4096) fix16_11 "saturate" "nearest"
    = Ok (qi, Finite xr, hx) /\
    (Qabs (xr - ((32767 # 4096) + (32767 # 4096))) <= 1 # 2048)%Q.
Proof.
  apply (add_saturate_error_bound fix16_11 (32767 # 4096) (32767 # 4096)
           (- (16 # 1)) (32767 # 2048) (1 # 2048)).
  - format_ok.
  - vm_compute; reflexivity.
  - vm_compute; reflexivity.
  - vm_compute; reflexivity.
  - vm_compute; reflexivity.
  - vm_compute; reflexivity.
  - split; unfold Qle; cbn; lia.
  - split; unfold Qle; cbn; lia.
  - split; unfold Qle; cbn; lia.
Defined.

(** Under "wrap" the same sum, whose exact value is [max_real], comes out
    as [min_real]: both operands round up and the sum of the stored
    integers leaves the range by one. *)
Example add_wrap_overflows_by_rounding :
  max_real fix16_11 = Ok (Finite (32767 # 2048)) /\
  ((32767 # 4096) + (32767 # 4096) == 32767 # 2048)%Q /\
  add (32767 # 4096) (32767 # 4096) fix16_11 "wrap" "nearest"
    = Ok (-32768, Finite (- (16 # 1)), "0x8000") /\
  add (32767 # 4096) (32767 # 4096) fix16_11 "saturate" "nearest"
    = Ok (32767, Finite (32767 # 2048), "0x7FFF").
Proof. repeat split; vm_compute; reflexivity. Qed.

(** ** Errors *)

(** X21: on a well-formed format whose scale is a float, an invalid
    rounding token is reported first, whatever the overflow token and the
    float operands; an invalid overflow token is reported when the rounding
    token is valid and the first operand is a finite float whose scaled
    value stays in the float range; this holds for the three operations,
    for [mul] also when the format has no fractional bit. *)
Theorem token_errors :
  forall (fmt : FixedFormat) (a b : float) (o r : string),
    wf_format fmt -> F fmt <= 1023 ->
    (~ valid_rounding r ->
     quantize a fmt o r = Raise BadRounding /\
     add a b fmt o r = Raise BadRounding /\
     mul a b fmt o r = Raise BadRounding) /\
    (forall x : Q,
        a = Finite x -> scalable fmt x ->
        valid_rounding r -> ~ valid_overflow o ->
        quantize a fmt o r = Raise BadOverflow /\
        add a b fmt o r = Raise BadOverflow /\
        mul a b fmt o r = Raise BadOverflow).
Proof.
  intros fmt a b o r Hwf HF. split.
  - intros Hr. unfold quantize, add, mul.
    rewrite (round_to_int_bad fmt Hwf a r HF Hr). now repeat split.
  - intros x -> Hx Hr Ho.
    destruct (round_to_int_total fmt Hwf x r Hx Hr) as [n Hn].
    unfold quantize, add, mul. rewrite Hn. cbn [bind].
    rewrite (apply_overflow_bad fmt n o Ho). now repeat split.
Qed.

Lemma token_errors_witness :
  (quantize 1 int8 "wrap" "up" = Raise BadRounding /\
   add 1 2 int8 "wrap" "up" = Raise BadRounding /\
   mul 1 2 int8 "wrap" "up" = Raise BadRounding) /\
  (quantize 1 int8 "clip" "floor" = Raise BadOverflow /\
   add 1 2 int8 "clip" "floor" = Raise BadOverflow /\
   mul 1 2 int8 "clip" "floor" = Raise BadOverflow).
Proof.
  assert (Hwf : wf_format int8) by format_ok.
  assert (HF : F int8 <= 1023) by (cbn; lia).
  split.
  - apply (proj1 (token_errors int8 1 2 "wrap" "up" Hwf HF)).
    intros [H | [H | H]]; discriminate H.
  - apply (proj2 (token_errors int8 1 2 "clip" "floor" Hwf HF) 1%Q).
    + reflexivity.
    + scalable_ok.
    + right; left; reflexivity.
    + intros [H | H]; discriminate H.
Defined.

(** X22: nothing validates a format.  A negative [F] makes each operation
    raise the error of a negative shift count before the operands and the
    tokens are even looked at; with valid tokens and a first operand that
    can be scaled, so does a negative [W], or a signed format of width
    zero. *)
Theorem ill_formed_format_raises :
  forall (fmt : FixedFormat) (a b : float) (o r : string),
    (F fmt < 0 ->
     quantize a fmt o r = Raise NegativeShiftCount /\
     add a b fmt o r = Raise NegativeShiftCount /\
     mul a b fmt o r = Raise NegativeShiftCount) /\
    (forall x : Q,
        a = Finite x -> 0 <= F fmt -> scalable fmt x ->
        W fmt < 0 \/ (W fmt = 0 /\ signed fmt = true) ->
        valid_overflow o -> valid_rounding r ->
        quantize a fmt o r = Raise NegativeShiftCount /\
        add a b fmt o r = Raise NegativeShiftCount /\
        mul a b fmt o r = Raise NegativeShiftCount).
Proof.
  intros fmt a b o r. split.
  - intros HF.
    assert (Hround : forall x, _round_to_int x fmt r = Raise NegativeShiftCount).
    { intros x. unfold _round_to_int, scale. now rewrite lshift_neg. }
    unfold quantize, add, mul. rewrite !Hround. now repeat split.
  - intros x -> HF Hx HW Ho Hr.
    assert (Hround : exists n, _round_to_int x fmt r = Ok n).
    { destruct Hx as [HF' [Hd Hlt]].
      unfold _round_to_int, scale. rewrite lshift_1 by assumption.
      cbn [bind]. rewrite float_of_int_pow2 by lia.
      cbn [bind float_mul].
      rewrite round_double_scale by assumption.
      destruct (Qle_bool _ _) eqn:Hb;
        [apply Qle_bool_iff in Hb; exfalso; lra |].
      destruct Hr as [-> | [-> | ->]]; eexists; reflexivity. }
    assert (Hover : forall q, _apply_overflow q fmt o = Raise NegativeShiftCount).
    { intros q. unfold _apply_overflow, modulus, min_int, max_int.
      destruct HW as [HW | [HW Hs]].
      - rewrite !(lshift_neg 1 (W fmt)), !(lshift_neg 1 (W fmt - 1)) by lia.
        destruct Ho as [-> | ->]; cbn [String.eqb Ascii.eqb Bool.eqb bind];
          [reflexivity | destruct (signed fmt); reflexivity].
      - rewrite Hs, !(lshift_neg 1 (W fmt - 1)) by lia.
        rewrite (lshift_1 (W fmt)) by lia.
        destruct Ho as [-> | ->]; reflexivity. }
    destruct Hround as [n Hn].
    unfold quantize, add, mul. rewrite Hn. cbn [bind]. rewrite Hover.
    now repeat split.
Qed.

Lemma ill_formed_format_raises_witness :
  (quantize 1 (mkFixedFormat 16 (-1) true) "wrap" "up"
     = Raise NegativeShiftCount /\
   add 1 2 (mkFixedFormat 16 (-1) true) "wrap" "up"
     = Raise NegativeShiftCount /\
   mul 1 2 (mkFixedFormat 16 (-1) true) "wrap" "up"
     = Raise NegativeShiftCount) /\
  (quantize 1 (mkFixedFormat 0 0 true) "saturate" "ceil"
     = Raise NegativeShiftCount /\
   add 1 2 (mkFixedFormat 0 0 true) "saturate" "ceil"
     = Raise NegativeShiftCount /\
   mul 1 2 (mkFixedFormat 0 0 true) "saturate" "ceil"
     = Raise NegativeShiftCount).
Proof.
  split.
  - apply (proj1 (ill_formed_format_raises
                    (mkFixedFormat 16 (-1) true) 1 2 "wrap" "up")).
    cbn; lia.
  - apply (proj2 (ill_formed_format_raises
                    (mkFixedFormat 0 0 true) 1 2 "saturate" "ceil") 1%Q).
    + reflexivity.
    + cbn; lia.
    + scalable_ok.
    + right; split; reflexivity.
    + right; reflexivity.
    + right; right; reflexivity.
Defined.

(** X28: what the float range adds to the failures, on a well-formed
    format and with a valid rounding token: a finite float whose scaled
    value reaches [2^1024] scales to an infinity, and an infinite input
    stays one, for which [quantize] raises [OverflowError]; a NaN raises
    [ValueError]; and with 1024 fractional bits or more the scale is no
    float and every input raises [OverflowError]. *)
Theorem float_range_errors :
  forall (fmt : FixedFormat) (o r : string),
    wf_format fmt -> valid_rounding r ->
    (F fmt <= 1023 ->
     (forall x : Q,
         double x -> (Qpow2 1024 <= Qabs x * inject_Z (2 ^ F fmt))%Q ->
         quantize x fmt o r = Raise InfinityToInteger) /\
     (forall s, quantize (Infinity s) fmt o r = Raise InfinityToInteger) /\
     quantize NaN fmt o r = Raise NaNToInteger) /\
    (1024 <= F fmt ->
     forall x : float, quantize x fmt o r = Raise IntTooLargeForFloat) /\
    class_of InfinityToInteger = OverflowError /\
    class_of IntTooLargeForFloat = OverflowError /\
    class_of NaNToInteger = ValueError.
Proof.
  intros fmt o r Hwf Hr. split; [| split].
  - intros HF.
    destruct (round_to_int_nonfinite fmt Hwf r HF Hr) as [Hinf Hnan].
    split; [| split].
    + intros x Hd Hbig. unfold quantize.
      now rewrite (round_to_int_overflow fmt Hwf x r HF Hd Hbig Hr).
    + intros s. unfold quantize. now rewrite Hinf.
    + unfold quantize. now rewrite Hnan.
  - intros HF x. unfold quantize.
    now rewrite (round_to_int_large_scale fmt Hwf x r HF).
  - repeat split.
Qed.

Lemma float_range_errors_witness :
  quantize (inject_Z (2 ^ 1023)) fix16_11 "wrap" "nearest"
    = Raise InfinityToInteger /\
  quantize (Infinity true) fix16_11 "wrap" "nearest"
    = Raise InfinityToInteger /\
  quantize NaN fix16_11 "wrap" "nearest" = Raise NaNToInteger /\
  quantize 1 (mkFixedFormat 1100 1024 true) "wrap" "nearest"
    = Raise IntTooLargeForFloat.
Proof.
  destruct (float_range_errors fix16_11 "wrap" "nearest")
    as [H1 _]; [format_ok | left; reflexivity |].
  destruct (H1 ltac:(cbn; lia)) as [Hbig [Hinf Hnan]].
  destruct (float_range_errors (mkFixedFormat 1100 1024 true) "wrap" "nearest")
    as [_ [H2 _]]; [format_ok | left; reflexivity |].
  split; [| split; [| split]].
  - apply Hbig; [vm_compute; reflexivity | vm_compute; discriminate].
  - apply Hinf.
  - exact Hnan.
  - apply H2. cbn; lia.
Defined.

(** ** Signedness and range *)

(** X23: under "wrap" the signedness of the format changes the stored
    integer only by a multiple of [2^W]: on at most 1023 bits and for a
    finite float whose scaled value stays in the float range, the signed
    and the unsigned format of the same widths return the same hex string,
    and the unsigned stored integer is the signed one modulo [2^W]. *)
Theorem signedness_keeps_bit_pattern :
  forall (w f : Z) (x : Q) (r : string),
    float_format (mkFixedFormat w f true) ->
    scalable (mkFixedFormat w f true) x -> valid_rounding r ->
    exists qs xs qu xu hx,
      quantize x (mkFixedFormat w f true) "wrap" r = Ok (qs, xs, hx) /\
      quantize x (mkFixedFormat w f false) "wrap" r = Ok (qu, xu, hx) /\
      qu = qs mod 2 ^ w /\ 0 <= qu < 2 ^ w.
Proof.
  intros w f x r Hff Hx Hr.
  set (fs := mkFixedFormat w f true) in *.
  set (fu := mkFixedFormat w f false).
  pose proof Hff as [Hwf _].
  assert (Hffu : float_format fu) by exact Hff.
  assert (Hwfu : wf_format fu) by exact Hwf.
  assert (Hpos : 0 < 2 ^ w)
    by (apply Z.pow_pos_nonneg; destruct Hwf as [HW _]; cbn in HW; lia).
  destruct (round_to_int_total fs Hwf x r Hx Hr) as [n Hn].
  assert (Hnu : _round_to_int x fu r = Ok n) by exact Hn.
  pose proof (apply_overflow_wrap fs Hwf n) as Hs.
  pose proof (apply_overflow_wrap fu Hwfu n) as Hu.
  destruct (quantize_steps fs Hff _ _ _ _ _ Hn Hs) as [xs [hs [_ [Hhs Hqs]]]].
  destruct (quantize_steps fu Hffu _ _ _ _ _ Hnu Hu) as [xu [hu [_ [Hhu Hqu]]]].
  assert (Hmod : wrap_int fu n = wrap_int fs n mod 2 ^ w).
  { pose proof (wrap_int_mod fs n Hwf) as Hm. change (W fs) with w in Hm.
    rewrite Hm. reflexivity. }
  assert (Hhex : hs = hu).
  { rewrite int_to_hex_eq in Hhs, Hhu by assumption.
    injection Hhs as <-. injection Hhu as <-.
    change (W fs) with w. change (W fu) with w.
    now rewrite Hmod, Z.mod_mod by lia. }
  subst hu.
  exists (wrap_int fs n), (Finite xs), (wrap_int fu n), (Finite xu), hs.
  split; [exact Hqs |]. split; [exact Hqu |]. split; [exact Hmod |].
  rewrite Hmod. apply Z.mod_pos_bound. exact Hpos.
Qed.

Lemma signedness_keeps_bit_pattern_witness :
  exists qs xs qu xu hx,
    quantize (-7 # 4096) (mkFixedFormat 16 11 true) "wrap" "floor"
      = Ok (qs, xs, hx) /\
    quantize (-7 # 4096) (mkFixedFormat 16 11 false) "wrap" "floor"
      = Ok (qu, xu, hx) /\
    qu = qs mod 2 ^ 16 /\ 0 <= qu < 2 ^ 16.
Proof.
  apply (signedness_keeps_bit_pattern 16 11 (-7 # 4096) "floor").
  - format_ok.
  - scalable_ok.
  - right; left; reflexivity.
Defined.

(** X24: a well-formed format holds exactly [modulus] stored integers,
    zero among them, and a signed format has one more negative value than
    positive ones; on a format of at most 53 bits its real range spans
    [modulus - 1] resolution steps, and the resolution is at most 1. *)
Theorem range_holds_modulus_integers :
  forall (fmt : FixedFormat),
    wf_format fmt ->
    exists lo hi m,
      min_int fmt = Ok lo /\ max_int fmt = Ok hi /\ modulus fmt = Ok m /\
      hi - lo + 1 = m /\ lo <= 0 <= hi /\
      (signed fmt = true -> lo = - (hi + 1)) /\
      (W fmt <= 53 ->
       exists bottom top res : Q,
         min_real fmt = Ok (Finite bottom) /\ max_real fmt = Ok (Finite top) /\
         resolution fmt = Ok (Finite res) /\
         (top - bottom == inject_Z (m - 1) * res)%Q /\
         (0 < res <= 1)%Q).
Proof.
  intros fmt Hwf.
  pose proof (pow_half_pos fmt Hwf) as Hh.
  pose proof (pow_W_split fmt Hwf) as Hsplit.
  pose proof (pow_F_pos fmt Hwf) as HsZ.
  pose proof (inject_Z_pos _ HsZ) as Hs.
  exists (lo_int fmt), (hi_int fmt), (2 ^ W fmt).
  split; [now apply min_int_eq |]. split; [now apply max_int_eq |].
  split; [now apply modulus_eq |].
  assert (Hcount : hi_int fmt - lo_int fmt + 1 = 2 ^ W fmt)
    by (unfold lo_int, hi_int; destruct (signed fmt); lia).
  split; [exact Hcount |].
  split; [unfold lo_int, hi_int; destruct (signed fmt); lia |].
  split; [unfold lo_int, hi_int; intros ->; lia |].
  intros HW. assert (Hex : exact_format fmt) by (split; assumption).
  exists (decoded fmt (lo_int fmt)), (decoded fmt (hi_int fmt)), (decoded fmt 1).
  split; [now apply min_real_eq |]. split; [now apply max_real_eq |].
  split; [now apply exact_resolution_eq |].
  rewrite !decoded_eq. change (inject_Z 1) with 1%Q.
  split.
  - rewrite <- Hcount.
    replace (hi_int fmt - lo_int fmt + 1 - 1) with (hi_int fmt + - lo_int fmt)
      by lia.
    rewrite inject_Z_plus, inject_Z_opp. field. lra.
  - split.
    + apply Qlt_shift_div_l; [exact Hs | lra].
    + apply Qle_shift_div_r; [exact Hs |].
      rewrite Qmult_1_l. change 1%Q with (inject_Z 1).
      rewrite <- Zle_Qle. lia.
Qed.

Lemma range_holds_modulus_integers_witness :
  exists lo hi m,
    min_int fix16_11 = Ok lo /\ max_int fix16_11 = Ok hi /\
    modulus fix16_11 = Ok m /\
    hi - lo + 1 = m /\ lo <= 0 <= hi /\
    (signed fix16_11 = true -> lo = - (hi + 1)) /\
    exists bottom top res : Q,
      min_real fix16_11 = Ok (Finite bottom) /\
      max_real fix16_11 = Ok (Finite top) /\
      resolution fix16_11 = Ok (Finite res) /\
      (top - bottom == inject_Z (m - 1) * res)%Q /\
      (0 < res <= 1)%Q.
Proof.
  destruct (range_holds_modulus_integers fix16_11)
    as [lo [hi [m [H1 [H2 [H3 [H4 [H5 [H6 H7]]]]]]]]].
  - format_ok.
  - exists lo, hi, m. repeat (split; [assumption |]). apply H7. cbn; lia.
Defined.

(** ** Best approximation, aliasing and chained sums *)

(** X25: on a format of at most 53 bits, under "saturate" and "nearest",
    the returned real is a best approximation of the input among the
    values the format can store, for every finite float whose scaled value
    stays in the float range, inside the range of the format or not. *)
Theorem saturate_nearest_is_best :
  forall (fmt : FixedFormat) (x : Q) (q lo hi : Z),
    exact_format fmt -> scalable fmt x ->
    min_int fmt = Ok lo -> max_int fmt = Ok hi -> lo <= q <= hi ->
    exists qi (xr : Q) hx (xq : Q),
      quantize x fmt "saturate" "nearest" = Ok (qi, Finite xr, hx) /\
      int_to_real q fmt = Ok (Finite xq) /\
      (Qabs (xr - x) <= Qabs (xq - x))%Q.
Proof.
  intros fmt x q lo hi Hex Hx Hlo Hhi Hq.
  pose proof Hex as [Hwf _]. pose proof (exact_is_float fmt Hex) as Hff.
  rewrite min_int_eq in Hlo by assumption. injection Hlo as <-.
  rewrite max_int_eq in Hhi by assumption. injection Hhi as <-.
  pose proof (inject_Z_pos _ (pow_F_pos fmt Hwf)) as Hs.
  pose proof (round_to_int_nearest fmt Hwf x Hx) as Hn.
  pose proof (apply_overflow_saturate fmt Hwf
                (py_round (x * inject_Z (2 ^ F fmt)))) as Hc.
  destruct (quantize_steps fmt Hff _ _ _ _ _ Hn Hc) as [xr [hx [Hxr [_ Hqz]]]].
  rewrite (int_to_real_in_range fmt Hex) in Hxr
    by (apply clamp_int_range; assumption).
  injection Hxr as <-.
  eexists; eexists; eexists; eexists.
  split; [exact Hqz |].
  split; [now apply (int_to_real_in_range fmt Hex) |].
  rewrite !decoded_eq, !abs_unscale by exact Hs.
  apply Qmult_le_compat_r.
  - unfold clamp_int. now apply clamped_round_is_nearest.
  - apply Qlt_le_weak, Qinv_lt_0_compat, Hs.
Qed.

Lemma saturate_nearest_is_best_witness :
  exists qi (xr : Q) hx (xq : Q),
    quantize (65 # 4) fix16_11 "saturate" "nearest" = Ok (qi, Finite xr, hx) /\
    int_to_real 32000 fix16_11 = Ok (Finite xq) /\
    (Qabs (xr - (65 # 4)) <= Qabs (xq - (65 # 4)))%Q.
Proof.
  apply (saturate_nearest_is_best fix16_11 (65 # 4) 32000 (-32768) 32767).
  - format_ok.
  - scalable_ok.
  - reflexivity.
  - reflexivity.
  - lia.
Defined.

(** X26: "wrap" quantisation is periodic: when the finite floats [x] and
    [x'] differ by exactly [k] times the span [2^W / 2^F] of the format,
    and their scaled values stay in the float range, they give the same
    result, in every rounding mode. *)
Theorem quantize_wrap_periodic :
  forall (fmt : FixedFormat) (x x' : Q) (k : Z) (r : string),
    wf_format fmt -> scalable fmt x -> scalable fmt x' ->
    valid_rounding r ->
    (x' == x + inject_Z (k * 2 ^ W fmt) / inject_Z (2 ^ F fmt))%Q ->
    quantize x' fmt "wrap" r = quantize x fmt "wrap" r.
Proof.
  intros fmt x x' k r Hwf Hx Hx' Hr Hshift.
  pose proof (pow_F_pos fmt Hwf) as HsZ.
  pose proof (inject_Z_pos _ HsZ) as Hs.
  set (m := k * 2 ^ W fmt) in *.
  assert (Hy : (x' * inject_Z (2 ^ F fmt)
                == x * inject_Z (2 ^ F fmt) + inject_Z m)%Q)
    by (rewrite Hshift; field; lra).
  assert (Hev : Z.even m = true).
  { unfold m. rewrite (pow_W_split fmt Hwf).
    replace (k * (2 * 2 ^ (W fmt - 1))) with (2 * (k * 2 ^ (W fmt - 1))) by lia.
    apply Z.even_even. }
  assert (Hround : forall n, _round_to_int x fmt r = Ok n ->
                             _round_to_int x' fmt r = Ok (n + m)).
  { intros n Hn. destruct Hr as [-> | [-> | ->]].
    - rewrite round_to_int_nearest in Hn |- * by assumption.
      injection Hn as <-. f_equal.
      rewrite (py_round_comp _ _ Hy). now apply py_round_add_even.
    - rewrite round_to_int_floor in Hn |- * by assumption.
      injection Hn as <-. f_equal.
      rewrite (Qfloor_comp _ _ Hy). apply floor_add_int.
    - rewrite round_to_int_ceil in Hn |- * by assumption.
      injection Hn as <-. f_equal.
      rewrite (Qceiling_comp _ _ Hy). apply ceiling_add_int. }
  destruct (round_to_int_total fmt Hwf x r Hx Hr) as [n Hn].
  unfold quantize. rewrite (Hround n Hn), Hn. cbn [bind].
  rewrite !apply_overflow_wrap by assumption.
  assert (Hw : wrap_int fmt (n + m) = wrap_int fmt n).
  { unfold wrap_int, m. f_equal. apply Z.mod_add.
    pose proof (pow_half_pos fmt Hwf). pose proof (pow_W_split fmt Hwf). lia. }
  now rewrite Hw.
Qed.

Lemma quantize_wrap_periodic_witness :
  quantize (129 # 4) fix16_11 "wrap" "nearest"
  = quantize (1 # 4) fix16_11 "wrap" "nearest".
Proof.
  apply (quantize_wrap_periodic fix16_11 (1 # 4) (129 # 4) 1 "nearest").
  - format_ok.
  - scalable_ok.
  - scalable_ok.
  - left; reflexivity.
  - vm_compute; reflexivity.
Defined.

(** Where the shifted input is no float the period is lost: on Fix16_11,
    [2^60 + 1/4] is the float [2^60], and the quarter is gone. *)
Example wrap_period_lost_to_rounding :
  float_add (Finite (1 # 4)) (Finite (inject_Z (2 ^ 60)))
    = Finite (inject_Z (2 ^ 60)) /\
  quantize (1 # 4) fix16_11 "wrap" "nearest"
    = Ok (512, Finite (1 # 4), "0x0200") /\
  quantize (inject_Z (2 ^ 60)) fix16_11 "wrap" "nearest"
    = Ok (0, Finite 0, "0x0000").
Proof. repeat split; vm_compute; reflexivity. Qed.

(** The triple of a wrapped sum, from the two rounded operands. *)
Lemma add_wrap_eq (fmt : FixedFormat) (a b : float) (r : string) (ra rb : Z) :
  exact_format fmt ->
  _round_to_int a fmt r = Ok ra -> _round_to_int b fmt r = Ok rb ->
  add a b fmt "wrap" r =
  Ok (wrap_int fmt (ra + rb),
      Finite (decoded fmt (wrap_int fmt (ra + rb))),
      String.append "0x"
        (format_0X (wrap_int fmt (ra + rb) mod 2 ^ W fmt) ((W fmt + 3) / 4))).
Proof.
  intros Hex Hra Hrb. pose proof Hex as [Hwf _].
  pose proof (apply_overflow_wrap fmt Hwf ra) as Hai.
  pose proof (apply_overflow_wrap fmt Hwf rb) as Hbi.
  pose proof (apply_overflow_wrap fmt Hwf
                (wrap_int fmt ra + wrap_int fmt rb)) as Hsi.
  destruct (wrap_int_add fmt ra (wrap_int fmt rb) Hwf) as [Hl _].
  destruct (wrap_int_add fmt ra rb Hwf) as [_ Hr'].
  rewrite Hl, Hr' in Hsi.
  destruct (add_steps fmt (exact_is_float fmt Hex) a b "wrap" r
              _ _ _ _ _ Hra Hai Hrb Hbi Hsi)
    as [xr [hx [Hxr [Hhx Hadd]]]].
  rewrite (int_to_real_in_range fmt Hex) in Hxr
    by (apply wrap_int_range; assumption).
  rewrite int_to_hex_eq in Hhx by assumption.
  injection Hxr as <-. injection Hhx as <-. exact Hadd.
Qed.

(** X27: on a format of at most 53 bits, under "wrap", sums chained through
    the returned real value are associative: adding [c] to the result of
    [a + b] and adding [a] to the result of [b + c] return the same
    triple. *)
Theorem add_wrap_associative :
  forall (fmt : FixedFormat) (a b c : Q) (r : string),
    exact_format fmt -> scalable fmt a -> scalable fmt b -> scalable fmt c ->
    valid_rounding r ->
    exists qab xab hab qbc xbc hbc res,
      add a b fmt "wrap" r = Ok (qab, xab, hab) /\
      add b c fmt "wrap" r = Ok (qbc, xbc, hbc) /\
      add xab c fmt "wrap" r = Ok res /\
      add a xbc fmt "wrap" r = Ok res.
Proof.
  intros fmt a b c r Hex Ha Hb Hc Hr. pose proof Hex as [Hwf _].
  destruct (round_to_int_total fmt Hwf a r Ha Hr) as [ra Hra].
  destruct (round_to_int_total fmt Hwf b r Hb Hr) as [rb Hrb].
  destruct (round_to_int_total fmt Hwf c r Hc Hr) as [rc Hrc].
  pose proof (add_wrap_eq fmt a b r ra rb Hex Hra Hrb) as Hab.
  pose proof (add_wrap_eq fmt b c r rb rc Hex Hrb Hrc) as Hbc.
  pose proof (round_of_stored fmt Hex (wrap_int fmt (ra + rb)) r
                (wrap_int_range fmt Hwf _) Hr) as Hrab.
  pose proof (round_of_stored fmt Hex (wrap_int fmt (rb + rc)) r
                (wrap_int_range fmt Hwf _) Hr) as Hrbc.
  pose proof (add_wrap_eq fmt _ c r _ rc Hex Hrab Hrc) as Hl.
  pose proof (add_wrap_eq fmt a _ r ra _ Hex Hra Hrbc) as Hr'.
  destruct (wrap_int_add fmt (ra + rb) rc Hwf) as [Hwl _].
  destruct (wrap_int_add fmt ra (rb + rc) Hwf) as [_ Hwr].
  rewrite Hwl in Hl. rewrite Hwr, Z.add_assoc in Hr'.
  do 7 eexists.
  split; [exact Hab |]. split; [exact Hbc |]. split; [exact Hl | exact Hr'].
Qed.

Lemma add_wrap_associative_witness :
  exists qab xab hab qbc xbc hbc res,
    add 10 10 fix16_11 "wrap" "nearest" = Ok (qab, xab, hab) /\
    add 10 (-7) fix16_11 "wrap" "nearest" = Ok (qbc, xbc, hbc) /\
    add xab (-7) fix16_11 "wrap" "nearest" = Ok res /\
    add 10 xbc fix16_11 "wrap" "nearest" = Ok res.
Proof.
  apply (add_wrap_associative fix16_11 10 10 (-7) "nearest").
  - format_ok.
  - scalable_ok.
  - scalable_ok.
  - scalable_ok.
  - left; reflexivity.
Defined.

(** Under "saturate" the order matters: 10 + 10 clips before -7 is added. *)
Example add_saturate_not_associative :
  add 10 10 fix16_11 "saturate" "nearest"
    = Ok (32767, Finite (32767 # 2048), "0x7FFF") /\
  add (32767 # 2048) (-7) fix16_11 "saturate" "nearest"
    = Ok (18431, Finite (18431 # 2048), "0x47FF") /\
  add 10 (-7) fix16_11 "saturate" "nearest"
    = Ok (6144, Finite 3, "0x1800") /\
  add 10 3 fix16_11 "saturate" "nearest"
    = Ok (26624, Finite 13, "0x6800").
Proof. repeat split; vm_compute; reflexivity. Qed.
